(** * Swarr: the event-to-timeline compiler and the playback session of
      [frontend/src/App.tsx], embedded and verified.

    The development follows the component: first the data the handlers
    exchange, then the body of the [forEach] loop that compiles the buffered
    events into a schedule, then the handlers of the [App] component as
    functions on an explicit application state. *)

From Stdlib Require Import ZArith QArith Lia Lqa SpecFloat.
From stdpp Require Import gmap strings list pretty.

Local Open Scope string_scope.
Local Open Scope list_scope.
Local Open Scope Z_scope.

(** ** Data exchanged by the handlers *)

(** One decoded message of the visualizer channel ([data] in [onmessage]);
    the compile loop reads exactly these five properties. JavaScript numbers
    that hold line numbers are integers here. *)
Record CodeEvent := {
  type : string;
  startLine : Z;
  endLine : Z;
  isError : bool;
  message : string
}.

(** The three symbolic durations the compile loop assigns. *)
Inductive Duration := D4n | D8n | D16n.

(** A pitch is what indexing a [string[]] yields: a string or [undefined]. *)
Definition Pitch := option string.

(** [note: string | string[]]. *)
Inductive Note :=
| Single (p : Pitch)
| Chord (ps : list Pitch).

(** [MusicalEvent & { time: number }]. *)
Record ScheduledEvent := {
  time : Q;
  note : Note;
  duration : Duration;
  se_type : string;
  se_startLine : Z;
  se_endLine : Z;
  se_isError : bool;
  se_message : string
}.

#[global] Instance Duration_eq_dec : EqDecision Duration.
Proof. solve_decision. Defined.

(** Length of a note value in beats: a quarter note is one beat. *)
Definition beats (d : Duration) : Q :=
  match d with
  | D4n => 1
  | D8n => 1 # 2
  | D16n => 1 # 4
  end.

(** [Tone.Time(d).toSeconds()] at a transport tempo of [bpm] beats per
    minute; the component never sets the tempo, which Tone starts at 120.
    Seconds are rationals: at that tempo the three durations are 1/2, 1/4
    and 1/8 of a second, which JavaScript numbers add without rounding. *)
Definition toneSeconds (bpm : Q) (d : Duration) : Q := (60 / bpm) * beats d.

Definition defaultSeconds : Duration -> Q := toneSeconds 120.

(** ** Indexing the pitch scale *)

(** [currentScale[i % currentScale.length]]: the remainder takes the sign of
    the dividend, a zero length gives [NaN], and an index that is not an
    own property of the array gives [undefined]. *)
Definition scale_at (currentScale : list string) (i : Z) : Pitch :=
  let len := Z.of_nat (length currentScale) in
  if len =? 0 then None
  else
    let r := Z.rem i len in
    if r <? 0 then None else currentScale !! Z.to_nat r.

(** ** The compile loop of [ws.onclose] *)

(** The [switch (event.type)] of the error branch. *)
Definition error_note (ty : string) : Note * Duration :=
  if String.eqb ty "syntax_error" then (Chord [Some "C2"; Some "C#2"], D8n)
  else if String.eqb ty "logical_error" then (Chord [Some "E2"; Some "F2"], D16n)
  else if String.eqb ty "best_practice" then (Chord [Some "G2"; Some "G#2"], D16n)
  else (Single (Some "C2"), D16n).

(** The two [case] labels of the non-error [switch]. *)
Definition is_declaration (ty : string) : bool :=
  String.eqb ty "function_declaration" || String.eqb ty "arrow_function".

(** The non-error branch, from [noteIndex] on. *)
Definition code_note (currentScale : list string) (ty : string)
    (startLine messageCounter : Z) : Note * Duration :=
  let noteIndex := Z.abs (startLine + messageCounter) in
  if is_declaration ty then
    (Chord [scale_at currentScale noteIndex;
            scale_at currentScale (noteIndex + 3)], D4n)
  else (Single (scale_at currentScale noteIndex), D16n).

(** The variables the loop body mutates. *)
Record CompileState := {
  scheduledEvents : list ScheduledEvent;
  cumulativeTime : Q;
  messageCounter : Z
}.

Definition compile_init : CompileState :=
  {| scheduledEvents := []; cumulativeTime := 0; messageCounter := 0 |}.

Section Playback.

(** The audio engine's conversion of a symbolic duration to seconds. *)
Variable secondsOf : Duration -> Q.

(** One iteration of [musicalEvents.forEach]. *)
Definition compile_event (currentScale : list string)
    (st : CompileState) (event : CodeEvent) : CompileState :=
  let '(n, d) :=
    if isError event then error_note (type event)
    else code_note currentScale (type event) (startLine event)
                   (messageCounter st) in
  let newScheduledEvent :=
    {| time := cumulativeTime st;
       note := n;
       duration := d;
       se_type := type event;
       se_startLine := startLine event;
       se_endLine := endLine event;
       se_isError := isError event;
       se_message := message event |} in
  {| scheduledEvents := scheduledEvents st ++ [newScheduledEvent];
     cumulativeTime := (cumulativeTime st + secondsOf d)%Q;
     messageCounter :=
       if isError event then messageCounter st else messageCounter st + 1 |}.

(** The whole loop, from the three initial assignments. *)
Definition compile_from (currentScale : list string)
    (st : CompileState) (musicalEvents : list CodeEvent) : CompileState :=
  fold_left (compile_event currentScale) musicalEvents st.

Definition compile (currentScale : list string)
    (musicalEvents : list CodeEvent) : CompileState :=
  compile_from currentScale compile_init musicalEvents.

(** ** The objects of one playback session *)

(** [NodeVisualProps]; the [id] template string joins the callback time and
    one random number. *)
Record NodeVisualProps := {
  id : Q * Q;
  nv_type : string;
  position : Q * Q * Q;
  nv_duration : Q;
  nv_isError : bool
}.

Record HighlightInfo := {
  hl_start : Z;
  hl_end : Z;
  hl_type : string;
  hl_isError : bool
}.

Record Summary := {
  title : string;
  messages : list string
}.

Inductive ReadyState := CONNECTING | OPEN | CLOSING | CLOSED.

#[global] Instance ReadyState_eq_dec : EqDecision ReadyState.
Proof. solve_decision. Defined.

(** A pending call of [classifyCode], with the [code] its caller closed
    over. *)
Record Request := {
  rq_code : string;
  rq_settled : bool
}.

(** One WebSocket together with the variables its four handlers close over:
    the [code] and [palette] of the run of [handlePlay] that opened it and
    the three collections declared just before it. [sent] lists the [code]
    of each message passed to [send] while the socket was open. *)
Record Session := {
  readyState : ReadyState;
  captured_code : string;
  palette_scale : list string;
  musicalEvents : list CodeEvent;
  errorMessages : list string;
  collectedErrors : gmap Z string;
  sent : list string
}.

(** A synth instance; [triggered] lists its [triggerAttackRelease] calls. *)
Record Synth := {
  voice : string;
  sy_disposed : bool;
  triggered : list (Note * Duration * Q)
}.

(** A [Tone.Sequence] over a compiled schedule. *)
Record Sequence := {
  seq_events : list ScheduledEvent;
  seq_loop : bool;
  seq_disposed : bool
}.

(** A [window.setTimeout(finalStop, ...)]. [finalStop] closes over the
    session's [collectedErrors] and over [finalSummary], whose [messages] is
    the session's [errorMessages] array itself: both are read through the
    session when the timer fires. *)
Record Timer := {
  tm_session : nat;
  tm_title : string;
  tm_delay : Q;
  tm_pending : bool
}.

(** [Tone.Transport]: whether it runs, and the sequences started on it. *)
Record Transport := {
  running : bool;
  scheduled : list nat
}.

(** The component: its nine [useState] cells, its four [useRef] cells (a
    reference is an index into the matching store) and the stores of the
    objects its handlers create. *)
Record App := {
  code : string;
  isPlaying : bool;
  status : string;
  visualNodes : list NodeVisualProps;
  cameraEffect : Q;
  activePalette : string;
  highlightedLines : option HighlightInfo;
  summary : option Summary;
  persistentErrors : gmap Z string;
  ws : option nat;
  synth : option nat;
  sequence : option nat;
  stopTimeoutRef : option nat;
  requests : list Request;
  sessions : list Session;
  synths : list Synth;
  sequences : list Sequence;
  timers : list Timer;
  transport : Transport
}.

(** Field updates, one per cell. *)
Definition set_code (v : string) (s : App) : App :=
  {| code := v; isPlaying := isPlaying s; status := status s;
     visualNodes := visualNodes s; cameraEffect := cameraEffect s;
     activePalette := activePalette s;
     highlightedLines := highlightedLines s; summary := summary s;
     persistentErrors := persistentErrors s; ws := ws s; synth := synth s;
     sequence := sequence s; stopTimeoutRef := stopTimeoutRef s;
     requests := requests s; sessions := sessions s; synths := synths s;
     sequences := sequences s; timers := timers s;
     transport := transport s |}.

Definition set_isPlaying (v : bool) (s : App) : App :=
  {| code := code s; isPlaying := v; status := status s;
     visualNodes := visualNodes s; cameraEffect := cameraEffect s;
     activePalette := activePalette s;
     highlightedLines := highlightedLines s; summary := summary s;
     persistentErrors := persistentErrors s; ws := ws s; synth := synth s;
     sequence := sequence s; stopTimeoutRef := stopTimeoutRef s;
     requests := requests s; sessions := sessions s; synths := synths s;
     sequences := sequences s; timers := timers s;
     transport := transport s |}.

Definition set_status (v : string) (s : App) : App :=
  {| code := code s; isPlaying := isPlaying s; status := v;
     visualNodes := visualNodes s; cameraEffect := cameraEffect s;
     activePalette := activePalette s;
     highlightedLines := highlightedLines s; summary := summary s;
     persistentErrors := persistentErrors s; ws := ws s; synth := synth s;
     sequence := sequence s; stopTimeoutRef := stopTimeoutRef s;
     requests := requests s; sessions := sessions s; synths := synths s;
     sequences := sequences s; timers := timers s;
     transport := transport s |}.

Definition set_visualNodes (v : list NodeVisualProps) (s : App) : App :=
  {| code := code s; isPlaying := isPlaying s; status := status s;
     visualNodes := v; cameraEffect := cameraEffect s;
     activePalette := activePalette s;
     highlightedLines := highlightedLines s; summary := summary s;
     persistentErrors := persistentErrors s; ws := ws s; synth := synth s;
     sequence := sequence s; stopTimeoutRef := stopTimeoutRef s;
     requests := requests s; sessions := sessions s; synths := synths s;
     sequences := sequences s; timers := timers s;
     transport := transport s |}.

Definition set_cameraEffect (v : Q) (s : App) : App :=
  {| code := code s; isPlaying := isPlaying s; status := status s;
     visualNodes := visualNodes s; cameraEffect := v;
     activePalette := activePalette s;
     highlightedLines := highlightedLines s; summary := summary s;
     persistentErrors := persistentErrors s; ws := ws s; synth := synth s;
     sequence := sequence s; stopTimeoutRef := stopTimeoutRef s;
     requests := requests s; sessions := sessions s; synths := synths s;
     sequences := sequences s; timers := timers s;
     transport := transport s |}.

Definition set_activePalette (v : string) (s : App) : App :=
  {| code := code s; isPlaying := isPlaying s; status := status s;
     visualNodes := visualNodes s; cameraEffect := cameraEffect s;
     activePalette := v; highlightedLines := highlightedLines s;
     summary := summary s; persistentErrors := persistentErrors s;
     ws := ws s; synth := synth s; sequence := sequence s;
     stopTimeoutRef := stopTimeoutRef s; requests := requests s;
     sessions := sessions s; synths := synths s; sequences := sequences s;
     timers := timers s; transport := transport s |}.

Definition set_highlightedLines (v : option HighlightInfo) (s : App) : App :=
  {| code := code s; isPlaying := isPlaying s; status := status s;
     visualNodes := visualNodes s; cameraEffect := cameraEffect s;
     activePalette := activePalette s; highlightedLines := v;
     summary := summary s; persistentErrors := persistentErrors s;
     ws := ws s; synth := synth s; sequence := sequence s;
     stopTimeoutRef := stopTimeoutRef s; requests := requests s;
     sessions := sessions s; synths := synths s; sequences := sequences s;
     timers := timers s; transport := transport s |}.

Definition set_summary (v : option Summary) (s : App) : App :=
  {| code := code s; isPlaying := isPlaying s; status := status s;
     visualNodes := visualNodes s; cameraEffect := cameraEffect s;
     activePalette := activePalette s;
     highlightedLines := highlightedLines s; summary := v;
     persistentErrors := persistentErrors s; ws := ws s; synth := synth s;
     sequence := sequence s; stopTimeoutRef := stopTimeoutRef s;
     requests := requests s; sessions := sessions s; synths := synths s;
     sequences := sequences s; timers := timers s;
     transport := transport s |}.

Definition set_persistentErrors (v : gmap Z string) (s : App) : App :=
  {| code := code s; isPlaying := isPlaying s; status := status s;
     visualNodes := visualNodes s; cameraEffect := cameraEffect s;
     activePalette := activePalette s;
     highlightedLines := highlightedLines s; summary := summary s;
     persistentErrors := v; ws := ws s; synth := synth s;
     sequence := sequence s; stopTimeoutRef := stopTimeoutRef s;
     requests := requests s; sessions := sessions s; synths := synths s;
     sequences := sequences s; timers := timers s;
     transport := transport s |}.

Definition set_ws (v : option nat) (s : App) : App :=
  {| code := code s; isPlaying := isPlaying s; status := status s;
     visualNodes := visualNodes s; cameraEffect := cameraEffect s;
     activePalette := activePalette s;
     highlightedLines := highlightedLines s; summary := summary s;
     persistentErrors := persistentErrors s; ws := v; synth := synth s;
     sequence := sequence s; stopTimeoutRef := stopTimeoutRef s;
     requests := requests s; sessions := sessions s; synths := synths s;
     sequences := sequences s; timers := timers s;
     transport := transport s |}.

Definition set_synth (v : option nat) (s : App) : App :=
  {| code := code s; isPlaying := isPlaying s; status := status s;
     visualNodes := visualNodes s; cameraEffect := cameraEffect s;
     activePalette := activePalette s;
     highlightedLines := highlightedLines s; summary := summary s;
     persistentErrors := persistentErrors s; ws := ws s; synth := v;
     sequence := sequence s; stopTimeoutRef := stopTimeoutRef s;
     requests := requests s; sessions := sessions s; synths := synths s;
     sequences := sequences s; timers := timers s;
     transport := transport s |}.

Definition set_sequence (v : option nat) (s : App) : App :=
  {| code := code s; isPlaying := isPlaying s; status := status s;
     visualNodes := visualNodes s; cameraEffect := cameraEffect s;
     activePalette := activePalette s;
     highlightedLines := highlightedLines s; summary := summary s;
     persistentErrors := persistentErrors s; ws := ws s; synth := synth s;
     sequence := v; stopTimeoutRef := stopTimeoutRef s;
     requests := requests s; sessions := sessions s; synths := synths s;
     sequences := sequences s; timers := timers s;
     transport := transport s |}.

Definition set_stopTimeoutRef (v : option nat) (s : App) : App :=
  {| code := code s; isPlaying := isPlaying s; status := status s;
     visualNodes := visualNodes s; cameraEffect := cameraEffect s;
     activePalette := activePalette s;
     highlightedLines := highlightedLines s; summary := summary s;
     persistentErrors := persistentErrors s; ws := ws s; synth := synth s;
     sequence := sequence s; stopTimeoutRef := v; requests := requests s;
     sessions := sessions s; synths := synths s; sequences := sequences s;
     timers := timers s; transport := transport s |}.

Definition set_requests (v : list Request) (s : App) : App :=
  {| code := code s; isPlaying := isPlaying s; status := status s;
     visualNodes := visualNodes s; cameraEffect := cameraEffect s;
     activePalette := activePalette s;
     highlightedLines := highlightedLines s; summary := summary s;
     persistentErrors := persistentErrors s; ws := ws s; synth := synth s;
     sequence := sequence s; stopTimeoutRef := stopTimeoutRef s;
     requests := v; sessions := sessions s; synths := synths s;
     sequences := sequences s; timers := timers s;
     transport := transport s |}.

Definition set_sessions (v : list Session) (s : App) : App :=
  {| code := code s; isPlaying := isPlaying s; status := status s;
     visualNodes := visualNodes s; cameraEffect := cameraEffect s;
     activePalette := activePalette s;
     highlightedLines := highlightedLines s; summary := summary s;
     persistentErrors := persistentErrors s; ws := ws s; synth := synth s;
     sequence := sequence s; stopTimeoutRef := stopTimeoutRef s;
     requests := requests s; sessions := v; synths := synths s;
     sequences := sequences s; timers := timers s;
     transport := transport s |}.

Definition set_synths (v : list Synth) (s : App) : App :=
  {| code := code s; isPlaying := isPlaying s; status := status s;
     visualNodes := visualNodes s; cameraEffect := cameraEffect s;
     activePalette := activePalette s;
     highlightedLines := highlightedLines s; summary := summary s;
     persistentErrors := persistentErrors s; ws := ws s; synth := synth s;
     sequence := sequence s; stopTimeoutRef := stopTimeoutRef s;
     requests := requests s; sessions := sessions s; synths := v;
     sequences := sequences s; timers := timers s;
     transport := transport s |}.

Definition set_sequences (v : list Sequence) (s : App) : App :=
  {| code := code s; isPlaying := isPlaying s; status := status s;
     visualNodes := visualNodes s; cameraEffect := cameraEffect s;
     activePalette := activePalette s;
     highlightedLines := highlightedLines s; summary := summary s;
     persistentErrors := persistentErrors s; ws := ws s; synth := synth s;
     sequence := sequence s; stopTimeoutRef := stopTimeoutRef s;
     requests := requests s; sessions := sessions s; synths := synths s;
     sequences := v; timers := timers s; transport := transport s |}.

Definition set_timers (v : list Timer) (s : App) : App :=
  {| code := code s; isPlaying := isPlaying s; status := status s;
     visualNodes := visualNodes s; cameraEffect := cameraEffect s;
     activePalette := activePalette s;
     highlightedLines := highlightedLines s; summary := summary s;
     persistentErrors := persistentErrors s; ws := ws s; synth := synth s;
     sequence := sequence s; stopTimeoutRef := stopTimeoutRef s;
     requests := requests s; sessions := sessions s; synths := synths s;
     sequences := sequences s; timers := v; transport := transport s |}.

Definition set_transport (v : Transport) (s : App) : App :=
  {| code := code s; isPlaying := isPlaying s; status := status s;
     visualNodes := visualNodes s; cameraEffect := cameraEffect s;
     activePalette := activePalette s;
     highlightedLines := highlightedLines s; summary := summary s;
     persistentErrors := persistentErrors s; ws := ws s; synth := synth s;
     sequence := sequence s; stopTimeoutRef := stopTimeoutRef s;
     requests := requests s; sessions := sessions s; synths := synths s;
     sequences := sequences s; timers := timers s; transport := v |}.

Notation "s |> f" := (f s) (at level 45, left associativity, only parsing).

(** ** The palette table *)

Record Palette := {
  scale : list string;
  synthClass : string
}.

Definition musicPalettes : list (string * Palette) :=
  [ ("Go-Concurrent",
     {| scale := ["C3"; "D#3"; "G3"; "G#3"; "C4"; "D#4"; "G4"; "G#4"];
        synthClass := "FMSynth" |});
    ("Go-Systems",
     {| scale := ["A2"; "B2"; "C3"; "E3"; "A3"; "B3"; "C4"; "E4"];
        synthClass := "AMSynth" |});
    ("JS-Async",
     {| scale := ["G4"; "A4"; "C5"; "D5"; "F5"; "G5"; "A5"; "C6"];
        synthClass := "PluckSynth" |});
    ("JS-DOM",
     {| scale := ["C4"; "E4"; "G4"; "A4"; "B4"; "C5"; "E5"; "G5"];
        synthClass := "PolySynth" |});
    ("JS-Functional",
     {| scale := ["D3"; "F3"; "A3"; "C4"; "E4"; "F4"; "A4"; "C5"];
        synthClass := "MembraneSynth" |});
    ("Algorithmic-Logic",
     {| scale := ["C4"; "D4"; "E4"; "F#4"; "G#4"; "A#4"; "C5"; "D5"];
        synthClass := "PolySynth" |});
    ("default",
     {| scale := ["C4"; "D4"; "E4"; "F4"; "G4"; "A4"; "B4"; "C5"];
        synthClass := "PolySynth" |}) ].

(** [musicPalettes[key]] for an own property of the table. *)
Fixpoint own_palette (table : list (string * Palette)) (key : string)
    : option Palette :=
  match table with
  | [] => None
  | (k, p) :: rest => if String.eqb k key then Some p else own_palette rest key
  end.

(** The table is an object literal, so [key in musicPalettes] also holds
    for the property names it inherits from [Object.prototype]. *)
Definition objectPrototypeKeys : list string :=
  [ "constructor"; "hasOwnProperty"; "isPrototypeOf"; "propertyIsEnumerable";
    "toLocaleString"; "toString"; "valueOf"; "__proto__";
    "__defineGetter__"; "__defineSetter__"; "__lookupGetter__";
    "__lookupSetter__" ].

Definition key_in_musicPalettes (key : string) : bool :=
  match own_palette musicPalettes key with
  | Some _ => true
  | None => existsb (String.eqb key) objectPrototypeKeys
  end.

(** ** Operations on the stored objects *)

(** [socket.close()]: a connecting or open socket starts closing. *)
Definition close_socket (k : Session) : Session :=
  match readyState k with
  | CONNECTING | OPEN =>
      {| readyState := CLOSING; captured_code := captured_code k;
         palette_scale := palette_scale k; musicalEvents := musicalEvents k;
         errorMessages := errorMessages k;
         collectedErrors := collectedErrors k; sent := sent k |}
  | _ => k
  end.

Definition set_readyState (r : ReadyState) (k : Session) : Session :=
  {| readyState := r; captured_code := captured_code k;
     palette_scale := palette_scale k; musicalEvents := musicalEvents k;
     errorMessages := errorMessages k; collectedErrors := collectedErrors k;
     sent := sent k |}.

(** [socket.send(text)] on an open socket. *)
Definition send_socket (text : string) (k : Session) : Session :=
  {| readyState := readyState k; captured_code := captured_code k;
     palette_scale := palette_scale k; musicalEvents := musicalEvents k;
     errorMessages := errorMessages k; collectedErrors := collectedErrors k;
     sent := sent k ++ [text] |}.

Definition dispose_synth (y : Synth) : Synth :=
  {| voice := voice y; sy_disposed := true; triggered := triggered y |}.

Definition trigger_synth (n : Note) (d : Duration) (t : Q) (y : Synth) : Synth :=
  {| voice := voice y; sy_disposed := sy_disposed y;
     triggered := triggered y ++ [(n, d, t)] |}.

Definition dispose_sequence (q : Sequence) : Sequence :=
  {| seq_events := seq_events q; seq_loop := seq_loop q; seq_disposed := true |}.

Definition cancel_timer (t : Timer) : Timer :=
  {| tm_session := tm_session t; tm_title := tm_title t;
     tm_delay := tm_delay t; tm_pending := false |}.

(** [ws.current?.close()]. *)
Definition close_current (s : App) : App :=
  match ws s with
  | Some cur => set_sessions (alter close_socket cur (sessions s)) s
  | None => s
  end.

(** [if (stopTimeoutRef.current) clearTimeout(stopTimeoutRef.current)]:
    timer handles are positive numbers, hence truthy; clearing a timer that
    has fired or was cleared does nothing. *)
Definition clear_stopTimeout (s : App) : App :=
  match stopTimeoutRef s with
  | Some t => set_timers (alter cancel_timer t (timers s)) s
  | None => s
  end.

(** [Tone.Transport.stop()]. *)
Definition transport_stop (s : App) : App :=
  set_transport {| running := false; scheduled := scheduled (transport s) |} s.

(** [Tone.Transport.cancel()]. *)
Definition transport_cancel (s : App) : App :=
  set_transport {| running := running (transport s); scheduled := [] |} s.

(** [Tone.Transport.start()]. *)
Definition transport_start (s : App) : App :=
  set_transport {| running := true; scheduled := scheduled (transport s) |} s.

(** [if (sequence.current) sequence.current.dispose()]. *)
Definition dispose_current_sequence (s : App) : App :=
  match sequence s with
  | Some q => set_sequences (alter dispose_sequence q (sequences s)) s
  | None => s
  end.

(** [if (ws.current && ws.current.readyState === WebSocket.OPEN)
    ws.current.close()]. *)
Definition close_current_if_open (s : App) : App :=
  match ws s with
  | Some cur =>
      match sessions s !! cur with
      | Some k => if decide (readyState k = OPEN) then close_current s else s
      | None => s
      end
  | None => s
  end.

(** [if (synth.current) synth.current.dispose()]. *)
Definition dispose_current_synth (s : App) : App :=
  match synth s with
  | Some y => set_synths (alter dispose_synth y (synths s)) s
  | None => s
  end.

(** ** [stopMusic] *)

Definition stopMusic (finalSummary : option Summary) (s : App) : App :=
  let s := s |> clear_stopTimeout |> transport_stop |> transport_cancel
             |> dispose_current_sequence |> close_current_if_open
             |> set_isPlaying false in
  match finalSummary with
  | Some fs => s |> set_summary (Some fs) |> set_status (title fs)
  | None => s |> set_status "Ready to play again."
  end.

(** ** [handleCodeChange] *)

Definition handleCodeChange (newCode : string) (s : App) : App :=
  let s' := set_code newCode s in
  if (0 <? size (persistentErrors s))%nat
  then s' |> set_persistentErrors ∅ |> set_highlightedLines None
  else s'.

(** ** [handlePlay] *)

(** The summaries the handlers pass to [stopMusic]. *)
Definition streamErrorSummary : Summary :=
  {| title := "Connection Error";
     messages := ["Failed to connect to the visualizer service."] |}.

Definition backendErrorSummary : Summary :=
  {| title := "Connection Error";
     messages := ["Could not connect to the backend service."] |}.

Definition emptyAnalysisSummary : Summary :=
  {| title := "Analysis Complete";
     messages := ["No parsable musical elements were found in the code."] |}.

(** [handlePlay] up to [await classifyCode(code)]. The audio context is taken
    to be running, so the first [await] is skipped. *)
Definition handlePlay (s : App) : App :=
  if isPlaying s then close_current s
  else
    s |> set_isPlaying true |> set_visualNodes [] |> set_highlightedLines None
      |> set_summary None |> set_persistentErrors ∅
      |> set_status "1/3: Classifying code..."
      |> set_requests (requests s ++ [{| rq_code := code s; rq_settled := false |}]).

(** [new palette.synth(...).toDestination()] stored in [synth.current]. *)
Definition new_synth (cls : string) (s : App) : App :=
  s |> set_synth (Some (length (synths s)))
    |> set_synths (synths s ++ [{| voice := cls; sy_disposed := false; triggered := [] |}]).

(** The three collections and [new WebSocket(...)] stored in [ws.current]. *)
Definition new_session (code0 : string) (currentScale : list string) (s : App) : App :=
  s |> set_ws (Some (length (sessions s)))
    |> set_sessions (sessions s ++
         [{| readyState := CONNECTING; captured_code := code0;
             palette_scale := currentScale; musicalEvents := [];
             errorMessages := []; collectedErrors := ∅; sent := [] |}]).

(** The [catch] block. *)
Definition handlePlay_catch (s : App) : App := stopMusic (Some backendErrorSummary) s.

(** [handlePlay] from the fulfilment of [classifyCode] to the end of the
    [try] block. When the genre names an inherited member of the table,
    [palette.synth] is [undefined] and [new] throws into the [catch]. *)
Definition handlePlay_classified (code0 genre : string) (s : App) : App :=
  let paletteKey := if key_in_musicPalettes genre then genre else "default" in
  let s := s |> set_activePalette paletteKey |> dispose_current_synth in
  match own_palette musicPalettes paletteKey with
  | Some palette =>
      s |> new_synth (synthClass palette)
        |> set_status "2/3: Analyzing code structure..."
        |> new_session code0 (scale palette)
  | None => handlePlay_catch s
  end.

(** ** The handlers of the socket *)

(** [onopen]: [ws.current?.send(JSON.stringify({ code }))]. Sending on a
    socket that is not open changes nothing here: it throws while the
    socket connects and is dropped once it closes. *)
Definition ws_onopen (sid : nat) (s : App) : App :=
  match sessions s !! sid, ws s with
  | Some k, Some cur =>
      match sessions s !! cur with
      | Some c =>
          if decide (readyState c = OPEN)
          then set_sessions (alter (send_socket (captured_code k)) cur (sessions s)) s
          else s
      | None => s
      end
  | _, _ => s
  end.

(** The template string pushed to [errorMessages]. *)
Definition format_error (data : CodeEvent) : string :=
  "Line " +:+ pretty (startLine data) +:+ ": [" +:+ type data +:+ "] "
    +:+ message data.

(** [onmessage], on the decoded [data]. *)
Definition buffer_event (data : CodeEvent) (k : Session) : Session :=
  {| readyState := readyState k; captured_code := captured_code k;
     palette_scale := palette_scale k;
     musicalEvents := musicalEvents k ++ [data];
     errorMessages :=
       if isError data then errorMessages k ++ [format_error data]
       else errorMessages k;
     collectedErrors :=
       if isError data then <[startLine data := type data]> (collectedErrors k)
       else collectedErrors k;
     sent := sent k |}.

Definition ws_onmessage (sid : nat) (data : CodeEvent) (s : App) : App :=
  set_sessions (alter (buffer_event data) sid (sessions s)) s.

(** [onerror]. *)
Definition ws_onerror (s : App) : App := stopMusic (Some streamErrorSummary) s.

(** [new Tone.Sequence(callback, scheduledEvents).start(0)] stored in
    [sequence.current], then [loop = false]. *)
Definition new_sequence (evs : list ScheduledEvent) (s : App) : App :=
  s |> set_sequence (Some (length (sequences s)))
    |> set_transport {| running := running (transport s);
                        scheduled := scheduled (transport s) ++ [length (sequences s)] |}
    |> set_sequences (sequences s ++
         [{| seq_events := evs; seq_loop := false; seq_disposed := false |}]).

(** [stopTimeoutRef.current = window.setTimeout(finalStop, delay)]. *)
Definition new_timer (sid : nat) (ttl : string) (delay : Q) (s : App) : App :=
  s |> set_stopTimeoutRef (Some (length (timers s)))
    |> set_timers (timers s ++
         [{| tm_session := sid; tm_title := ttl; tm_delay := delay;
             tm_pending := true |}]).

(** The title of [finalSummary]. *)
Definition final_title (errorMessages0 : list string) : string :=
  if (0 <? length errorMessages0)%nat then "Analysis Complete: Issues Found"
  else "Analysis Complete: Code is Clean!".

(** [onclose] of session [sid]. *)
Definition ws_onclose (sid : nat) (s : App) : App :=
  match sessions s !! sid with
  | Some k =>
      match musicalEvents k with
      | [] => stopMusic (Some emptyAnalysisSummary) s
      | _ :: _ =>
          let st := compile (palette_scale k) (musicalEvents k) in
          s |> set_status "3/3: Composing and playing music..."
            |> new_sequence (scheduledEvents st)
            |> transport_start
            |> new_timer sid (final_title (errorMessages k))
                 ((cumulativeTime st + 2) * 1000)%Q
      end
  | None => s
  end.

(** [finalStop], the body of the timer. *)
Definition finalStop (tm : Timer) (s : App) : App :=
  match sessions s !! tm_session tm with
  | Some k =>
      s |> set_persistentErrors (collectedErrors k)
        |> stopMusic (Some {| title := tm_title tm; messages := errorMessages k |})
  | None => s
  end.

(** ** The callback of the sequence *)

(** The function passed to [Tone.Draw.schedule]; [rnd] holds the four
    results of [Math.random()] in evaluation order. *)
Definition draw_callback (t : Q) (event : ScheduledEvent) (rnd : Q * Q * Q * Q)
    (s : App) : App :=
  let '(r0, rx, ry, rz) := rnd in
  let newNode :=
    {| id := (t, r0);
       nv_type := se_type event;
       position := ((rx - (1 # 2)) * 10, (ry - (1 # 2)) * 10, (rz - (1 # 2)) * 10)%Q;
       nv_duration := secondsOf (duration event);
       nv_isError := se_isError event |} in
  s |> set_highlightedLines
         (Some {| hl_start := se_startLine event; hl_end := se_endLine event;
                  hl_type := se_type event; hl_isError := se_isError event |})
    |> set_cameraEffect (if se_isError event then 5 # 2 else 1)%Q
    |> set_visualNodes
         (drop (length (visualNodes s) - 30) (visualNodes s) ++ [newNode]).

(** [synth.current?.triggerAttackRelease(event.note, event.duration, time)]. *)
Definition trigger_current (t : Q) (event : ScheduledEvent) (s : App) : App :=
  match synth s with
  | Some y =>
      set_synths (alter (trigger_synth (note event) (duration event) t) y (synths s)) s
  | None => s
  end.

Definition sequence_callback (t : Q) (event : ScheduledEvent)
    (rnd : Q * Q * Q * Q) (s : App) : App :=
  s |> trigger_current t event |> draw_callback t event rnd.

(** The cleanup of the [useEffect]. *)
Definition unmount (s : App) : App := s |> stopMusic None |> close_current.

(** ** The component as a transition system *)

(** What the browser, the network, the transport and the user can do to
    the component. An input that cannot occur in the current state (a
    message on a socket that is not open, a timer that is not pending, an
    edit while the read-only viewer is shown) leaves the state unchanged.
    [PlayClick] is a click on the button, which the page disables while the
    text is blank. A session is [CLOSED] once its close event has been
    delivered; a browser that fails a connection delivers the error event
    and then the close event. *)
Inductive Input :=
| PlayClick
| ClassifyOk (rid : nat) (genre : string)
| ClassifyFail (rid : nat)
| WsOpen (sid : nat)
| WsMessage (sid : nat) (data : CodeEvent)
| WsError (sid : nat)
| WsClose (sid : nat)
| SeqFire (qid i : nat) (t : Q) (rnd : Q * Q * Q * Q)
| TimerFire (tid : nat)
| Edit (newCode : string)
| CloseSummary
| Unmount.

Definition settle (rq : Request) : Request :=
  {| rq_code := rq_code rq; rq_settled := true |}.

Definition step (s : App) (i : Input) : App :=
  match i with
  | PlayClick => handlePlay s
  | ClassifyOk rid genre =>
      match requests s !! rid with
      | Some rq =>
          if rq_settled rq then s
          else s |> set_requests (alter settle rid (requests s))
                 |> handlePlay_classified (rq_code rq) genre
      | None => s
      end
  | ClassifyFail rid =>
      match requests s !! rid with
      | Some rq =>
          if rq_settled rq then s
          else s |> set_requests (alter settle rid (requests s))
                 |> handlePlay_catch
      | None => s
      end
  | WsOpen sid =>
      match sessions s !! sid with
      | Some k =>
          if decide (readyState k = CONNECTING)
          then s |> set_sessions (alter (set_readyState OPEN) sid (sessions s))
                 |> ws_onopen sid
          else s
      | None => s
      end
  | WsMessage sid data =>
      match sessions s !! sid with
      | Some k =>
          if decide (readyState k = OPEN) then ws_onmessage sid data s else s
      | None => s
      end
  | WsError sid =>
      match sessions s !! sid with
      | Some k => if decide (readyState k = CLOSED) then s else ws_onerror s
      | None => s
      end
  | WsClose sid =>
      match sessions s !! sid with
      | Some k =>
          if decide (readyState k = CLOSED) then s
          else s |> set_sessions (alter (set_readyState CLOSED) sid (sessions s))
                 |> ws_onclose sid
      | None => s
      end
  | SeqFire qid i t rnd =>
      match sequences s !! qid with
      | Some q =>
          if running (transport s) && bool_decide (qid ∈ scheduled (transport s))
             && negb (seq_disposed q)
          then match seq_events q !! i with
               | Some event => sequence_callback t event rnd s
               | None => s
               end
          else s
      | None => s
      end
  | TimerFire tid =>
      match timers s !! tid with
      | Some tm =>
          if tm_pending tm
          then s |> set_timers (alter cancel_timer tid (timers s)) |> finalStop tm
          else s
      | None => s
      end
  | Edit newCode => if isPlaying s then s else handleCodeChange newCode s
  | CloseSummary => set_summary None s
  | Unmount => unmount s
  end.

(** A run of the component over a list of inputs. *)
Definition run (s : App) (inputs : list Input) : App := fold_left step inputs s.

End Playback.

(** The text the editor starts with. *)
Definition initialCode : string :=
"function factorial(n) {
  if (n === 0) {
    return 1;
  } else {
    let result = 1;
    // A syntax error for demonstration
    for (let i = 1; i <= n; i++ {
      result *= i;
    }
    return result;
  }
}".

(** The component as first rendered. *)
Definition initialApp : App :=
  {| code := initialCode;
     isPlaying := false;
     status := "Ready. Paste your code and press Play.";
     visualNodes := [];
     cameraEffect := 0;
     activePalette := "default";
     highlightedLines := None;
     summary := None;
     persistentErrors := ∅;
     ws := None; synth := None; sequence := None; stopTimeoutRef := None;
     requests := []; sessions := []; synths := []; sequences := [];
     timers := [];
     transport := {| running := false; scheduled := [] |} |}.

(** ** Notions used to state the properties *)

(** The number of non-error events among the first [i] buffered events:
    the value of [messageCounter] when the loop reaches event [i]. *)
Definition nonErrorIndex (evs : list CodeEvent) (i : nat) : Z :=
  Z.of_nat (length (filter (λ e, isError e = false) (take i evs))).

(** The seconds a list of scheduled events lasts in total. *)
Definition total_seconds (secondsOf : Duration -> Q) (ses : list ScheduledEvent) : Q :=
  foldr (λ se acc, secondsOf (duration se) + acc)%Q 0%Q ses.

(** A scheduled event carries the five properties of the event it was
    compiled from. *)
Definition carries (e : CodeEvent) (se : ScheduledEvent) : Prop :=
  se_type se = type e ∧ se_startLine se = startLine e ∧
  se_endLine se = endLine e ∧ se_isError se = isError e ∧
  se_message se = message e.

(** The entry the loop body pushes for [event] in state [st]. *)
Definition scheduled_for (currentScale : list string) (st : CompileState)
    (event : CodeEvent) : ScheduledEvent :=
  let nd :=
    if isError event then error_note (type event)
    else code_note currentScale (type event) (startLine event) (messageCounter st) in
  {| time := cumulativeTime st; note := nd.1; duration := nd.2;
     se_type := type event; se_startLine := startLine event;
     se_endLine := endLine event; se_isError := isError event;
     se_message := message event |}.

(** Events used to instantiate the statements. *)
Definition ev_if : CodeEvent :=
  {| type := "if_statement"; startLine := 2; endLine := 4; isError := false;
     message := "" |}.

Definition ev_function : CodeEvent :=
  {| type := "function_declaration"; startLine := 1; endLine := 12;
     isError := false; message := "" |}.

Definition ev_return : CodeEvent :=
  {| type := "return_statement"; startLine := 5; endLine := 5;
     isError := false; message := "" |}.

Definition ev_syntax : CodeEvent :=
  {| type := "syntax_error"; startLine := 7; endLine := 9; isError := true;
     message := "missing )" |}.

Definition ev_syntax' : CodeEvent :=
  {| type := "syntax_error"; startLine := 30; endLine := 30; isError := true;
     message := "unexpected token" |}.

Definition defaultScale : list string :=
  ["C4"; "D4"; "E4"; "F4"; "G4"; "A4"; "B4"; "C5"].

Definition asyncScale : list string :=
  ["G4"; "A4"; "C5"; "D5"; "F5"; "G5"; "A5"; "C6"].

(** The node the draw callback builds. *)
Definition spawned_node (secondsOf : Duration -> Q)
    (sp : Q * ScheduledEvent * (Q * Q * Q * Q)) : NodeVisualProps :=
  let '(t, event, (r0, rx, ry, rz)) := sp in
  {| id := (t, r0);
     nv_type := se_type event;
     position := ((rx - (1 # 2)) * 10, (ry - (1 # 2)) * 10, (rz - (1 # 2)) * 10)%Q;
     nv_duration := secondsOf (duration event);
     nv_isError := se_isError event |}.

(** The draw callback run once per element of [spawns], in order. *)
Definition spawn_all (secondsOf : Duration -> Q)
    (spawns : list (Q * ScheduledEvent * (Q * Q * Q * Q))) (s : App) : App :=
  foldl (λ s sp, draw_callback secondsOf sp.1.1 sp.1.2 sp.2 s) s spawns.

(** The inputs of a session whose stream delivers [evs] and then closes. *)
Definition stream (rid sid : nat) (genre : string) (evs : list CodeEvent)
    : list Input :=
  [PlayClick; ClassifyOk rid genre; WsOpen sid]
    ++ map (WsMessage sid) evs ++ [WsClose sid].

(** Thirty-one function declarations on lines 1 to 31, and the callbacks
    of the sequence compiled from them, one per entry. [Tone.Sequence]
    plays its entries one subdivision apart, an eighth note by default:
    a quarter of a second at the tempo the transport starts with, so the
    last callback runs at 7.5 s. *)
Definition declarations31 : list CodeEvent :=
  map (λ n, {| type := "function_declaration"; startLine := Z.of_nat (S n);
               endLine := Z.of_nat (S n); isError := false; message := "" |})
      (seq 0 31).

Definition fire31 : list Input :=
  map (λ n, SeqFire 0 n (inject_Z (Z.of_nat n) / 4) (1 # 2, 1 # 2, 1 # 2, 1 # 2)%Q)
      (seq 0 31).

(** The time, in milliseconds, at which a callback of a sequence runs. *)
Definition fire_ms (i : Input) : option Q :=
  match i with
  | SeqFire _ _ t _ => Some (t * 1000)%Q
  | _ => None
  end.

(** A first session that streams one syntax error and plays to its end,
    and a second session up to the start of its playback. *)
Definition firstSession : list Input :=
  stream 0 0 "default" [ev_syntax]
    ++ [SeqFire 0 0 0 (1 # 2, 1 # 2, 1 # 2, 1 # 2)%Q; TimerFire 0].

Definition secondSessionPlaying : list Input := stream 1 1 "default" [ev_if].

(** A session up to the start of its playback, and one that is still
    streaming. *)
Definition sessionPlaying : list Input := stream 0 0 "default" [ev_if].

Definition sessionStreaming : list Input :=
  [PlayClick; ClassifyOk 0 "default"; WsOpen 0; WsMessage 0 ev_if].

(** A stream that fails after one event was buffered: the browser delivers
    the error event and then the close event. *)
Definition sessionFailing : list Input :=
  sessionStreaming ++ [WsError 0; WsClose 0].

(** A connection that fails before it opens. *)
Definition connectionRefused : list Input :=
  [PlayClick; ClassifyOk 0 "default"; WsError 0; WsClose 0].

(** Inputs that are callbacks of a sequence. *)
Definition is_fire (i : Input) : bool :=
  match i with
  | SeqFire _ _ _ _ => true
  | _ => false
  end.

(** Two states hold the same sequences, timers and transport. *)
Definition same_playback (a b : App) : Prop :=
  sequences a = sequences b ∧ sequence a = sequence b ∧
  timers a = timers b ∧ stopTimeoutRef a = stopTimeoutRef b ∧
  transport a = transport b.

(** State [s] is inside the session that started from [s0]: the current
    socket is [sid] with closure [k], the error map is still the empty one
    of the session start, and no sequence or timer was touched. *)
Definition in_session (s0 s : App) (sid : nat) (k : Session) : Prop :=
  sessions s !! sid = Some k ∧ ws s = Some sid ∧
  persistentErrors s = ∅ ∧ same_playback s s0.

(** The buffers of a session after the messages [evs]. *)
Definition buffer_all (evs : list CodeEvent) (k : Session) : Session :=
  foldl (λ k e, buffer_event e k) k evs.

(** The closure of a socket that was just created. *)
Definition fresh_session (code0 : string) (currentScale : list string) : Session :=
  {| readyState := CONNECTING; captured_code := code0;
     palette_scale := currentScale; musicalEvents := [];
     errorMessages := []; collectedErrors := ∅; sent := [] |}.

(** The palette key [handlePlay] derives from a genre. *)
Definition paletteKey (genre : string) : string :=
  if key_in_musicPalettes genre then genre else "default".

(** A second session that is still streaming. *)
Definition secondSessionStreaming : list Input :=
  [PlayClick; ClassifyOk 1 "default"; WsOpen 1; WsMessage 1 ev_if].

(** Every timer belongs to a session whose stream has closed with a buffer
    that is not empty. *)
Definition timers_closed (s : App) : Prop :=
  ∀ tid tm, timers s !! tid = Some tm →
    ∃ k, sessions s !! tm_session tm = Some k ∧ readyState k = CLOSED ∧
         musicalEvents k ≠ [].

(** [clearTimeout] applied to each handle of [ts]. *)
Definition cancel_all (ts : list nat) (l : list Timer) : list Timer :=
  foldr (alter cancel_timer) l ts.

(** ** Further notions *)

(** The note and duration of each entry that is not an error, in order:
    what the code events of a schedule sound like. *)
Definition tones (ses : list ScheduledEvent) : list (Note * Duration) :=
  (λ se, (note se, duration se)) <$> filter (λ se, se_isError se = false) ses.

(** The buffered events that are not errors. *)
Definition code_events (evs : list CodeEvent) : list CodeEvent :=
  filter (λ e, isError e = false) evs.

(** The buffered events that are errors. *)
Definition error_events (evs : list CodeEvent) : list CodeEvent :=
  filter (λ e, isError e = true) evs.

(** The kind of the last error event of [evs] that starts on line [n]. *)
Definition last_error_kind (evs : list CodeEvent) (n : Z) : option string :=
  type <$> last (filter (λ e, isError e = true ∧ startLine e = n) evs).

(** The pitches of a note. *)
Definition pitches (n : Note) : list Pitch :=
  match n with
  | Single p => [p]
  | Chord ps => ps
  end.

(** Every pitch of the entry is a pitch name, and no pitch occurs twice. *)
Definition well_pitched (se : ScheduledEvent) : Prop :=
  Forall is_Some (pitches (note se)) ∧ NoDup (pitches (note se)).

(** The scale is the scale of a palette of the table. *)
Definition table_scale (sc : list string) : Prop :=
  ∃ key palette, own_palette musicPalettes key = Some palette ∧ sc = scale palette.

(** Every socket carries a scale of the table, and every sequence holds
    only well-pitched entries. *)
Definition sessions_tabled (s : App) : Prop :=
  ∀ sid k, sessions s !! sid = Some k → table_scale (palette_scale k).

Definition sequences_pitched (s : App) : Prop :=
  ∀ q sq, sequences s !! q = Some sq → Forall well_pitched (seq_events sq).

(** [dispose] applied to each sequence of [qs]. *)
Definition dispose_all (qs : list nat) (l : list Sequence) : list Sequence :=
  foldr (alter dispose_sequence) l qs.

(** The states of a socket in the order it passes through them. *)
Definition rank (r : ReadyState) : nat :=
  match r with
  | CONNECTING => 0
  | OPEN => 1
  | CLOSING => 2
  | CLOSED => 3
  end.

(** How the closure of a socket can differ between an earlier and a later
    state: the socket has not moved backwards, text and scale are the same,
    buffers have only grown at their end, and not at all once the socket had
    started closing. *)
Definition evolves (k k' : Session) : Prop :=
  (rank (readyState k) ≤ rank (readyState k'))%nat ∧
  captured_code k' = captured_code k ∧
  palette_scale k' = palette_scale k ∧
  musicalEvents k `prefix_of` musicalEvents k' ∧
  errorMessages k `prefix_of` errorMessages k' ∧
  sent k `prefix_of` sent k' ∧
  ((2 ≤ rank (readyState k))%nat →
   musicalEvents k' = musicalEvents k ∧ errorMessages k' = errorMessages k ∧
   collectedErrors k' = collectedErrors k ∧ sent k' = sent k).

(** ** The two text panes and the summary modal *)

(** The line feed character. *)
Definition newline : Ascii.ascii := Ascii.ascii_of_nat 10.

(** [code.split('\n')]: the pieces between line feeds; a text without line
    feed is one piece, also when it is empty. *)
Fixpoint split_lines (code : string) : list string :=
  match code with
  | EmptyString => [EmptyString]
  | String c rest =>
      if Ascii.eqb c newline then EmptyString :: split_lines rest
      else match split_lines rest with
           | line :: lines => String c line :: lines
           | [] => [String c EmptyString]
           end
  end.

(** One row of the line-number gutter of [CodeEditor]. *)
Record GutterRow := {
  g_lineNum : Z;
  g_class : string
}.

(** The gutter of [CodeEditor]: one row per line, numbered from 1, with the
    class of the error kind the map holds for that line; a missing kind and
    the empty kind are both falsy and give no class. *)
Definition CodeEditor_gutter (code : string) (persistentErrors : gmap Z string)
    : list GutterRow :=
  (λ i : nat,
     let lineNum := Z.of_nat i + 1 in
     let lineClass :=
       match persistentErrors !! lineNum with
       | Some errorType =>
           if String.eqb errorType "" then "" else "error-line-" +:+ errorType
       | None => ""
       end in
     {| g_lineNum := lineNum; g_class := lineClass |})
  <$> seq 0 (length (split_lines code)).

(** One row of [CodeViewer]. *)
Record ViewerRow := {
  v_class : string;
  v_lineNum : Z;
  v_content : string
}.

(** The class of a line in [CodeViewer], before the "code-line " prefix. *)
Definition viewer_lineClass (highlightedLines : option HighlightInfo)
    (lineNum : Z) : string :=
  match highlightedLines with
  | Some h =>
      if (hl_start h <=? lineNum) && (lineNum <=? hl_end h)
      then (if hl_isError h then "error-line-" +:+ hl_type h else "highlighted-line")
      else ""
  | None => ""
  end.

(** The rows of [CodeViewer]; an empty line is shown as one space. *)
Definition CodeViewer_rows (code : string) (highlightedLines : option HighlightInfo)
    : list ViewerRow :=
  imap (λ index line,
          let lineNum := Z.of_nat index + 1 in
          {| v_class := "code-line " +:+ viewer_lineClass highlightedLines lineNum;
             v_lineNum := lineNum;
             v_content := if String.eqb line "" then " " else line |})
       (split_lines code).

(** What [App] puts in the editor container. *)
Inductive EditorPane :=
| Viewer (rows : list ViewerRow)
| Editor (text : string) (disabled : bool) (gutter : list GutterRow).

Definition editor_pane (s : App) : EditorPane :=
  if isPlaying s then Viewer (CodeViewer_rows (code s) (highlightedLines s))
  else Editor (code s) (isPlaying s) (CodeEditor_gutter (code s) (persistentErrors s)).

(** The body of [SummaryModal]: the list of messages, or the paragraph
    "No issues found. The code is clean!". *)
Inductive ModalBody :=
| MessageList (items : list string)
| CleanParagraph.

(** [SummaryModal]: nothing without a summary, else the title and the
    body. *)
Definition SummaryModal (summary0 : option Summary) : option (string * ModalBody) :=
  match summary0 with
  | None => None
  | Some sm =>
      Some (title sm,
            if (0 <? length (messages sm))%nat then MessageList (messages sm)
            else CleanParagraph)
  end.

(** The number of line feeds of a text. *)
Fixpoint count_newlines (code : string) : nat :=
  match code with
  | EmptyString => 0
  | String c rest => (if Ascii.eqb c newline then 1 else 0) + count_newlines rest
  end.

(** The class of the gutter row of line [n], if the gutter has that row. *)
Definition gutter_class (gutter : list GutterRow) (n : Z) : option string :=
  g_class <$> gutter !! Z.to_nat (n - 1).

(** The class [CodeEditor] gives to a line with error kind [kind]. *)
Definition error_class (kind : option string) : string :=
  match kind with
  | Some errorType =>
      if String.eqb errorType "" then "" else "error-line-" +:+ errorType
  | None => ""
  end.

(** Inputs that are edits of the text. *)
Definition is_edit (i : Input) : bool :=
  match i with
  | Edit _ => true
  | _ => false
  end.

(** ** [NodeVisual] *)

(** The numbers of [NodeVisual] are JavaScript numbers, IEEE 754 binary64
    values: the lifetime is counted down with one rounded subtraction per
    frame. They are modelled with the standard library's specification of
    binary floating-point arithmetic at precision 53 and maximal exponent
    1024, rounding to nearest, ties to even. *)
Definition double : Type := spec_float.

Definition dadd : double → double → double := SFadd 53 1024.
Definition dsub : double → double → double := SFsub 53 1024.
Definition dmul : double → double → double := SFmul 53 1024.
Definition ddiv : double → double → double := SFdiv 53 1024.

(** [x <= y]; false when either side is NaN. *)
Definition dle (x y : double) : bool := SFleb x y.

(** The double of an integer below 2^53 in size, and the double a decimal
    literal [n / d] denotes: the one nearest to the quotient. *)
Definition of_Z (n : Z) : double := binary_normalize 53 1024 n 0 false.
Definition decimal (n d : Z) : double := ddiv (of_Z n) (of_Z d).

(** What [NodeVisual] keeps on its mesh. *)
Record Mesh := {
  mesh_visible : bool;
  mesh_lifetime : double;
  mesh_opacity : double;
  mesh_rotation_x : double;
  mesh_rotation_y : double
}.

(** [initialLifetime], from the props [duration] and [isError]. *)
Definition initialLifetime (duration : double) (isError : bool) : double :=
  dadd (dmul duration (if isError then of_Z 3 else decimal 3 2)) (decimal 1 2).

(** [THREE.MathUtils.lerp]. *)
Definition lerp (x y t : double) : double :=
  dadd (dmul (dsub (of_Z 1) t) x) (dmul t y).

(** The effect that runs when the node is mounted. *)
Definition node_mount (duration : double) (isError : bool) (m : Mesh) : Mesh :=
  {| mesh_visible := true; mesh_lifetime := initialLifetime duration isError;
     mesh_opacity := mesh_opacity m; mesh_rotation_x := mesh_rotation_x m;
     mesh_rotation_y := mesh_rotation_y m |}.

(** The [useFrame] callback of [NodeVisual], for a frame of [delta]
    seconds. *)
Definition node_frame (duration : double) (isError : bool) (delta : double)
    (m : Mesh) : Mesh :=
  if negb (mesh_visible m) then m
  else
    let lifetime := dsub (mesh_lifetime m) delta in
    let opacity :=
      lerp (of_Z 0) (of_Z 1) (ddiv lifetime (initialLifetime duration isError)) in
    let visible := negb (dle lifetime (of_Z 0)) in
    let spin := isError && visible in
    {| mesh_visible := visible;
       mesh_lifetime := lifetime;
       mesh_opacity := opacity;
       mesh_rotation_x :=
         if spin then dadd (mesh_rotation_x m) delta else mesh_rotation_x m;
       mesh_rotation_y :=
         if spin then dadd (mesh_rotation_y m) (dmul delta (of_Z 2))
         else mesh_rotation_y m |}.

(** The mesh after the frames [deltas]. *)
Definition node_frames (duration : double) (isError : bool)
    (deltas : list double) (m : Mesh) : Mesh :=
  foldl (λ m delta, node_frame duration isError delta m) m deltas.

(** The lifetimes a countdown from [life] passes through, one per frame:
    each is the one before minus the frame's time, rounded. *)
Fixpoint countdown (life : double) (deltas : list double) : list double :=
  match deltas with
  | [] => []
  | delta :: deltas => dsub life delta :: countdown (dsub life delta) deltas
  end.

(** A lifetime that keeps the node visible: one that is not [<= 0]. *)
Definition alive (life : double) : bool := negb (dle life (of_Z 0)).

(** ** Summaries *)

(** Every timer carries the title computed from the messages of its
    session, whose stream has closed. *)
Definition timers_titled (s : App) : Prop :=
  ∀ tid tm, timers s !! tid = Some tm →
    ∃ k, sessions s !! tm_session tm = Some k ∧ readyState k = CLOSED ∧
         tm_title tm = final_title (errorMessages k).

(** A summary either is the clean one, with no message, or has one of the
    three other titles and at least one message. *)
Definition summary_ok (sm : Summary) : Prop :=
  (title sm = "Analysis Complete: Code is Clean!" ∧ messages sm = []) ∨
  (title sm ∈ ["Connection Error"; "Analysis Complete";
               "Analysis Complete: Issues Found"] ∧ messages sm ≠ []).

(** Inputs that are the opening of a socket. *)
Definition is_open (i : Input) : bool :=
  match i with
  | WsOpen _ => true
  | _ => false
  end.

(** * The timeline compiler *)

Section CompilerFacts.

Variable secondsOf : Duration -> Q.
Variable currentScale : list string.

Abbreviation loop_body := (compile_event secondsOf currentScale).
Abbreviation loop_from := (compile_from secondsOf currentScale).
Abbreviation compiled := (compile secondsOf currentScale).

Lemma compile_event_scheduled st e :
  scheduledEvents (loop_body st e)
  = scheduledEvents st ++ [scheduled_for currentScale st e].
Proof.
  unfold compile_event, scheduled_for.
  destruct (isError e); [destruct (error_note _)|destruct (code_note _ _ _ _)]; done.
Qed.

Lemma compile_event_time st e :
  cumulativeTime (loop_body st e)
  = (cumulativeTime st + secondsOf (duration (scheduled_for currentScale st e)))%Q.
Proof.
  unfold compile_event, scheduled_for.
  destruct (isError e); [destruct (error_note _)|destruct (code_note _ _ _ _)]; done.
Qed.

Lemma compile_event_counter st e :
  messageCounter (loop_body st e)
  = if isError e then messageCounter st else messageCounter st + 1.
Proof.
  unfold compile_event.
  destruct (isError e); [destruct (error_note _)|destruct (code_note _ _ _ _)]; done.
Qed.

Lemma compile_from_snoc st evs e :
  loop_from st (evs ++ [e]) = loop_body (loop_from st evs) e.
Proof. unfold compile_from. by rewrite fold_left_app. Qed.

Lemma compile_snoc evs e :
  compiled (evs ++ [e]) = loop_body (compiled evs) e.
Proof. apply compile_from_snoc. Qed.

Lemma compile_length evs :
  length (scheduledEvents (compiled evs)) = length evs.
Proof.
  induction evs as [|e evs IH] using rev_ind; [done|].
  rewrite compile_snoc, compile_event_scheduled, !length_app, IH. done.
Qed.

(** Compiling a longer buffer only appends to the schedule. *)
Lemma compile_app_prefix evs more :
  ∃ rest, scheduledEvents (compiled (evs ++ more))
          = scheduledEvents (compiled evs) ++ rest.
Proof.
  induction more as [|e more IH] using rev_ind.
  - exists []. by rewrite !app_nil_r.
  - destruct IH as [rest IH]. exists (rest ++ [scheduled_for currentScale (compiled (evs ++ more)) e]).
    rewrite app_assoc, compile_snoc, compile_event_scheduled, IH.
    by rewrite app_assoc.
Qed.

Lemma compile_take evs i :
  scheduledEvents (compiled (take i evs)) = take i (scheduledEvents (compiled evs)).
Proof.
  destruct (compile_app_prefix (take i evs) (drop i evs)) as [rest Hrest].
  rewrite take_drop in Hrest. rewrite Hrest.
  destruct (decide (i ≤ length evs)%nat) as [Hle|Hgt].
  - rewrite take_app_length'; [done|].
    rewrite compile_length, length_take. lia.
  - rewrite take_ge in Hrest |- * by lia.
    rewrite take_ge; [by rewrite <- Hrest|].
    rewrite <- Hrest, compile_length. lia.
Qed.

(** The entry at position [i] is the one pushed for event [i], in the
    state the loop has reached after the first [i] events. *)
Lemma compile_lookup evs i e :
  evs !! i = Some e →
  scheduledEvents (compiled evs) !! i
  = Some (scheduled_for currentScale (compiled (take i evs)) e).
Proof.
  intros Hi.
  pose proof (take_S_r evs i e Hi) as Htake.
  pose proof (compile_take evs (S i)) as HS.
  rewrite Htake, compile_snoc, compile_event_scheduled in HS.
  assert (Hlen : length (scheduledEvents (compiled (take i evs))) = i).
  { rewrite compile_length, length_take. apply lookup_lt_Some in Hi. lia. }
  assert (Hl : (scheduledEvents (compiled (take i evs))
                ++ [scheduled_for currentScale (compiled (take i evs)) e]) !! i
               = Some (scheduled_for currentScale (compiled (take i evs)) e)).
  { rewrite lookup_app_r by lia. by rewrite Hlen, Nat.sub_diag. }
  rewrite HS in Hl. rewrite lookup_take_lt in Hl by lia. done.
Qed.

Lemma compile_counter evs :
  messageCounter (compiled evs) = nonErrorIndex evs (length evs).
Proof.
  unfold nonErrorIndex. rewrite firstn_all.
  induction evs as [|e evs IH] using rev_ind; [done|].
  rewrite compile_snoc, compile_event_counter, IH, filter_app, length_app.
  rewrite filter_cons, filter_nil.
  destruct (isError e) eqn:He; case_decide; try congruence; simpl; lia.
Qed.

Lemma compile_counter_take evs i :
  messageCounter (compiled (take i evs)) = nonErrorIndex evs i.
Proof. rewrite compile_counter. unfold nonErrorIndex. by rewrite firstn_all. Qed.

Lemma total_seconds_app l1 l2 :
  (total_seconds secondsOf (l1 ++ l2)
   == total_seconds secondsOf l1 + total_seconds secondsOf l2)%Q.
Proof.
  induction l1 as [|x l1 IH]; simpl.
  - ring.
  - rewrite IH. ring.
Qed.

Lemma total_seconds_nonneg l :
  (∀ d, 0 <= secondsOf d)%Q → (0 <= total_seconds secondsOf l)%Q.
Proof.
  intros Hpos. induction l as [|x l IH]; simpl.
  - apply Qle_refl.
  - pose proof (Hpos (duration x)). lra.
Qed.

(** [cumulativeTime] is the total length of what has been scheduled. *)
Lemma compile_cumulative evs :
  (cumulativeTime (compiled evs)
   == total_seconds secondsOf (scheduledEvents (compiled evs)))%Q.
Proof.
  induction evs as [|e evs IH] using rev_ind; [reflexivity|].
  rewrite compile_snoc, compile_event_time, compile_event_scheduled.
  rewrite total_seconds_app, IH. simpl. ring.
Qed.

End CompilerFacts.

(** On a scale that is not empty, indexing past a non-negative index is the
    list lookup at the index modulo the length. *)
Lemma scale_at_mod (sc : list string) (i : Z) :
  sc ≠ [] → 0 <= i →
  scale_at sc i = sc !! Z.to_nat (i mod Z.of_nat (length sc)).
Proof.
  intros Hne Hi. unfold scale_at.
  assert (0 < Z.of_nat (length sc)) as Hlen by (destruct sc; [done|simpl; lia]).
  destruct (Z.eqb_spec (Z.of_nat (length sc)) 0) as [?|_]; [lia|].
  rewrite Z.rem_mod_nonneg by lia.
  pose proof (Z.mod_pos_bound i _ Hlen).
  destruct (Z.ltb_spec (i mod Z.of_nat (length sc)) 0); [lia|done].
Qed.

Lemma scale_at_is_Some (sc : list string) (i : Z) :
  sc ≠ [] → 0 <= i → is_Some (sc !! Z.to_nat (i mod Z.of_nat (length sc))).
Proof.
  intros Hne Hi.
  assert (0 < Z.of_nat (length sc)) as Hlen by (destruct sc; [done|simpl; lia]).
  pose proof (Z.mod_pos_bound i _ Hlen).
  apply lookup_lt_is_Some. lia.
Qed.

Lemma is_declaration_true ty :
  is_declaration ty = true ↔ ty = "function_declaration" ∨ ty = "arrow_function".
Proof.
  unfold is_declaration. rewrite orb_true_iff, !String.eqb_eq. done.
Qed.

Lemma nonErrorIndex_S evs i e :
  evs !! i = Some e →
  nonErrorIndex evs (S i)
  = if isError e then nonErrorIndex evs i else nonErrorIndex evs i + 1.
Proof.
  intros Hi. unfold nonErrorIndex.
  rewrite (take_S_r _ _ _ Hi), filter_app, length_app, filter_cons, filter_nil.
  destruct (isError e); case_decide; try congruence; simpl; lia.
Qed.

(** C1. A buffered event that is not an error, at position [i], is
    scheduled with [index = |startLine + nonErrorIndex|], where
    [nonErrorIndex] counts the non-error events before position [i] (it is 0
    at the start and goes up by one past this event). A
    [function_declaration] or [arrow_function] gets the pair of pitches at
    [index mod len] and [(index + 3) mod len] of the scale and the quarter
    note; any other kind gets the single pitch at [index mod len] and the
    sixteenth note, which is the shorter of the two. An event of another
    kind on line 5 that is the third non-error event gets the pitch at
    [7 mod len]. *)
Theorem nonerror_pitch_selection (secondsOf : Duration -> Q)
    (sc : list string) (evs : list CodeEvent) (i : nat) (e : CodeEvent) :
  sc ≠ [] → evs !! i = Some e → isError e = false →
  let len := Z.of_nat (length sc) in
  let index := Z.abs (startLine e + nonErrorIndex evs i) in
  ∃ se, scheduledEvents (compile secondsOf sc evs) !! i = Some se ∧
    (type e = "function_declaration" ∨ type e = "arrow_function" →
       note se = Chord [sc !! Z.to_nat (index mod len);
                        sc !! Z.to_nat ((index + 3) mod len)]
       ∧ duration se = D4n) ∧
    (type e ≠ "function_declaration" → type e ≠ "arrow_function" →
       note se = Single (sc !! Z.to_nat (index mod len))
       ∧ duration se = D16n) ∧
    is_Some (sc !! Z.to_nat (index mod len)) ∧
    is_Some (sc !! Z.to_nat ((index + 3) mod len)) ∧
    (beats D16n < beats D4n)%Q ∧
    nonErrorIndex evs 0 = 0 ∧
    nonErrorIndex evs (S i) = nonErrorIndex evs i + 1 ∧
    (startLine e = 5 → nonErrorIndex evs i = 2 →
     type e ≠ "function_declaration" → type e ≠ "arrow_function" →
     note se = Single (sc !! Z.to_nat (7 mod len))).
Proof.
  intros Hsc Hi Herr len index.
  assert (0 <= index) as Hidx by apply Z.abs_nonneg.
  exists (scheduled_for sc (compile secondsOf sc (take i evs)) e).
  assert (Hnote : ∀ b, is_declaration (type e) = b →
    note (scheduled_for sc (compile secondsOf sc (take i evs)) e)
    = (if b then Chord [sc !! Z.to_nat (index mod len);
                        sc !! Z.to_nat ((index + 3) mod len)]
       else Single (sc !! Z.to_nat (index mod len)))
    ∧ duration (scheduled_for sc (compile secondsOf sc (take i evs)) e)
      = (if b then D4n else D16n)).
  { intros b Hb. unfold scheduled_for, code_note.
    rewrite Herr, compile_counter_take, Hb. fold index.
    destruct b; simpl; rewrite ?scale_at_mod by (done || lia); done. }
  split; [by apply compile_lookup|].
  split.
  { intros Hty. apply is_declaration_true in Hty. apply (Hnote true Hty). }
  assert (Hsimple : type e ≠ "function_declaration" → type e ≠ "arrow_function" →
                    is_declaration (type e) = false).
  { intros H1 H2. destruct (is_declaration (type e)) eqn:Hd; [|done].
    apply is_declaration_true in Hd. tauto. }
  split; [intros H1 H2; apply (Hnote false (Hsimple H1 H2))|].
  split; [by apply scale_at_is_Some|].
  split; [apply scale_at_is_Some; [done|lia]|].
  split; [done|].
  split; [done|].
  split; [by rewrite (nonErrorIndex_S _ _ _ Hi), Herr|].
  intros H5 H2 Hf Ha.
  destruct (Hnote false (Hsimple Hf Ha)) as [-> _].
  subst index. by rewrite H5, H2.
Qed.

Lemma nonerror_pitch_selection_witness :
  ∃ se, scheduledEvents
          (compile defaultSeconds defaultScale [ev_function; ev_if; ev_return])
          !! 2%nat = Some se
        ∧ note se = Single (Some "C5") ∧ duration se = D16n.
Proof.
  destruct (nonerror_pitch_selection defaultSeconds defaultScale
              [ev_function; ev_if; ev_return] 2 ev_return)
    as (se & Hse & _ & Hsingle & _); [discriminate|reflexivity|reflexivity|].
  exists se. split; [exact Hse|].
  apply Hsingle; discriminate.
Defined.

(** C2. The compiler yields one scheduled event per buffered event, in
    arrival order; the time of each equals the sum of the durations, in
    seconds, of the scheduled events before it (0 for the first), and so the
    times never decrease along the schedule. *)
Theorem schedule_cumulative_time (secondsOf : Duration -> Q)
    (sc : list string) (evs : list CodeEvent) :
  (∀ d, 0 <= secondsOf d)%Q →
  let out := scheduledEvents (compile secondsOf sc evs) in
  length out = length evs ∧
  (∀ i e, evs !! i = Some e →
     ∃ se, out !! i = Some se ∧ carries e se ∧
           (time se == total_seconds secondsOf (take i out))%Q) ∧
  (∀ se, out !! 0%nat = Some se → time se = 0%Q) ∧
  (∀ i j a b, (i ≤ j)%nat → out !! i = Some a → out !! j = Some b →
     (time a <= time b)%Q).
Proof.
  intros Hpos out.
  assert (Htime : ∀ i e, evs !! i = Some e →
     ∃ se, out !! i = Some se ∧ carries e se ∧
           (time se == total_seconds secondsOf (take i out))%Q).
  { intros i e Hi. eexists. split; [by apply compile_lookup|].
    split; [by repeat split|].
    unfold out. rewrite <- compile_take. simpl. apply compile_cumulative. }
  split; [apply compile_length|].
  split; [done|].
  split.
  { intros se Hse.
    assert (is_Some (evs !! 0%nat)) as [e0 H0].
    { apply lookup_lt_is_Some. rewrite <- (compile_length secondsOf sc).
      by eapply lookup_lt_Some. }
    unfold out in Hse. rewrite (compile_lookup _ _ _ _ _ H0) in Hse.
    by injection Hse as <-. }
  intros i j a b Hij Ha Hb.
  assert (is_Some (evs !! i)) as [ei Hei].
  { apply lookup_lt_is_Some. rewrite <- (compile_length secondsOf sc).
    by eapply lookup_lt_Some. }
  assert (is_Some (evs !! j)) as [ej Hej].
  { apply lookup_lt_is_Some. rewrite <- (compile_length secondsOf sc).
    by eapply lookup_lt_Some. }
  destruct (Htime i ei Hei) as (a' & Ha' & _ & Hta).
  destruct (Htime j ej Hej) as (b' & Hb' & _ & Htb).
  assert (a' = a) as -> by congruence.
  assert (b' = b) as -> by congruence.
  rewrite Hta, Htb.
  replace (take j out) with (take i out ++ drop i (take j out)).
  2:{ rewrite <- (take_drop i (take j out)) at 2. f_equal.
      rewrite take_take. f_equal. lia. }
  rewrite total_seconds_app.
  pose proof (total_seconds_nonneg secondsOf (drop i (take j out)) Hpos). lra.
Qed.

Lemma defaultSeconds_nonneg : ∀ d, (0 <= defaultSeconds d)%Q.
Proof. intros []; vm_compute; discriminate. Qed.

Lemma schedule_cumulative_time_witness :
  let out := scheduledEvents
               (compile defaultSeconds defaultScale [ev_function; ev_syntax; ev_return]) in
  length out = 3%nat ∧
  ∀ a b, out !! 1%nat = Some a → out !! 2%nat = Some b → (time a <= time b)%Q.
Proof.
  destruct (schedule_cumulative_time defaultSeconds defaultScale
              [ev_function; ev_syntax; ev_return] defaultSeconds_nonneg)
    as (Hlen & _ & _ & Hmono).
  split; [exact Hlen|].
  intros a b. apply Hmono. repeat constructor.
Defined.

(** C3. An error event is scheduled with the pitch and duration that a fixed
    table gives for its kind: two error events of the same kind get the same
    pitch and duration whatever the scales, the lines and the positions in
    the buffers they come from. The table has a row for [syntax_error], for
    [logical_error] and for [best_practice] and one for every other kind.
    The counter of non-error events is the same after an error event as
    before it. *)
Theorem error_pitch_independence (secondsOf : Duration -> Q)
    (sc1 sc2 : list string) (evs1 evs2 : list CodeEvent) (i j : nat)
    (e1 e2 : CodeEvent) :
  evs1 !! i = Some e1 → evs2 !! j = Some e2 →
  isError e1 = true → isError e2 = true → type e1 = type e2 →
  ∃ se1 se2,
    scheduledEvents (compile secondsOf sc1 evs1) !! i = Some se1 ∧
    scheduledEvents (compile secondsOf sc2 evs2) !! j = Some se2 ∧
    note se1 = note se2 ∧ duration se1 = duration se2 ∧
    (note se1, duration se1) = error_note (type e1) ∧
    error_note "syntax_error" = (Chord [Some "C2"; Some "C#2"], D8n) ∧
    error_note "logical_error" = (Chord [Some "E2"; Some "F2"], D16n) ∧
    error_note "best_practice" = (Chord [Some "G2"; Some "G#2"], D16n) ∧
    (∀ ty, ty ≠ "syntax_error" → ty ≠ "logical_error" → ty ≠ "best_practice" →
           error_note ty = (Single (Some "C2"), D16n)) ∧
    messageCounter (compile secondsOf sc1 (take (S i) evs1))
    = messageCounter (compile secondsOf sc1 (take i evs1)) ∧
    nonErrorIndex evs1 (S i) = nonErrorIndex evs1 i.
Proof.
  intros Hi Hj He1 He2 Hty.
  exists (scheduled_for sc1 (compile secondsOf sc1 (take i evs1)) e1),
         (scheduled_for sc2 (compile secondsOf sc2 (take j evs2)) e2).
  split; [by apply compile_lookup|].
  split; [by apply compile_lookup|].
  unfold scheduled_for. rewrite He1, He2, Hty. simpl.
  split; [done|]. split; [done|].
  split; [by destruct (error_note (type e2))|].
  split; [done|]. split; [done|]. split; [done|].
  split.
  { intros ty H1 H2 H3. unfold error_note.
    apply String.eqb_neq in H1, H2, H3. by rewrite H1, H2, H3. }
  rewrite !compile_counter_take.
  by rewrite (nonErrorIndex_S _ _ _ Hi), He1.
Qed.

Lemma error_pitch_independence_witness :
  ∃ se1 se2,
    scheduledEvents (compile defaultSeconds defaultScale [ev_function; ev_syntax])
      !! 1%nat = Some se1 ∧
    scheduledEvents (compile defaultSeconds asyncScale [ev_syntax'])
      !! 0%nat = Some se2 ∧
    note se1 = note se2 ∧ duration se1 = duration se2.
Proof.
  destruct (error_pitch_independence defaultSeconds defaultScale asyncScale
              [ev_function; ev_syntax] [ev_syntax'] 1 0 ev_syntax ev_syntax')
    as (se1 & se2 & H1 & H2 & Hn & Hd & _); try reflexivity.
  exists se1, se2. repeat split; assumption.
Defined.

(** * The visual node pool *)

(** Closed facts about concrete runs, conjunct by conjunct. *)
Ltac by_computation :=
  repeat match goal with |- _ ∧ _ => split end; vm_compute; reflexivity.

Section NodePool.

Variable secondsOf : Duration -> Q.

Lemma draw_callback_nodes t event rnd s :
  visualNodes (draw_callback secondsOf t event rnd s)
  = drop (length (visualNodes s) - 30) (visualNodes s)
    ++ [spawned_node secondsOf (t, event, rnd)].
Proof. destruct rnd as [[[r0 rx] ry] rz]. reflexivity. Qed.

Lemma spawn_all_snoc spawns sp s :
  spawn_all secondsOf (spawns ++ [sp]) s
  = draw_callback secondsOf sp.1.1 sp.1.2 sp.2 (spawn_all secondsOf spawns s).
Proof. unfold spawn_all. by rewrite foldl_snoc. Qed.

(** Keeping the last 30 of the last 31 is keeping the last 30. *)
Lemma drop_last_30_of_31 {A} (w : list A) :
  let v := drop (length w - 31) w in
  drop (length v - 30) v = drop (length w - 30) w.
Proof.
  intros v. subst v. rewrite drop_drop, length_drop. f_equal. lia.
Qed.

Lemma keep_30_snoc {A} (w : list A) (x : A) :
  drop (length w - 30) w ++ [x] = drop (length (w ++ [x]) - 31) (w ++ [x]).
Proof.
  rewrite length_app. simpl.
  rewrite drop_app_le by lia. f_equal. f_equal. lia.
Qed.

(** After at least one spawn the pool holds the last 31 of the nodes it had
    and the nodes spawned since. *)
Lemma spawn_all_nodes spawns sp s :
  let w := visualNodes s ++ map (spawned_node secondsOf) (spawns ++ [sp]) in
  visualNodes (spawn_all secondsOf (spawns ++ [sp]) s) = drop (length w - 31) w.
Proof.
  revert sp. induction spawns as [|sp' spawns IH] using rev_ind; intros sp w.
  - subst w. simpl. unfold spawn_all. simpl.
    destruct sp as [[t ev] rnd]. rewrite draw_callback_nodes. simpl.
    apply keep_30_snoc.
  - rewrite spawn_all_snoc.
    destruct sp as [[t ev] rnd]. rewrite draw_callback_nodes. simpl.
    rewrite IH. rewrite drop_last_30_of_31.
    subst w. rewrite (map_app _ (spawns ++ [sp'])), app_assoc. simpl.
    apply keep_30_snoc.
Qed.

End NodePool.

(** What the draw callback does to the pool: each spawn keeps the last 30
    nodes of the pool and appends the new one, whatever their remaining
    lifetime. From the empty pool of a new session, after [N] spawns the
    pool is the last 31 of the spawned nodes in spawn order, it holds
    [min N 31] nodes, and once [N > 30] it holds exactly the most recent
    31. *)
Lemma node_pool_bounded_31 (secondsOf : Duration -> Q)
    (spawns : list (Q * ScheduledEvent * (Q * Q * Q * Q))) (s : App) :
  visualNodes s = [] →
  let nodes := map (spawned_node secondsOf) spawns in
  let pool := visualNodes (spawn_all secondsOf spawns s) in
  pool = drop (length spawns - 31) nodes ∧
  length pool = (length spawns `min` 31)%nat ∧
  ((30 < length spawns)%nat → length pool = 31%nat) ∧
  (∀ t event rnd,
     length (visualNodes (draw_callback secondsOf t event rnd s)) = 1%nat ∧
     visualNodes (draw_callback secondsOf t event rnd (spawn_all secondsOf spawns s))
     = drop (length pool - 30) pool ++ [spawned_node secondsOf (t, event, rnd)]).
Proof.
  intros Hempty nodes pool.
  assert (Hpool : pool = drop (length spawns - 31) nodes).
  { subst pool nodes.
    destruct spawns as [|sp spawns _] using rev_ind; [exact Hempty|].
    rewrite spawn_all_nodes, Hempty. simpl.
    by rewrite length_map. }
  assert (Hlen : length pool = (length spawns `min` 31)%nat).
  { rewrite Hpool, length_drop. subst nodes. rewrite length_map. lia. }
  split; [done|]. split; [done|]. split; [lia|].
  intros t event rnd. rewrite !draw_callback_nodes, Hempty. done.
Qed.

Lemma node_pool_bounded_31_instance :
  length (visualNodes
            (spawn_all defaultSeconds
               (map (λ se, (time se, se, (0, 0, 0, 0)%Q))
                    (scheduledEvents (compile defaultSeconds defaultScale declarations31)))
               initialApp)) = 31%nat.
Proof.
  destruct (node_pool_bounded_31 defaultSeconds
              (map (λ se, (time se, se, (0, 0, 0, 0)%Q))
                   (scheduledEvents (compile defaultSeconds defaultScale declarations31)))
              initialApp) as (_ & _ & H31 & _); [reflexivity|].
  apply H31. vm_compute. repeat constructor.
Defined.

(** C5, on the code. The claim bounds the pool to the 30 most recent nodes;
    the callback keeps 30 earlier nodes and then appends the new one. A
    session that buffers 31 function declarations arms its finalize timer
    for 17.5 s; the 31 callbacks of its sequence all run before that, the
    last at 7.5 s, and leave 31 nodes in the pool, the first spawned node
    still among them; the pool still holds 31 nodes when the timer has
    fired and the session is over. *)
Theorem node_pool_holds_31 :
  let playing := run defaultSeconds initialApp (stream 0 0 "default" declarations31) in
  let s := run defaultSeconds playing fire31 in
  let finished := step defaultSeconds s (TimerFire 0) in
  (∃ tm, timers playing !! 0%nat = Some tm ∧ tm_pending tm = true ∧
     (tm_delay tm == 17500)%Q ∧ timers s !! 0%nat = Some tm ∧
     Forall (λ i, ∃ ms, fire_ms i = Some ms ∧ (ms < tm_delay tm)%Q) fire31) ∧
  isPlaying s = true ∧
  length (visualNodes s) = 31%nat ∧ length (visualNodes s) ≠ 30%nat ∧
  (nv_type <$> visualNodes s !! 0%nat) = Some "function_declaration" ∧
  (id <$> visualNodes s !! 0%nat) = Some (0 / 4, 1 # 2)%Q ∧
  isPlaying finished = false ∧ visualNodes finished = visualNodes s.
Proof.
  intros playing s finished.
  assert (Hlen : length (visualNodes s) = 31%nat) by (vm_compute; reflexivity).
  split.
  { destruct (timers playing !! 0%nat) as [tm|] eqn:Htm; [|by vm_compute in Htm].
    exists tm. split; [done|].
    assert (Hs : timers s !! 0%nat = Some tm)
      by (rewrite <- Htm; vm_compute; reflexivity).
    vm_compute in Htm. injection Htm as <-.
    split; [reflexivity|]. split; [reflexivity|]. split; [exact Hs|].
    unfold fire31. apply Forall_fmap, Forall_forall. intros n Hn.
    apply elem_of_seq in Hn. simpl. eexists. split; [reflexivity|].
    unfold Qlt. simpl. lia. }
  split; [vm_compute; reflexivity|].
  split; [exact Hlen|]. split; [rewrite Hlen; discriminate|].
  split; [vm_compute; reflexivity|]. split; [vm_compute; reflexivity|].
  split; vm_compute; reflexivity.
Qed.

(** * The lifecycle of a session *)

(** ** Lists used as stores *)

Lemma lookup_snoc {A} (l : list A) (x : A) : (l ++ [x]) !! length l = Some x.
Proof. by apply list_lookup_middle. Qed.

Lemma lookup_alter_Some {A} (f : A → A) (l : list A) (i : nat) (x : A) :
  l !! i = Some x → alter f i l !! i = Some (f x).
Proof. intros H. by rewrite list_lookup_alter_eq, H. Qed.

(** ** What [stopMusic] does and does not touch *)

Ltac unfold_ops :=
  unfold stopMusic, clear_stopTimeout, transport_stop, transport_cancel,
    transport_start, dispose_current_sequence, close_current_if_open,
    close_current, dispose_current_synth in *.

Ltac fields :=
  cbn [code isPlaying status visualNodes cameraEffect activePalette
       highlightedLines summary persistentErrors ws synth sequence
       stopTimeoutRef requests sessions synths sequences timers transport
       set_code set_isPlaying set_status set_visualNodes set_cameraEffect
       set_activePalette set_highlightedLines set_summary
       set_persistentErrors set_ws set_synth set_sequence set_stopTimeoutRef
       set_requests set_sessions set_synths set_sequences set_timers
       set_transport running scheduled title messages] in *.

Ltac ops :=
  unfold_ops; repeat (fields; case_match); fields;
  repeat match goal with H : decide _ = _ |- _ => clear H end;
  simplify_eq; try done; try congruence.

Lemma stopMusic_persistentErrors fs s :
  persistentErrors (stopMusic fs s) = persistentErrors s.
Proof. ops. Qed.

Lemma stopMusic_isPlaying fs s : isPlaying (stopMusic fs s) = false.
Proof. ops. Qed.

Lemma stopMusic_transport fs s :
  transport (stopMusic fs s) = {| running := false; scheduled := [] |}.
Proof. ops. Qed.

Lemma stopMusic_synths fs s :
  synths (stopMusic fs s) = synths s ∧ synth (stopMusic fs s) = synth s.
Proof. ops. Qed.

Lemma stopMusic_summary fs s :
  summary (stopMusic (Some fs) s) = Some fs ∧
  status (stopMusic (Some fs) s) = title fs ∧
  summary (stopMusic None s) = summary s ∧
  status (stopMusic None s) = "Ready to play again.".
Proof. ops. Qed.

Lemma stopMusic_timers fs s :
  timers (stopMusic fs s)
  = match stopTimeoutRef s with
    | Some t => alter cancel_timer t (timers s)
    | None => timers s
    end.
Proof. ops. Qed.

Lemma stopMusic_sequences fs s :
  sequences (stopMusic fs s)
  = match sequence s with
    | Some q => alter dispose_sequence q (sequences s)
    | None => sequences s
    end.
Proof. ops. Qed.

Lemma stopMusic_sessions fs s :
  sessions (stopMusic fs s)
  = match ws s with
    | Some cur =>
        match sessions s !! cur with
        | Some k =>
            if decide (readyState k = OPEN)
            then alter close_socket cur (sessions s) else sessions s
        | None => sessions s
        end
    | None => sessions s
    end.
Proof. ops. Qed.

(** [stopMusic] creates no sequence, no timer and no session, and changes
    no compiled schedule and no buffer. *)
Lemma stopMusic_creates_nothing fs s :
  length (sequences (stopMusic fs s)) = length (sequences s) ∧
  seq_events <$> sequences (stopMusic fs s) = seq_events <$> sequences s ∧
  length (timers (stopMusic fs s)) = length (timers s) ∧
  length (sessions (stopMusic fs s)) = length (sessions s) ∧
  musicalEvents <$> sessions (stopMusic fs s) = musicalEvents <$> sessions s.
Proof.
  rewrite stopMusic_sequences, stopMusic_timers, stopMusic_sessions.
  repeat split; repeat case_match; rewrite ?length_alter; try done.
  - apply list_eq. intros i. rewrite !list_lookup_fmap.
    destruct (decide (n = i)) as [->|].
    + rewrite list_lookup_alter_eq. by destruct (sequences s !! i).
    + by rewrite list_lookup_alter_ne.
  - apply list_eq. intros i. rewrite !list_lookup_fmap.
    destruct (decide (n = i)) as [->|].
    + rewrite list_lookup_alter_eq. destruct (sessions s !! i) as [k|]; [|done].
      simpl. unfold close_socket. by destruct (readyState k).
    + by rewrite list_lookup_alter_ne.
Qed.

(** ** The persistent error map *)

Ltac handlers :=
  unfold step, handlePlay, handlePlay_classified, handlePlay_catch, ws_onopen,
    ws_onmessage, ws_onerror, ws_onclose, finalStop, sequence_callback,
    trigger_current, draw_callback, unmount, handleCodeChange, new_synth,
    new_session, new_sequence, new_timer in *;
  ops.

(** Every input leaves the map as it is, empties it, or is the firing of a
    pending finalize timer, which installs the draft of the timer's
    session. *)
Lemma step_persistentErrors (secondsOf : Duration -> Q) (s : App) (i : Input) :
  persistentErrors (step secondsOf s i) = persistentErrors s
  ∨ persistentErrors (step secondsOf s i) = ∅
  ∨ ∃ tid tm k, i = TimerFire tid ∧ timers s !! tid = Some tm ∧
      tm_pending tm = true ∧ sessions s !! tm_session tm = Some k ∧
      persistentErrors (step secondsOf s i) = collectedErrors k.
Proof.
  destruct i; handlers; auto.
  all: right; right; eauto 10.
Qed.

Lemma handleCodeChange_clears newCode s :
  persistentErrors (handleCodeChange newCode s) = ∅.
Proof.
  unfold handleCodeChange.
  destruct (Nat.ltb_spec 0 (size (persistentErrors s))) as [|Hle]; fields; [done|].
  apply map_size_empty_iff. lia.
Qed.

(** ** Stop requests and teardown *)

Lemma close_current_frame s :
  isPlaying (close_current s) = isPlaying s ∧
  requests (close_current s) = requests s ∧
  timers (close_current s) = timers s ∧
  stopTimeoutRef (close_current s) = stopTimeoutRef s ∧
  transport (close_current s) = transport s ∧
  sequences (close_current s) = sequences s ∧
  sequence (close_current s) = sequence s ∧
  synths (close_current s) = synths s ∧
  synth (close_current s) = synth s ∧
  ws (close_current s) = ws s ∧
  summary (close_current s) = summary s ∧
  persistentErrors (close_current s) = persistentErrors s ∧
  length (sessions (close_current s)) = length (sessions s).
Proof.
  unfold close_current. destruct (ws s) eqn:Hws; fields;
    rewrite ?length_alter; repeat split; done.
Qed.

Lemma close_current_sessions s j :
  sessions (close_current s) !! j
  = if decide (ws s = Some j) then close_socket <$> sessions s !! j
    else sessions s !! j.
Proof.
  unfold close_current. destruct (ws s) as [cur|]; fields.
  - rewrite list_lookup_alter. repeat case_decide; congruence.
  - by case_decide.
Qed.

(** C6, as the code has it. A play request while playing starts no session:
    it only asks the current socket to close (a connecting or open socket
    starts closing, otherwise nothing happens) and leaves the finalize timer,
    the transport, the sequence and the voice as they are. The teardown
    routine [stopMusic] cancels the finalize timer it holds, stops and
    clears the transport, disposes the current sequence and closes the
    current socket if it is open; it leaves every voice as it is. The voice
    is disposed when the next session has been classified. The finalize
    timer and the unmounting of the component run [stopMusic]. *)
Theorem stop_request_and_teardown (secondsOf : Duration -> Q) (s : App) :
  (isPlaying s = true →
     let s' := step secondsOf s PlayClick in
     s' = close_current s ∧ isPlaying s' = true ∧ requests s' = requests s ∧
     length (sessions s') = length (sessions s) ∧
     timers s' = timers s ∧ stopTimeoutRef s' = stopTimeoutRef s ∧
     transport s' = transport s ∧ sequences s' = sequences s ∧
     synths s' = synths s ∧
     ∀ j, sessions s' !! j
          = if decide (ws s = Some j) then close_socket <$> sessions s !! j
            else sessions s !! j) ∧
  (∀ fs,
     let s' := stopMusic fs s in
     (∀ t, stopTimeoutRef s = Some t →
           timers s' !! t = cancel_timer <$> timers s !! t) ∧
     transport s' = {| running := false; scheduled := [] |} ∧
     (∀ q, sequence s = Some q →
           sequences s' !! q = dispose_sequence <$> sequences s !! q) ∧
     (∀ cur k, ws s = Some cur → sessions s !! cur = Some k →
           sessions s' !! cur
           = Some (if decide (readyState k = OPEN) then close_socket k else k)) ∧
     synths s' = synths s ∧ synth s' = synth s ∧ isPlaying s' = false) ∧
  (∀ code0 genre y v,
     synth s = Some y → synths s !! y = Some v →
     synths (handlePlay_classified code0 genre s) !! y = Some (dispose_synth v)) ∧
  (∀ tid tm k,
     timers s !! tid = Some tm → tm_pending tm = true →
     sessions s !! tm_session tm = Some k →
     step secondsOf s (TimerFire tid)
     = stopMusic (Some {| title := tm_title tm; messages := errorMessages k |})
         (set_persistentErrors (collectedErrors k)
            (set_timers (alter cancel_timer tid (timers s)) s))) ∧
  step secondsOf s Unmount = close_current (stopMusic None s).
Proof.
  split.
  { intros Hp s'. subst s'. unfold step, handlePlay. rewrite Hp.
    pose proof (close_current_frame s) as Hf. rewrite Hp in Hf.
    destruct Hf as (?&?&?&?&?&?&?&?&?&?&?&?&?).
    repeat split; try done. apply close_current_sessions. }
  split.
  { intros fs s'. subst s'.
    rewrite stopMusic_timers, stopMusic_sequences, stopMusic_sessions,
      stopMusic_transport, stopMusic_isPlaying.
    destruct (stopMusic_synths fs s) as [-> ->].
    repeat split.
    - intros t ->. apply list_lookup_alter_eq.
    - intros q ->. apply list_lookup_alter_eq.
    - intros cur k -> Hk. rewrite Hk.
      destruct (decide (readyState k = OPEN)); [|done].
      by apply lookup_alter_Some. }
  split.
  2:{ split; [|reflexivity].
      intros tid tm k Htm Hpend Hk. unfold step. rewrite Htm, Hpend.
      unfold finalStop. fields. by rewrite Hk. }
  intros code0 genre y v Hy Hv.
  unfold handlePlay_classified, handlePlay_catch, new_synth, new_session.
  destruct (own_palette musicPalettes _); fields.
  - unfold dispose_current_synth. fields. rewrite Hy. fields.
    rewrite lookup_app_l.
    + by apply lookup_alter_Some.
    + rewrite length_alter. by eapply lookup_lt_Some.
  - destruct (stopMusic_synths (Some backendErrorSummary)
                (dispose_current_synth (set_activePalette
                   (if key_in_musicPalettes genre then genre else "default") s)))
      as [-> _].
    unfold dispose_current_synth. fields. rewrite Hy. fields.
    by apply lookup_alter_Some.
Qed.

Lemma stop_request_and_teardown_witness :
  let playing := run defaultSeconds initialApp sessionPlaying in
  isPlaying playing = true ∧
  timers (step defaultSeconds playing PlayClick) = timers playing ∧
  transport (step defaultSeconds playing PlayClick) = transport playing.
Proof.
  intros playing.
  assert (Hp : isPlaying playing = true) by (vm_compute; reflexivity).
  split; [exact Hp|].
  destruct (stop_request_and_teardown defaultSeconds playing) as [Hstop _].
  destruct (Hstop Hp) as (_ & _ & _ & _ & Ht & _ & Htr & _).
  split; [exact Ht|exact Htr].
Defined.

(** C6 as stated fails. During playback a play request changes nothing: the
    finalize timer stays pending, the transport keeps running with the
    sequence scheduled, and neither the sequence nor the voice is disposed.
    While the stream is still open a play request closes the socket, and the
    close event that follows starts the playback of what was buffered.
    [stopMusic] itself leaves the voice undisposed. *)
Lemma play_request_stops_nothing :
  let playing := run defaultSeconds initialApp sessionPlaying in
  let clicked := step defaultSeconds playing PlayClick in
  let streaming := run defaultSeconds initialApp sessionStreaming in
  let closed := run defaultSeconds streaming [PlayClick; WsClose 0] in
  isPlaying playing = true ∧
  clicked = playing ∧
  (tm_pending <$> timers clicked !! 0%nat) = Some true ∧
  transport clicked = {| running := true; scheduled := [0%nat] |} ∧
  (seq_disposed <$> sequences clicked !! 0%nat) = Some false ∧
  (sy_disposed <$> synths clicked !! 0%nat) = Some false ∧
  isPlaying streaming = true ∧
  running (transport streaming) = false ∧
  running (transport closed) = true ∧
  (tm_pending <$> timers closed !! 0%nat) = Some true ∧
  (sy_disposed <$> synths (stopMusic None playing) !! 0%nat) = Some false.
Proof.
  intros playing clicked streaming closed.
  by_computation.
Qed.

(** ** Failures *)

(** C8, as the code has it. A failed classification request and a stream
    error each run the teardown routine with a summary titled "Connection
    Error", shown through the same summary cell that a completed session
    uses; the two summaries differ in their message. Neither failure handler
    creates a sequence, a timer or a session or changes a compiled schedule,
    so neither invokes the compiler, and a failed classification opens no
    socket. *)
Theorem failures_surface_connection_error (secondsOf : Duration -> Q) (s : App) :
  (∀ rid rq, requests s !! rid = Some rq → rq_settled rq = false →
     step secondsOf s (ClassifyFail rid)
     = stopMusic (Some backendErrorSummary)
         (set_requests (alter settle rid (requests s)) s)) ∧
  (∀ sid k, sessions s !! sid = Some k → readyState k ≠ CLOSED →
     step secondsOf s (WsError sid) = stopMusic (Some streamErrorSummary) s) ∧
  title backendErrorSummary = "Connection Error" ∧
  title streamErrorSummary = "Connection Error" ∧
  messages backendErrorSummary = ["Could not connect to the backend service."] ∧
  messages streamErrorSummary = ["Failed to connect to the visualizer service."] ∧
  (∀ fs, let s' := stopMusic (Some fs) s in
     summary s' = Some fs ∧ status s' = title fs ∧ isPlaying s' = false ∧
     transport s' = {| running := false; scheduled := [] |} ∧
     length (sequences s') = length (sequences s) ∧
     seq_events <$> sequences s' = seq_events <$> sequences s ∧
     length (timers s') = length (timers s) ∧
     length (sessions s') = length (sessions s)) ∧
  (∀ tm k, sessions s !! tm_session tm = Some k →
     finalStop tm s
     = stopMusic (Some {| title := tm_title tm; messages := errorMessages k |})
         (set_persistentErrors (collectedErrors k) s)).
Proof.
  split.
  { intros rid rq Hrq Hset. unfold step. by rewrite Hrq, Hset. }
  split.
  { intros sid k Hk Hopen. unfold step. rewrite Hk.
    by destruct (decide (readyState k = CLOSED)). }
  do 4 (split; [reflexivity|]).
  split.
  { intros fs s'. subst s'.
    destruct (stopMusic_summary fs s) as (-> & -> & _).
    rewrite stopMusic_isPlaying, stopMusic_transport.
    destruct (stopMusic_creates_nothing (Some fs) s) as (-> & -> & -> & -> & _).
    done. }
  intros tm k Hk. unfold finalStop. by rewrite Hk.
Qed.

Lemma failures_surface_connection_error_witness :
  let streaming := run defaultSeconds initialApp sessionStreaming in
  step defaultSeconds streaming (WsError 0)
  = stopMusic (Some streamErrorSummary) streaming.
Proof.
  intros streaming.
  destruct (failures_surface_connection_error defaultSeconds streaming)
    as (_ & Herr & _).
  apply (Herr 0%nat {| readyState := OPEN; captured_code := initialCode;
                       palette_scale := defaultScale; musicalEvents := [ev_if];
                       errorMessages := []; collectedErrors := ∅;
                       sent := [initialCode] |}).
  - vm_compute. reflexivity.
  - discriminate.
Defined.

(** C8 as stated fails. The two failures surface summaries that are not
    identical. And a stream error that arrives after an event was buffered
    is followed by the close event, whose handler compiles the buffer,
    starts the transport and arms the finalize timer; when that timer fires
    the "Connection Error" summary is replaced. When the connection fails
    with nothing buffered, the close event replaces it at once with the
    summary of an empty analysis. *)
Lemma failures_not_identical :
  let unavailable := run defaultSeconds initialApp [PlayClick; ClassifyFail 0] in
  let failed := run defaultSeconds initialApp (sessionStreaming ++ [WsError 0]) in
  let closed := run defaultSeconds initialApp sessionFailing in
  let finished := step defaultSeconds closed (TimerFire 0) in
  let refused := run defaultSeconds initialApp connectionRefused in
  summary unavailable = Some backendErrorSummary ∧
  summary failed = Some streamErrorSummary ∧
  summary unavailable ≠ summary failed ∧
  sequences failed = [] ∧
  (seq_events <$> sequences closed !! 0%nat)
  = Some (scheduledEvents (compile defaultSeconds defaultScale [ev_if])) ∧
  running (transport closed) = true ∧
  (tm_pending <$> timers closed !! 0%nat) = Some true ∧
  summary finished
  = Some {| title := "Analysis Complete: Code is Clean!"; messages := [] |} ∧
  summary refused = Some emptyAnalysisSummary.
Proof.
  intros unavailable failed closed finished refused.
  assert (H1 : summary unavailable = Some backendErrorSummary)
    by (vm_compute; reflexivity).
  assert (H2 : summary failed = Some streamErrorSummary)
    by (vm_compute; reflexivity).
  split; [exact H1|]. split; [exact H2|].
  split; [rewrite H1, H2; discriminate|].
  by_computation.
Qed.

(** ** The course of a session *)

Section Session.

Variable secondsOf : Duration -> Q.

Abbreviation step' := (step secondsOf).
Abbreviation run' := (run secondsOf).

Lemma run_app s xs ys : run' s (xs ++ ys) = run' (run' s xs) ys.
Proof. unfold run. apply fold_left_app. Qed.

Lemma run_cons s x xs : run' s (x :: xs) = run' (step' s x) xs.
Proof. reflexivity. Qed.

Lemma run_nil s : run' s [] = s.
Proof. reflexivity. Qed.

(** A genre that is not an inherited member of the table resolves to a
    palette of the table. *)
Lemma palette_resolves genre :
  existsb (String.eqb genre) objectPrototypeKeys = false →
  ∃ palette, own_palette musicPalettes (paletteKey genre) = Some palette.
Proof.
  intros Hproto. unfold paletteKey, key_in_musicPalettes.
  destruct (own_palette musicPalettes genre) as [p|] eqn:Hown.
  - by exists p.
  - rewrite Hproto. eexists. reflexivity.
Qed.

(** From the play request to the new socket. *)
Lemma run_start s genre palette :
  isPlaying s = false →
  own_palette musicPalettes (paletteKey genre) = Some palette →
  let s2 := run' s [PlayClick; ClassifyOk (length (requests s)) genre] in
  in_session s s2 (length (sessions s)) (fresh_session (code s) (scale palette)) ∧
  isPlaying s2 = true ∧ visualNodes s2 = [] ∧ summary s2 = None ∧
  length (sessions s2) = S (length (sessions s)) ∧
  activePalette s2 = paletteKey genre.
Proof.
  intros Hp Hpal s2. subst s2. rewrite !run_cons, run_nil.
  change (step' s PlayClick) with (handlePlay s).
  unfold handlePlay. rewrite Hp.
  unfold step. fields. rewrite lookup_snoc. cbn [rq_settled rq_code].
  unfold handlePlay_classified. fold (paletteKey genre). rewrite Hpal.
  unfold new_session, new_synth, dispose_current_synth, in_session, same_playback.
  fields. destruct (synth s); fields; rewrite ?length_app, ?lookup_snoc; simpl;
    repeat split; try done; lia.
Qed.

(** The socket opens and the text is sent. *)
Lemma step_open s0 s sid k :
  in_session s0 s sid k → readyState k = CONNECTING →
  in_session s0 (step' s (WsOpen sid)) sid
    (send_socket (captured_code k) (set_readyState OPEN k)) ∧
  isPlaying (step' s (WsOpen sid)) = isPlaying s ∧
  summary (step' s (WsOpen sid)) = summary s.
Proof.
  intros (Hk & Hws & Herr & Hsame) Hconn.
  unfold step. rewrite Hk.
  destruct (decide (readyState k = CONNECTING)); [|done].
  unfold ws_onopen. fields. rewrite Hws.
  rewrite (lookup_alter_Some _ _ _ _ Hk). simpl.
  destruct (decide (OPEN = OPEN)); [|done].
  unfold in_session, same_playback in *. fields.
  rewrite !list_lookup_alter_eq, Hk. done.
Qed.

(** A message is buffered. *)
Lemma step_message s0 s sid k data :
  in_session s0 s sid k → readyState k = OPEN →
  in_session s0 (step' s (WsMessage sid data)) sid (buffer_event data k) ∧
  isPlaying (step' s (WsMessage sid data)) = isPlaying s ∧
  summary (step' s (WsMessage sid data)) = summary s.
Proof.
  intros (Hk & Hws & Herr & Hsame) Hopen.
  unfold step. rewrite Hk.
  destruct (decide (readyState k = OPEN)); [|done].
  unfold ws_onmessage, in_session, same_playback in *. fields.
  rewrite (lookup_alter_Some _ _ _ _ Hk). done.
Qed.

Lemma run_messages s0 evs : ∀ s sid k,
  in_session s0 s sid k → readyState k = OPEN →
  in_session s0 (run' s (map (WsMessage sid) evs)) sid (buffer_all evs k) ∧
  isPlaying (run' s (map (WsMessage sid) evs)) = isPlaying s ∧
  summary (run' s (map (WsMessage sid) evs)) = summary s.
Proof.
  induction evs as [|e evs IH]; intros s sid k Hin Hopen; [done|].
  simpl map. rewrite run_cons.
  destruct (step_message s0 s sid k e Hin Hopen) as (Hin' & <- & <-).
  apply (IH _ _ _ Hin'). done.
Qed.

(** What the buffers hold after the messages. *)
Lemma buffer_all_spec evs : ∀ k,
  readyState (buffer_all evs k) = readyState k ∧
  palette_scale (buffer_all evs k) = palette_scale k ∧
  musicalEvents (buffer_all evs k) = musicalEvents k ++ evs ∧
  (Forall (λ e, isError e = false) evs →
     errorMessages (buffer_all evs k) = errorMessages k ∧
     collectedErrors (buffer_all evs k) = collectedErrors k).
Proof.
  induction evs as [|e evs IH]; intros k.
  - simpl. rewrite app_nil_r. done.
  - unfold buffer_all. simpl. fold (buffer_all evs (buffer_event e k)).
    destruct (IH (buffer_event e k)) as (-> & -> & -> & Hclean). simpl.
    rewrite <- app_assoc. do 3 (split; [done|]).
    intros Hall. apply Forall_cons in Hall as [He Hall].
    destruct (Hclean Hall) as [-> ->]. simpl. by rewrite He.
Qed.

(** The stream closes with nothing buffered. *)
Lemma step_close_empty s sid k :
  sessions s !! sid = Some k → readyState k ≠ CLOSED → musicalEvents k = [] →
  step' s (WsClose sid)
  = stopMusic (Some emptyAnalysisSummary)
      (set_sessions (alter (set_readyState CLOSED) sid (sessions s)) s).
Proof.
  intros Hk Hopen Hevs. unfold step. rewrite Hk.
  destruct (decide (readyState k = CLOSED)); [done|].
  unfold ws_onclose. fields.
  rewrite (lookup_alter_Some _ _ _ _ Hk). simpl. by rewrite Hevs.
Qed.

(** The stream closes with a buffer that is not empty. *)
Lemma step_close_nonempty s sid k :
  sessions s !! sid = Some k → readyState k ≠ CLOSED → musicalEvents k ≠ [] →
  let st := compile secondsOf (palette_scale k) (musicalEvents k) in
  let s' := step' s (WsClose sid) in
  sequence s' = Some (length (sequences s)) ∧
  sequences s' = sequences s
    ++ [{| seq_events := scheduledEvents st; seq_loop := false;
           seq_disposed := false |}] ∧
  transport s' = {| running := true;
                    scheduled := scheduled (transport s) ++ [length (sequences s)] |} ∧
  stopTimeoutRef s' = Some (length (timers s)) ∧
  timers s' = timers s
    ++ [{| tm_session := sid; tm_title := final_title (errorMessages k);
           tm_delay := ((cumulativeTime st + 2) * 1000)%Q; tm_pending := true |}] ∧
  sessions s' = alter (set_readyState CLOSED) sid (sessions s) ∧
  persistentErrors s' = persistentErrors s ∧ summary s' = summary s ∧
  isPlaying s' = isPlaying s ∧ ws s' = ws s ∧
  status s' = "3/3: Composing and playing music...".
Proof.
  intros Hk Hopen Hevs st s'. subst s' st. unfold step. rewrite Hk.
  destruct (decide (readyState k = CLOSED)); [done|].
  unfold ws_onclose. fields.
  rewrite (lookup_alter_Some _ _ _ _ Hk). simpl.
  destruct (musicalEvents k) eqn:Hm; [done|].
  unfold new_timer, transport_start, new_sequence. fields. done.
Qed.

(** Callbacks of a sequence touch neither sockets nor timers nor the error
    map nor the summary. *)
Lemma step_fire_frame s i :
  is_fire i = true →
  sessions (step' s i) = sessions s ∧ timers (step' s i) = timers s ∧
  persistentErrors (step' s i) = persistentErrors s ∧
  summary (step' s i) = summary s ∧ isPlaying (step' s i) = isPlaying s.
Proof. destruct i; try done. intros _. handlers. Qed.

Lemma run_fire_frame fires : ∀ s,
  forallb is_fire fires = true →
  sessions (run' s fires) = sessions s ∧ timers (run' s fires) = timers s ∧
  persistentErrors (run' s fires) = persistentErrors s ∧
  summary (run' s fires) = summary s ∧ isPlaying (run' s fires) = isPlaying s.
Proof.
  induction fires as [|i fires IH]; intros s Hall; [done|].
  simpl in Hall. apply andb_true_iff in Hall as [Hi Hall].
  rewrite run_cons.
  destruct (step_fire_frame s i Hi) as (<- & <- & <- & <- & <-).
  by apply IH.
Qed.

(** The finalize timer fires. *)
Lemma step_timer s tid tm k :
  timers s !! tid = Some tm → tm_pending tm = true →
  sessions s !! tm_session tm = Some k →
  let s' := step' s (TimerFire tid) in
  persistentErrors s' = collectedErrors k ∧
  summary s' = Some {| title := tm_title tm; messages := errorMessages k |} ∧
  status s' = tm_title tm ∧ isPlaying s' = false ∧
  transport s' = {| running := false; scheduled := [] |}.
Proof.
  intros Htm Hpend Hk s'. subst s'. unfold step. rewrite Htm, Hpend.
  unfold finalStop. fields. rewrite Hk.
  rewrite stopMusic_persistentErrors, stopMusic_isPlaying, stopMusic_transport.
  destruct (stopMusic_summary {| title := tm_title tm; messages := errorMessages k |}
              (set_persistentErrors (collectedErrors k)
                 (set_timers (alter cancel_timer tid (timers s)) s)))
    as (-> & -> & _).
  done.
Qed.

End Session.

(** ** Timers and the sessions they belong to *)

Ltac split_alter :=
  repeat match goal with
  | |- context [alter ?f ?n ?l !! ?j] =>
      destruct (decide (n = j)) as [->|];
      [rewrite list_lookup_alter_eq | rewrite list_lookup_alter_ne by done]
  | H : context [alter ?f ?n ?l !! ?j] |- _ =>
      destruct (decide (n = j)) as [->|];
      [rewrite list_lookup_alter_eq in H | rewrite list_lookup_alter_ne in H by done]
  end.

(** No input changes a session whose stream has closed. *)
Lemma closed_stable secondsOf s i j k :
  sessions s !! j = Some k → readyState k = CLOSED →
  sessions (step secondsOf s i) !! j = Some k.
Proof.
  intros Hk Hc.
  destruct i; handlers.
  all: repeat (rewrite lookup_app_l by (eapply lookup_lt_Some; eauto)).
  all: try done.
  all: split_alter; simplify_eq; try done; try congruence.
  all: rewrite Hk; simpl; unfold close_socket; rewrite Hc; done.
Qed.

Lemma cancel_all_lookup ts l tid tm :
  cancel_all ts l !! tid = Some tm →
  ∃ tm0, l !! tid = Some tm0 ∧ tm_session tm0 = tm_session tm.
Proof.
  revert tm. induction ts as [|t ts IH]; intros tm; simpl; [by eauto|].
  destruct (decide (t = tid)) as [->|Hne].
  - rewrite list_lookup_alter_eq.
    destruct (cancel_all ts l !! tid) as [tm1|] eqn:H1; [|done].
    simpl. intros [= <-]. destruct (IH tm1 eq_refl) as (tm0 & ? & ?). eauto.
  - rewrite list_lookup_alter_ne by done. apply IH.
Qed.

(** An input cancels timers, or it is the close of a stream with a buffer
    that is not empty and arms one timer for that session. *)
Lemma step_timers secondsOf s i :
  (∃ ts, timers (step secondsOf s i) = cancel_all ts (timers s)) ∨
  (∃ sid k ttl delay, i = WsClose sid ∧ sessions s !! sid = Some k ∧
     readyState k ≠ CLOSED ∧ musicalEvents k ≠ [] ∧
     timers (step secondsOf s i)
     = timers s ++ [{| tm_session := sid; tm_title := ttl; tm_delay := delay;
                       tm_pending := true |}]).
Proof.
  destruct i.
  7:{ unfold step. destruct (sessions s !! sid) as [k|] eqn:Hk; [|by left; exists []].
      destruct (decide (readyState k = CLOSED)) as [|Hopen]; [by left; exists []|].
      destruct (musicalEvents k) as [|e evs] eqn:Hevs.
      - left. pose proof (step_close_empty secondsOf s sid k Hk Hopen Hevs) as Hst.
        unfold step in Hst. rewrite Hk in Hst.
        destruct (decide (readyState k = CLOSED)); [done|]. rewrite Hst.
        rewrite stopMusic_timers. fields.
        destruct (stopTimeoutRef s) as [t|]; [by exists [t]|by exists []].
      - right. assert (musicalEvents k ≠ []) as Hne by (by rewrite Hevs).
        destruct (step_close_nonempty secondsOf s sid k Hk Hopen Hne)
          as (_ & _ & _ & _ & Ht & _).
        unfold step in Ht. rewrite Hk in Ht.
        destruct (decide (readyState k = CLOSED)); [done|].
        do 4 eexists. repeat split; try done. }
  all: left; handlers.
  all: first [by exists [] | by eexists [_] | by eexists [_; _]].
Qed.

Lemma timers_closed_step secondsOf s i :
  timers_closed s → timers_closed (step secondsOf s i).
Proof.
  intros Hwf tid tm Htm.
  destruct (step_timers secondsOf s i)
    as [[ts Hts]|(sid & k & ttl & delay & -> & Hk & Hopen & Hne & Ht)].
  - rewrite Hts in Htm. apply cancel_all_lookup in Htm as (tm0 & Htm0 & <-).
    destruct (Hwf tid tm0 Htm0) as (k & Hk & Hc & Hne).
    exists k. split; [by apply closed_stable|done].
  - rewrite Ht in Htm.
    destruct (decide (tid < length (timers s))%nat) as [Hlt|Hge].
    + rewrite lookup_app_l in Htm by done.
      destruct (Hwf tid tm Htm) as (k0 & Hk0 & Hc & Hne0).
      exists k0. split; [by apply closed_stable|done].
    + rewrite lookup_app_r in Htm by lia.
      destruct (tid - length (timers s))%nat as [|n] eqn:Hn; [|by destruct n].
      injection Htm as <-. cbn [tm_session].
      destruct (step_close_nonempty secondsOf s sid k Hk Hopen Hne)
        as (_ & _ & _ & _ & _ & Hsess & _).
      exists (set_readyState CLOSED k). rewrite Hsess.
      split; [by apply lookup_alter_Some|done].
Qed.

(** In every state the component can reach, a timer belongs to a session
    whose stream has closed with at least one buffered event. *)
Lemma timers_closed_reachable secondsOf inputs :
  timers_closed (run secondsOf initialApp inputs).
Proof.
  assert (∀ s, timers_closed s → timers_closed (run secondsOf s inputs)) as Hrun.
  { induction inputs as [|i inputs IH]; intros s Hs; [done|].
    rewrite run_cons. apply IH. by apply timers_closed_step. }
  apply Hrun. intros tid tm Htm. done.
Qed.


(** Whoever sets the playing flag empties the map, and whoever installs a
    map clears the playing flag: an input keeps the property that the map is
    empty while the flag is set. *)
Lemma playing_empty_step secondsOf s i :
  (isPlaying s = true → persistentErrors s = ∅) →
  isPlaying (step secondsOf s i) = true →
  persistentErrors (step secondsOf s i) = ∅.
Proof.
  destruct i; handlers; auto.
Qed.

(** In every state the component can reach, the map is empty while a
    session plays. *)
Lemma playing_empty_reachable secondsOf inputs :
  let r := run secondsOf initialApp inputs in
  isPlaying r = true → persistentErrors r = ∅.
Proof.
  assert (∀ s, (isPlaying s = true → persistentErrors s = ∅) →
               isPlaying (run secondsOf s inputs) = true →
               persistentErrors (run secondsOf s inputs) = ∅) as Hrun.
  { induction inputs as [|i inputs IH]; intros s Hs; [done|].
    rewrite run_cons. apply IH. by apply playing_empty_step. }
  apply Hrun. done.
Qed.

(** C4, as the code has it. A stop request (a play request while playing)
    leaves the persistent error map exactly as it is at that moment, and
    the teardown routine never changes the map. In every state the
    component can reach the map is empty while a session plays, because
    starting a session empties the map: the map committed by an earlier
    session is not there any more, and a stop request or a teardown run from
    a playing state leaves the empty map. The only input that installs a
    map other than the empty one is the firing of a pending finalize timer,
    which commits the draft collected by the timer's session and then runs
    the teardown, which leaves that draft in place and ends playback; in
    every state the component can reach, that session's stream has closed
    with at least one buffered event. Editing the text leaves the map
    empty. *)
Theorem persistent_errors_lifecycle (secondsOf : Duration -> Q) (s : App) :
  (isPlaying s = true →
     persistentErrors (step secondsOf s PlayClick) = persistentErrors s) ∧
  (∀ fs, persistentErrors (stopMusic fs s) = persistentErrors s) ∧
  (isPlaying s = false → persistentErrors (step secondsOf s PlayClick) = ∅) ∧
  (∀ i, persistentErrors (step secondsOf s i) = persistentErrors s
        ∨ persistentErrors (step secondsOf s i) = ∅
        ∨ ∃ tid tm k, i = TimerFire tid ∧ timers s !! tid = Some tm ∧
            tm_pending tm = true ∧ sessions s !! tm_session tm = Some k ∧
            persistentErrors (step secondsOf s i) = collectedErrors k) ∧
  (∀ tid tm k, timers s !! tid = Some tm → tm_pending tm = true →
     sessions s !! tm_session tm = Some k →
     persistentErrors (step secondsOf s (TimerFire tid)) = collectedErrors k ∧
     isPlaying (step secondsOf s (TimerFire tid)) = false) ∧
  (∀ newCode, isPlaying s = false →
     persistentErrors (step secondsOf s (Edit newCode)) = ∅) ∧
  (∀ inputs tid tm,
     let r := run secondsOf initialApp inputs in
     timers r !! tid = Some tm → tm_pending tm = true →
     ∃ k, sessions r !! tm_session tm = Some k ∧ readyState k = CLOSED ∧
          musicalEvents k ≠ [] ∧
          persistentErrors (step secondsOf r (TimerFire tid)) = collectedErrors k) ∧
  (∀ inputs,
     let r := run secondsOf initialApp inputs in
     isPlaying r = true →
     persistentErrors r = ∅ ∧
     persistentErrors (step secondsOf r PlayClick) = ∅ ∧
     ∀ fs, persistentErrors (stopMusic fs r) = ∅).
Proof.
  split; [intros Hp; handlers|].
  split; [intros fs; apply stopMusic_persistentErrors|].
  split; [intros Hp; handlers|].
  split; [apply step_persistentErrors|].
  split.
  { intros tid tm k Htm Hpend Hk.
    destruct (step_timer secondsOf s tid tm k Htm Hpend Hk)
      as (Herr & _ & _ & Hp & _).
    split; [exact Herr|exact Hp]. }
  split.
  { intros newCode Hp. unfold step. rewrite Hp. apply handleCodeChange_clears. }
  split.
  { intros inputs tid tm r Htm Hpend.
    destruct (timers_closed_reachable secondsOf inputs tid tm Htm) as (k & Hk & Hc & Hne).
    exists k. do 3 (split; [done|]).
    destruct (step_timer secondsOf r tid tm k Htm Hpend Hk) as [Herr _]. exact Herr. }
  intros inputs r Hp.
  pose proof (playing_empty_reachable secondsOf inputs Hp) as Hempty.
  fold r in Hempty.
  split; [exact Hempty|].
  split.
  - rewrite <- Hempty. clear Hempty. revert Hp. generalize r. clear r.
    intros r Hp. handlers.
  - intros fs. rewrite stopMusic_persistentErrors. exact Hempty.
Qed.

Lemma persistent_errors_lifecycle_witness :
  let playing := run defaultSeconds initialApp (firstSession ++ secondSessionPlaying) in
  isPlaying playing = true ∧
  persistentErrors (step defaultSeconds playing PlayClick) = persistentErrors playing ∧
  persistentErrors playing = ∅.
Proof.
  intros playing.
  assert (Hp : isPlaying playing = true) by (vm_compute; reflexivity).
  split; [exact Hp|].
  destruct (persistent_errors_lifecycle defaultSeconds playing)
    as (Hstop & _ & _ & _ & _ & _ & _ & Hreach).
  split; [exact (Hstop Hp)|].
  destruct (Hreach (firstSession ++ secondSessionPlaying) Hp) as [Hempty _].
  exact Hempty.
Defined.

(** C4 as stated fails. A first session commits an error on line 7; a
    second session is started and stopped while it plays; the map is then
    empty, not the map from before the second session. *)
Lemma stop_does_not_restore_errors :
  let before := run defaultSeconds initialApp firstSession in
  let playing := run defaultSeconds before secondSessionPlaying in
  let stopped := step defaultSeconds playing PlayClick in
  isPlaying before = false ∧
  persistentErrors before !! 7 = Some "syntax_error" ∧
  isPlaying playing = true ∧ running (transport playing) = true ∧
  persistentErrors stopped !! 7 = None ∧
  persistentErrors stopped ≠ persistentErrors before.
Proof.
  intros before playing stopped.
  assert (H7 : persistentErrors before !! 7 = Some "syntax_error")
    by (vm_compute; reflexivity).
  assert (H7' : persistentErrors stopped !! 7 = None)
    by (vm_compute; reflexivity).
  split; [vm_compute; reflexivity|]. split; [exact H7|].
  split; [vm_compute; reflexivity|]. split; [vm_compute; reflexivity|].
  split; [exact H7'|].
  intros Heq. rewrite Heq, H7 in H7'. discriminate H7'.
Qed.

(** ** Outcomes of a session *)

(** The teardown leaves pending only timers that were pending and
    unchanged before it. *)
Lemma stopMusic_pending fs s t tm :
  timers (stopMusic fs s) !! t = Some tm → tm_pending tm = true →
  timers s !! t = Some tm.
Proof.
  rewrite stopMusic_timers. destruct (stopTimeoutRef s) as [t0|]; [|done].
  destruct (decide (t0 = t)) as [->|Hne].
  - rewrite list_lookup_alter_eq. destruct (timers s !! t) as [tm0|]; [|done].
    simpl. intros [= <-]. done.
  - by rewrite list_lookup_alter_ne.
Qed.

(** C7. A session whose stream closes with nothing buffered, whether or not
    the socket had opened, ends at once: the summary shown is "Analysis
    Complete" with the message that no parsable elements were found, the
    component is no longer playing, no sequence is created and no compiled
    schedule changes, no timer is armed, the transport is stopped and empty,
    and the persistent error map is empty. In any state, the close of a
    socket with an empty buffer is exactly the teardown with that summary. *)
Theorem empty_stream_outcome (secondsOf : Duration -> Q) (s : App)
    (genre : string) (opened : bool) :
  isPlaying s = false →
  existsb (String.eqb genre) objectPrototypeKeys = false →
  let rid := length (requests s) in
  let sid := length (sessions s) in
  let before := run secondsOf s ([PlayClick; ClassifyOk rid genre]
                                   ++ (if opened then [WsOpen sid] else [])) in
  let after := step secondsOf before (WsClose sid) in
  (musicalEvents <$> sessions before !! sid) = Some [] ∧
  isPlaying before = true ∧
  summary after
  = Some {| title := "Analysis Complete";
            messages := ["No parsable musical elements were found in the code."] |} ∧
  status after = "Analysis Complete" ∧
  isPlaying after = false ∧
  persistentErrors after = ∅ ∧
  length (sequences after) = length (sequences s) ∧
  seq_events <$> sequences after = seq_events <$> sequences s ∧
  length (timers after) = length (timers s) ∧
  (∀ t tm, timers after !! t = Some tm → tm_pending tm = true →
           timers s !! t = Some tm) ∧
  transport after = {| running := false; scheduled := [] |} ∧
  (∀ s0 sid0 k, sessions s0 !! sid0 = Some k → readyState k ≠ CLOSED →
     musicalEvents k = [] →
     step secondsOf s0 (WsClose sid0)
     = stopMusic (Some emptyAnalysisSummary)
         (set_sessions (alter (set_readyState CLOSED) sid0 (sessions s0)) s0)).
Proof.
  intros Hp Hproto rid sid before after.
  destruct (palette_resolves genre Hproto) as [palette Hpal].
  destruct (run_start secondsOf s genre palette Hp Hpal)
    as (Hin & Hplaying & _ & _ & _ & _).
  fold rid sid in Hin, Hplaying.
  assert (Hbefore : ∃ k, in_session s before sid k ∧ readyState k ≠ CLOSED
                         ∧ musicalEvents k = [] ∧ isPlaying before = true).
  { subst before. rewrite run_app. destruct opened.
    - rewrite run_cons, run_nil.
      destruct (step_open secondsOf s _ sid _ Hin eq_refl) as (Hin' & -> & _).
      eexists. split; [exact Hin'|]. done.
    - rewrite run_nil. eexists. split; [exact Hin|]. done. }
  destruct Hbefore as (k & (Hk & Hws & Herr & Hsame) & Hopen & Hevs & Hpb).
  destruct Hsame as (Hseqs & Hseq & Htimers & Href & Htr).
  assert (Hafter : after = stopMusic (Some emptyAnalysisSummary)
            (set_sessions (alter (set_readyState CLOSED) sid (sessions before)) before))
    by (by apply (step_close_empty secondsOf before sid k)).
  split; [by rewrite Hk; simpl; rewrite Hevs|].
  split; [done|].
  rewrite Hafter.
  destruct (stopMusic_summary emptyAnalysisSummary
              (set_sessions (alter (set_readyState CLOSED) sid (sessions before)) before))
    as (-> & -> & _).
  rewrite stopMusic_isPlaying, stopMusic_persistentErrors, stopMusic_transport.
  destruct (stopMusic_creates_nothing (Some emptyAnalysisSummary)
              (set_sessions (alter (set_readyState CLOSED) sid (sessions before)) before))
    as (-> & -> & -> & _).
  fields. rewrite Herr, Hseqs, Htimers.
  do 7 (split; [done|]).
  split.
  { intros t tm Ht Hpend. rewrite <- Htimers.
    by apply (stopMusic_pending _ _ _ _ Ht). }
  split; [done|].
  intros s0 sid0 k0. apply step_close_empty.
Qed.

Lemma empty_stream_outcome_witness :
  let after := run defaultSeconds initialApp
                 [PlayClick; ClassifyOk 0 "JS-Async"; WsOpen 0; WsClose 0] in
  summary after = Some emptyAnalysisSummary ∧ persistentErrors after = ∅ ∧
  length (sequences after) = 0%nat ∧ length (timers after) = 0%nat.
Proof.
  intros after.
  destruct (empty_stream_outcome defaultSeconds initialApp "JS-Async" true)
    as (_ & _ & Hsum & _ & _ & Herr & Hseq & _ & Htim & _);
    [vm_compute; reflexivity|vm_compute; reflexivity|].
  vm_compute in Hsum, Herr, Hseq, Htim. vm_compute.
  split; [exact Hsum|]. split; [exact Herr|].
  split; [exact Hseq|exact Htim].
Defined.

(** C9. The schedule compiled when a stream closes depends only on the
    buffered events and on the scale of the palette: two closes, in any two
    states of the component, of sockets that hold the same buffer and the
    same scale produce sequences with the same entries, field by field and
    in the same order, and arm their timers with the same delay. *)
Theorem compile_deterministic (secondsOf : Duration -> Q) (s1 s2 : App)
    (sid1 sid2 : nat) (k1 k2 : Session) :
  sessions s1 !! sid1 = Some k1 → sessions s2 !! sid2 = Some k2 →
  readyState k1 ≠ CLOSED → readyState k2 ≠ CLOSED →
  musicalEvents k1 ≠ [] →
  musicalEvents k1 = musicalEvents k2 → palette_scale k1 = palette_scale k2 →
  let a := step secondsOf s1 (WsClose sid1) in
  let b := step secondsOf s2 (WsClose sid2) in
  ∃ q1 q2 sq1 sq2 t1 t2 tm1 tm2,
    sequence a = Some q1 ∧ sequences a !! q1 = Some sq1 ∧
    sequence b = Some q2 ∧ sequences b !! q2 = Some sq2 ∧
    seq_events sq1 = seq_events sq2 ∧
    seq_events sq1
    = scheduledEvents (compile secondsOf (palette_scale k1) (musicalEvents k1)) ∧
    stopTimeoutRef a = Some t1 ∧ timers a !! t1 = Some tm1 ∧
    stopTimeoutRef b = Some t2 ∧ timers b !! t2 = Some tm2 ∧
    tm_delay tm1 = tm_delay tm2.
Proof.
  intros Hk1 Hk2 Ho1 Ho2 Hne Hevs Hsc a b.
  assert (Hne2 : musicalEvents k2 ≠ []) by (by rewrite <- Hevs).
  destruct (step_close_nonempty secondsOf s1 sid1 k1 Hk1 Ho1 Hne)
    as (Hq1 & Hs1 & _ & Ht1 & Htm1 & _).
  destruct (step_close_nonempty secondsOf s2 sid2 k2 Hk2 Ho2 Hne2)
    as (Hq2 & Hs2 & _ & Ht2 & Htm2 & _).
  fold a in Hq1, Hs1, Ht1, Htm1. fold b in Hq2, Hs2, Ht2, Htm2.
  do 8 eexists.
  split; [exact Hq1|]. split; [rewrite Hs1; apply lookup_snoc|].
  split; [exact Hq2|]. split; [rewrite Hs2; apply lookup_snoc|].
  split; [simpl; by rewrite Hevs, Hsc|]. split; [done|].
  split; [exact Ht1|]. split; [rewrite Htm1; apply lookup_snoc|].
  split; [exact Ht2|]. split; [rewrite Htm2; apply lookup_snoc|].
  simpl. by rewrite Hevs, Hsc.
Qed.

Lemma compile_deterministic_witness :
  let a := step defaultSeconds (run defaultSeconds initialApp sessionStreaming)
             (WsClose 0) in
  let b := step defaultSeconds
             (run defaultSeconds initialApp (firstSession ++ secondSessionStreaming))
             (WsClose 1) in
  ∃ sq1 sq2, sequences a !! 0%nat = Some sq1 ∧ sequences b !! 1%nat = Some sq2 ∧
             seq_events sq1 = seq_events sq2.
Proof.
  intros a b.
  edestruct (compile_deterministic defaultSeconds
               (run defaultSeconds initialApp sessionStreaming)
               (run defaultSeconds initialApp (firstSession ++ secondSessionStreaming))
               0 1)
    as (q1 & q2 & sq1 & sq2 & _ & _ & _ & _ & Hq1 & Hs1 & Hq2 & Hs2 & Heq & _).
  1, 2: vm_compute; reflexivity.
  1, 2, 3: discriminate.
  1, 2: reflexivity.
  fold a in Hq1, Hs1. fold b in Hq2, Hs2.
  assert (Some 0%nat = Some q1) as [= <-] by (rewrite <- Hq1; vm_compute; reflexivity).
  assert (Some 1%nat = Some q2) as [= <-] by (rewrite <- Hq2; vm_compute; reflexivity).
  exists sq1, sq2. split; [exact Hs1|]. split; [exact Hs2|exact Heq].
Defined.

(** C10. A session that buffers at least one event and no error event and
    runs to the firing of its finalize timer ends with the summary titled
    "Analysis Complete: Code is Clean!" with no messages, and commits the
    empty error map. *)
Theorem clean_completion (secondsOf : Duration -> Q) (s : App) (genre : string)
    (evs : list CodeEvent) (fires : list Input) :
  isPlaying s = false →
  existsb (String.eqb genre) objectPrototypeKeys = false →
  evs ≠ [] → Forall (λ e, isError e = false) evs →
  forallb is_fire fires = true →
  let rid := length (requests s) in
  let sid := length (sessions s) in
  let tid := length (timers s) in
  let played := run secondsOf s (stream rid sid genre evs ++ fires) in
  let finished := step secondsOf played (TimerFire tid) in
  isPlaying played = true ∧
  (tm_pending <$> timers played !! tid) = Some true ∧
  summary finished
  = Some {| title := "Analysis Complete: Code is Clean!"; messages := [] |} ∧
  status finished = "Analysis Complete: Code is Clean!" ∧
  persistentErrors finished = ∅ ∧
  isPlaying finished = false.
Proof.
  intros Hp Hproto Hne Hclean Hfires rid sid tid played finished.
  destruct (palette_resolves genre Hproto) as [palette Hpal].
  destruct (run_start secondsOf s genre palette Hp Hpal)
    as (Hin & Hplaying & _ & _ & _ & _).
  fold rid sid in Hin, Hplaying.
  set (s2 := run secondsOf s [PlayClick; ClassifyOk rid genre]) in *.
  destruct (step_open secondsOf s s2 sid _ Hin eq_refl) as (Hin3 & Hp3 & _).
  set (s3 := step secondsOf s2 (WsOpen sid)) in *.
  set (k3 := send_socket _ _) in Hin3.
  destruct (run_messages secondsOf s evs s3 sid k3 Hin3 eq_refl) as (Hin4 & Hp4 & _).
  set (s4 := run secondsOf s3 (map (WsMessage sid) evs)) in *.
  destruct (buffer_all_spec evs k3) as (Hready & _ & Hbuf & Hdrafts).
  destruct (Hdrafts Hclean) as [Hmsgs Hdraft]. clear Hdrafts.
  set (k4 := buffer_all evs k3) in *.
  destruct Hin4 as (Hk4 & _ & Herr4 & (_ & _ & Htimers4 & _)).
  assert (Hopen4 : readyState k4 ≠ CLOSED) by (by rewrite Hready).
  assert (Hne4 : musicalEvents k4 ≠ []).
  { rewrite Hbuf. simpl. by destruct evs. }
  destruct (step_close_nonempty secondsOf s4 sid k4 Hk4 Hopen4 Hne4)
    as (_ & _ & _ & _ & Htimers5 & Hsess5 & _ & _ & Hp5 & _).
  set (s5 := step secondsOf s4 (WsClose sid)) in *.
  destruct (run_fire_frame secondsOf fires s5 Hfires) as (Hsess6 & Htimers6 & _ & _ & Hp6).
  assert (Hplayed : played = run secondsOf s5 fires).
  { subst played s5 s4 s3 s2. unfold stream.
    rewrite !run_app. reflexivity. }
  rewrite <- Hplayed in Hsess6, Htimers6, Hp6.
  assert (Htm : timers played !! tid
                = Some {| tm_session := sid; tm_title := final_title (errorMessages k4);
                          tm_delay := ((cumulativeTime
                                          (compile secondsOf (palette_scale k4)
                                             (musicalEvents k4)) + 2) * 1000)%Q;
                          tm_pending := true |}).
  { rewrite Htimers6, Htimers5, Htimers4. apply lookup_snoc. }
  assert (Hk6 : sessions played !! sid = Some (set_readyState CLOSED k4)).
  { rewrite Hsess6, Hsess5. by apply lookup_alter_Some. }
  destruct (step_timer secondsOf played tid _ _ Htm eq_refl Hk6)
    as (Herrs & Hsum & Hstatus & Hpf & _).
  fold finished in Herrs, Hsum, Hstatus, Hpf.
  simpl in Herrs, Hsum, Hstatus. rewrite Hmsgs in Hsum, Hstatus.
  rewrite Hdraft in Herrs.
  split; [by rewrite Hp6, Hp5, Hp4, Hp3|].
  split; [by rewrite Htm|].
  done.
Qed.

Lemma clean_completion_witness :
  let finished := run defaultSeconds initialApp
                    (stream 0 0 "JS-DOM" [ev_function; ev_if; ev_return]
                       ++ [SeqFire 0 0 0 (0, 0, 0, 0)%Q; TimerFire 0]) in
  summary finished
  = Some {| title := "Analysis Complete: Code is Clean!"; messages := [] |} ∧
  persistentErrors finished = ∅.
Proof.
  intros finished.
  destruct (clean_completion defaultSeconds initialApp "JS-DOM"
              [ev_function; ev_if; ev_return] [SeqFire 0 0 0 (0, 0, 0, 0)%Q])
    as (_ & _ & Hsum & _ & Herr & _).
  1, 2: vm_compute; reflexivity.
  1: discriminate.
  1: repeat constructor.
  1: reflexivity.
  vm_compute in Hsum, Herr. vm_compute.
  split; [exact Hsum|exact Herr].
Defined.

(** * Further properties of the compile loop *)

(** The schedule of a buffer is the beginning of the schedule of any longer
    buffer: what is compiled for the events received so far does not depend
    on the events that follow. *)
Theorem schedule_prefix_stable (secondsOf : Duration -> Q) (sc : list string)
    (evs more : list CodeEvent) :
  scheduledEvents (compile secondsOf sc evs)
  = take (length evs) (scheduledEvents (compile secondsOf sc (evs ++ more))).
Proof.
  rewrite <- (compile_take secondsOf sc (evs ++ more) (length evs)).
  by rewrite take_app_length.
Qed.

Lemma code_events_snoc evs e :
  code_events (evs ++ [e])
  = code_events evs ++ (if isError e then [] else [e]).
Proof.
  unfold code_events. rewrite filter_app, filter_cons, filter_nil.
  destruct (isError e); case_decide; try congruence; done.
Qed.

Lemma code_events_counter (secondsOf : Duration -> Q) sc evs :
  messageCounter (compile secondsOf sc (code_events evs))
  = messageCounter (compile secondsOf sc evs).
Proof.
  rewrite !compile_counter. unfold nonErrorIndex. rewrite !firstn_all.
  unfold code_events. f_equal. f_equal.
  induction evs as [|e evs IH]; [done|].
  rewrite !filter_cons. destruct (decide (isError e = false)) as [He|He].
  - rewrite filter_cons. rewrite decide_True by done. by rewrite IH.
  - done.
Qed.

Lemma tones_snoc ses se :
  tones (ses ++ [se])
  = tones ses ++ (if se_isError se then [] else [(note se, duration se)]).
Proof.
  unfold tones. rewrite filter_app, fmap_app, filter_cons, filter_nil.
  destruct (se_isError se); case_decide; try congruence; done.
Qed.

(** Error events do not disturb the melody: the notes and durations given to
    the code events are the same as if the error events had never been
    buffered. *)
Theorem errors_leave_tones (secondsOf : Duration -> Q) (sc : list string)
    (evs : list CodeEvent) :
  tones (scheduledEvents (compile secondsOf sc evs))
  = tones (scheduledEvents (compile secondsOf sc (code_events evs))).
Proof.
  induction evs as [|e evs IH] using rev_ind; [done|].
  rewrite code_events_snoc, compile_snoc, compile_event_scheduled, tones_snoc.
  cbn [scheduled_for se_isError note duration].
  destruct (isError e) eqn:He.
  - by rewrite !app_nil_r.
  - rewrite compile_snoc, compile_event_scheduled, tones_snoc, IH.
    cbn [scheduled_for se_isError note duration]. rewrite He.
    by rewrite code_events_counter.
Qed.

(** The time of an entry is the total length of the entries before it. *)
Lemma entry_time (secondsOf : Duration -> Q) sc evs i se :
  scheduledEvents (compile secondsOf sc evs) !! i = Some se →
  (time se
   == total_seconds secondsOf (take i (scheduledEvents (compile secondsOf sc evs))))%Q.
Proof.
  intros Hse.
  assert (is_Some (evs !! i)) as [e He].
  { apply lookup_lt_is_Some. rewrite <- (compile_length secondsOf sc).
    by eapply lookup_lt_Some. }
  rewrite (compile_lookup _ _ _ _ _ He) in Hse. injection Hse as <-.
  rewrite <- compile_take. simpl. apply compile_cumulative.
Qed.

(** The end of an entry is not later than the end of the schedule. *)
Lemma entry_end (secondsOf : Duration -> Q) sc evs se :
  (∀ d, 0 <= secondsOf d)%Q →
  se ∈ scheduledEvents (compile secondsOf sc evs) →
  (time se + secondsOf (duration se)
   <= total_seconds secondsOf (scheduledEvents (compile secondsOf sc evs)))%Q.
Proof.
  intros Hpos Hin. apply list_elem_of_lookup in Hin as [i Hi].
  rewrite (entry_time _ _ _ _ _ Hi).
  set (out := scheduledEvents (compile secondsOf sc evs)) in *.
  assert (Hsplit : (total_seconds secondsOf out
                    == total_seconds secondsOf (take i out)
                       + (secondsOf (duration se)
                          + total_seconds secondsOf (drop (S i) out)))%Q).
  { rewrite <- (take_drop_middle out i se Hi) at 1.
    by rewrite total_seconds_app. }
  pose proof (total_seconds_nonneg secondsOf (drop (S i) out) Hpos). lra.
Qed.

(** * Further properties of the session *)

(** When a stream closes with a buffer that is not empty, the finalize timer
    is armed for the total length of the compiled schedule plus two seconds,
    in milliseconds: never less than two seconds, and at least two seconds
    after the end of every entry. *)
Theorem finalize_after_schedule (secondsOf : Duration -> Q) (s : App)
    (sid : nat) (k : Session) :
  (∀ d, 0 <= secondsOf d)%Q →
  sessions s !! sid = Some k → readyState k ≠ CLOSED → musicalEvents k ≠ [] →
  let s' := step secondsOf s (WsClose sid) in
  ∃ tm sq,
    stopTimeoutRef s' = Some (length (timers s)) ∧
    timers s' !! length (timers s) = Some tm ∧ tm_pending tm = true ∧
    sequence s' = Some (length (sequences s)) ∧
    sequences s' !! length (sequences s) = Some sq ∧
    (tm_delay tm == (total_seconds secondsOf (seq_events sq) + 2) * 1000)%Q ∧
    (2000 <= tm_delay tm)%Q ∧
    ∀ se, se ∈ seq_events sq →
      ((time se + secondsOf (duration se) + 2) * 1000 <= tm_delay tm)%Q.
Proof.
  intros Hpos Hk Hopen Hne s'.
  destruct (step_close_nonempty secondsOf s sid k Hk Hopen Hne)
    as (Hq & Hsq & _ & Href & Htm & _).
  fold s' in Hq, Hsq, Href, Htm.
  do 2 eexists.
  split; [exact Href|]. split; [rewrite Htm; apply lookup_snoc|].
  split; [done|]. split; [exact Hq|].
  split; [rewrite Hsq; apply lookup_snoc|].
  cbn [tm_delay seq_events].
  pose proof (compile_cumulative secondsOf (palette_scale k) (musicalEvents k)) as Hcum.
  pose proof (total_seconds_nonneg secondsOf
    (scheduledEvents (compile secondsOf (palette_scale k) (musicalEvents k))) Hpos).
  split; [rewrite Hcum; reflexivity|].
  split; [lra|].
  intros se Hse.
  pose proof (entry_end secondsOf _ _ se Hpos Hse). lra.
Qed.

Lemma finalize_after_schedule_witness :
  let s' := step defaultSeconds (run defaultSeconds initialApp sessionStreaming)
              (WsClose 0) in
  ∃ tm, timers s' !! length (timers (run defaultSeconds initialApp sessionStreaming))
        = Some tm ∧ (2000 <= tm_delay tm)%Q.
Proof.
  intros s'.
  edestruct (finalize_after_schedule defaultSeconds
               (run defaultSeconds initialApp sessionStreaming) 0)
    as (tm & sq & _ & Htm & _ & _ & _ & _ & Hmin & _).
  - exact defaultSeconds_nonneg.
  - vm_compute. reflexivity.
  - discriminate.
  - discriminate.
  - exists tm. split; [exact Htm|exact Hmin].
Defined.

(** At the tempo the transport starts with, a list of entries lasts a whole
    number of eighths of a second, between one and four per entry. *)
Lemma default_total_eighths (ses : list ScheduledEvent) :
  ∃ n : Z, Z.of_nat (length ses) <= n <= 4 * Z.of_nat (length ses) ∧
           (total_seconds defaultSeconds ses == inject_Z n * (1 # 8))%Q.
Proof.
  induction ses as [|se ses (n & Hn & IH)].
  - exists 0. split; [simpl; lia|reflexivity].
  - assert (∃ m : Z, 1 <= m <= 4 ∧
             (defaultSeconds (duration se) == inject_Z m * (1 # 8))%Q)
      as (m & Hm & Hd).
    { destruct (duration se); [exists 4|exists 2|exists 1]; split; try lia;
        vm_compute; reflexivity. }
    exists (m + n). split; [simpl length; lia|].
    simpl. rewrite IH, Hd, inject_Z_plus. ring.
Qed.

(** At the tempo the transport starts with, every entry starts on a whole
    number of eighths of a second, and a schedule of [n] entries lasts
    between [n/8] and [n/2] seconds. *)
Theorem default_tempo_schedule (sc : list string) (evs : list CodeEvent) :
  let out := scheduledEvents (compile defaultSeconds sc evs) in
  (∀ se, se ∈ out → ∃ n : Z, 0 <= n ∧ (time se == inject_Z n * (1 # 8))%Q) ∧
  (inject_Z (Z.of_nat (length evs)) * (1 # 8)
   <= total_seconds defaultSeconds out)%Q ∧
  (total_seconds defaultSeconds out
   <= inject_Z (Z.of_nat (length evs)) * (1 # 2))%Q.
Proof.
  intros out. split.
  { intros se Hin. apply list_elem_of_lookup in Hin as [i Hi].
    destruct (default_total_eighths (take i out)) as (n & Hn & Heq).
    exists n. split; [lia|]. by rewrite (entry_time _ _ _ _ _ Hi). }
  destruct (default_total_eighths out) as (n & [Hlo Hhi] & ->).
  unfold out in Hlo, Hhi. rewrite compile_length in Hlo, Hhi.
  rewrite Zle_Qle in Hlo, Hhi. rewrite inject_Z_mult in Hhi.
  change (inject_Z 4) with 4%Q in Hhi.
  split; lra.
Qed.

Lemma default_tempo_schedule_witness :
  ∃ n : Z, 0 <= n ∧
    (time (scheduled_for defaultScale
             (compile defaultSeconds defaultScale [ev_function; ev_syntax]) ev_return)
     == inject_Z n * (1 # 8))%Q.
Proof.
  destruct (default_tempo_schedule defaultScale [ev_function; ev_syntax; ev_return])
    as (Hgrid & _).
  apply Hgrid. apply list_elem_of_lookup. exists 2%nat. vm_compute. reflexivity.
Defined.

(** ** Teardown *)

(** Two states with the same cells, references and stores are equal. *)
Lemma App_ext (a b : App) :
  code a = code b → isPlaying a = isPlaying b → status a = status b →
  visualNodes a = visualNodes b → cameraEffect a = cameraEffect b →
  activePalette a = activePalette b → highlightedLines a = highlightedLines b →
  summary a = summary b → persistentErrors a = persistentErrors b →
  ws a = ws b → synth a = synth b → sequence a = sequence b →
  stopTimeoutRef a = stopTimeoutRef b → requests a = requests b →
  sessions a = sessions b → synths a = synths b → sequences a = sequences b →
  timers a = timers b → transport a = transport b → a = b.
Proof. destruct a, b; simpl; intros; by subst. Qed.

Lemma stopMusic_view fs s :
  code (stopMusic fs s) = code s ∧
  visualNodes (stopMusic fs s) = visualNodes s ∧
  cameraEffect (stopMusic fs s) = cameraEffect s ∧
  activePalette (stopMusic fs s) = activePalette s ∧
  highlightedLines (stopMusic fs s) = highlightedLines s ∧
  ws (stopMusic fs s) = ws s ∧ sequence (stopMusic fs s) = sequence s ∧
  stopTimeoutRef (stopMusic fs s) = stopTimeoutRef s ∧
  requests (stopMusic fs s) = requests s.
Proof. ops. Qed.

Lemma alter_twice {A} (f : A → A) (l : list A) (i : nat) :
  (∀ x, f (f x) = f x) → alter f i (alter f i l) = alter f i l.
Proof.
  intros Hf. rewrite list_alter_alter_eq. apply list_alter_ext; [|done].
  intros x _. apply Hf.
Qed.

(** After a teardown the current socket is not open. *)
Lemma stopMusic_not_open fs s cur k :
  ws s = Some cur → sessions (stopMusic fs s) !! cur = Some k →
  readyState k ≠ OPEN.
Proof.
  intros Hws. rewrite stopMusic_sessions, Hws.
  destruct (sessions s !! cur) as [k0|] eqn:Hk0.
  - destruct (decide (readyState k0 = OPEN)) as [Ho|Hn].
    + rewrite (lookup_alter_Some _ _ _ _ Hk0). intros [= <-].
      unfold close_socket. by rewrite Ho.
    + rewrite Hk0. by intros [= <-].
  - by rewrite Hk0.
Qed.

Lemma stopMusic_resources_twice fs1 fs2 s :
  timers (stopMusic fs2 (stopMusic fs1 s)) = timers (stopMusic fs1 s) ∧
  sequences (stopMusic fs2 (stopMusic fs1 s)) = sequences (stopMusic fs1 s) ∧
  sessions (stopMusic fs2 (stopMusic fs1 s)) = sessions (stopMusic fs1 s).
Proof.
  destruct (stopMusic_view fs1 s) as (_ & _ & _ & _ & _ & Hws & Hseq & Href & _).
  split; [|split].
  - rewrite (stopMusic_timers fs2), Href, stopMusic_timers.
    destruct (stopTimeoutRef s); [|done]. by apply alter_twice.
  - rewrite (stopMusic_sequences fs2), Hseq, stopMusic_sequences.
    destruct (sequence s); [|done]. by apply alter_twice.
  - rewrite (stopMusic_sessions fs2), Hws.
    destruct (ws s) as [cur|] eqn:Hcur; [|done].
    destruct (sessions (stopMusic fs1 s) !! cur) as [k|] eqn:Hk; [|done].
    destruct (decide (readyState k = OPEN)) as [Ho|]; [|done].
    by destruct (stopMusic_not_open fs1 s cur k Hcur Hk).
Qed.

(** Teardown is idempotent: running [stopMusic] a second time with the same
    summary changes nothing, and a second run with any other argument
    changes only the summary and the status line; timers, transport,
    sequences, sockets and voices stay as the first run left them. *)
Theorem stopMusic_idempotent (fs1 fs2 : option Summary) (s : App) :
  stopMusic fs1 (stopMusic fs1 s) = stopMusic fs1 s ∧
  timers (stopMusic fs2 (stopMusic fs1 s)) = timers (stopMusic fs1 s) ∧
  transport (stopMusic fs2 (stopMusic fs1 s)) = transport (stopMusic fs1 s) ∧
  sequences (stopMusic fs2 (stopMusic fs1 s)) = sequences (stopMusic fs1 s) ∧
  sessions (stopMusic fs2 (stopMusic fs1 s)) = sessions (stopMusic fs1 s) ∧
  synths (stopMusic fs2 (stopMusic fs1 s)) = synths (stopMusic fs1 s) ∧
  isPlaying (stopMusic fs2 (stopMusic fs1 s)) = isPlaying (stopMusic fs1 s) ∧
  persistentErrors (stopMusic fs2 (stopMusic fs1 s))
  = persistentErrors (stopMusic fs1 s).
Proof.
  destruct (stopMusic_resources_twice fs1 fs2 s) as (Ht & Hq & Hk).
  split.
  { destruct (stopMusic_resources_twice fs1 fs1 s) as (Ht1 & Hq1 & Hk1).
    destruct (stopMusic_view fs1 (stopMusic fs1 s))
      as (?&?&?&?&?&?&?&?&?).
    destruct (stopMusic_synths fs1 (stopMusic fs1 s)) as [? ?].
    apply App_ext; try done.
    - by rewrite !stopMusic_isPlaying.
    - destruct fs1 as [f|].
      + by destruct (stopMusic_summary f (stopMusic (Some f) s)) as (_ & -> & _),
          (stopMusic_summary f s) as (_ & -> & _).
      + by destruct (stopMusic_summary {| title := ""; messages := [] |}
                       (stopMusic None s)) as (_ & _ & _ & ->),
          (stopMusic_summary {| title := ""; messages := [] |} s)
            as (_ & _ & _ & ->).
    - destruct fs1 as [f|].
      + by destruct (stopMusic_summary f (stopMusic (Some f) s)) as (-> & _),
          (stopMusic_summary f s) as (-> & _).
      + by destruct (stopMusic_summary {| title := ""; messages := [] |}
                       (stopMusic None s)) as (_ & _ & -> & _).
    - by rewrite !stopMusic_persistentErrors.
    - by rewrite !stopMusic_transport. }
  do 3 (split; [done || by rewrite !stopMusic_transport|]).
  split; [done|].
  split; [by destruct (stopMusic_synths fs2 (stopMusic fs1 s))|].
  split; [by rewrite !stopMusic_isPlaying|].
  by rewrite !stopMusic_persistentErrors.
Qed.

(** ** What a stream leaves in the buffers *)

Lemma last_error_kind_cons e evs n :
  last_error_kind (e :: evs) n
  = match last_error_kind evs n with
    | Some t => Some t
    | None => if decide (isError e = true ∧ startLine e = n) then Some (type e)
              else None
    end.
Proof.
  unfold last_error_kind. rewrite filter_cons.
  destruct (decide (isError e = true ∧ startLine e = n)); [|by destruct (last _)].
  rewrite last_cons. by destruct (last _).
Qed.

(** The three buffers after the messages [evs]: the events in arrival
    order, one formatted message per error event in arrival order, and a
    draft that maps a line to the kind of the last error that starts on
    it. *)
Lemma buffer_all_contents evs : ∀ k,
  musicalEvents (buffer_all evs k) = musicalEvents k ++ evs ∧
  errorMessages (buffer_all evs k)
  = errorMessages k ++ (format_error <$> error_events evs) ∧
  (∀ n, collectedErrors (buffer_all evs k) !! n
        = match last_error_kind evs n with
          | Some t => Some t
          | None => collectedErrors k !! n
          end) ∧
  (size (collectedErrors (buffer_all evs k))
   ≤ size (collectedErrors k) + length (error_events evs))%nat.
Proof.
  induction evs as [|e evs IH]; intros k.
  - simpl. rewrite !app_nil_r. repeat split; try done. lia.
  - unfold buffer_all. simpl. fold (buffer_all evs (buffer_event e k)).
    destruct (IH (buffer_event e k)) as (-> & -> & Hdraft & Hsize).
    unfold error_events in *. rewrite filter_cons. simpl.
    split; [by rewrite <- app_assoc|].
    split.
    { destruct (isError e) eqn:He.
      - rewrite decide_True by done. by rewrite fmap_cons, <- app_assoc.
      - by rewrite decide_False. }
    split.
    { intros n. rewrite Hdraft, last_error_kind_cons.
      destruct (last_error_kind evs n); [done|]. simpl.
      destruct (isError e) eqn:He.
      - destruct (decide (startLine e = n)) as [<-|Hne].
        + rewrite decide_True by done. apply lookup_insert_eq.
        + rewrite decide_False by tauto. by apply lookup_insert_ne.
      - rewrite decide_False; [done|]. by intros [? _]. }
    destruct (isError e) eqn:He; simpl in Hsize.
    + rewrite decide_True by done. simpl length.
      pose proof (map_size_insert (startLine e) (type e) (collectedErrors k)) as Hins.
      rewrite He in Hsize.
      destruct (collectedErrors k !! startLine e); unfold Datatypes.id in Hins; lia.
    + rewrite He in Hsize. by rewrite decide_False.
Qed.

(** Messages on an open socket are buffered one by one. *)
Lemma run_messages_buffer (secondsOf : Duration -> Q) evs : ∀ s sid k,
  sessions s !! sid = Some k → readyState k = OPEN →
  sessions (run secondsOf s (map (WsMessage sid) evs)) !! sid
  = Some (buffer_all evs k).
Proof.
  induction evs as [|e evs IH]; intros s sid k Hk Hopen; [done|].
  simpl map. rewrite run_cons. apply IH; [|done].
  unfold step. rewrite Hk. destruct (decide (readyState k = OPEN)); [|done].
  unfold ws_onmessage. fields. by apply lookup_alter_Some.
Qed.

(** While a socket is open, each message is appended to its buffer; each
    error event adds one line "Line n: [kind] message" to the messages, in
    arrival order, and overwrites the draft entry of its start line, so the
    draft maps a line to the kind of the last error that starts on it and
    holds no more entries than there are messages. *)
Theorem onmessage_buffers (secondsOf : Duration -> Q) (s : App) (sid : nat)
    (k : Session) (evs : list CodeEvent) :
  sessions s !! sid = Some k → readyState k = OPEN →
  ∃ k', sessions (run secondsOf s (map (WsMessage sid) evs)) !! sid = Some k' ∧
    readyState k' = OPEN ∧
    musicalEvents k' = musicalEvents k ++ evs ∧
    errorMessages k' = errorMessages k ++ (format_error <$> error_events evs) ∧
    (∀ n, collectedErrors k' !! n
          = match last_error_kind evs n with
            | Some t => Some t
            | None => collectedErrors k !! n
            end) ∧
    (size (collectedErrors k')
     ≤ size (collectedErrors k) + length (error_events evs))%nat.
Proof.
  intros Hk Hopen. exists (buffer_all evs k).
  split; [by apply run_messages_buffer|].
  destruct (buffer_all_spec evs k) as (-> & _).
  split; [done|]. apply buffer_all_contents.
Qed.

Lemma onmessage_buffers_witness :
  ∃ k', sessions (run defaultSeconds
                    (run defaultSeconds initialApp
                       [PlayClick; ClassifyOk 0 "default"; WsOpen 0])
                    (map (WsMessage 0) [ev_syntax; ev_if; ev_syntax'])) !! 0%nat
        = Some k' ∧
        errorMessages k'
        = ["Line 7: [syntax_error] missing )";
           "Line 30: [syntax_error] unexpected token"].
Proof.
  edestruct (onmessage_buffers defaultSeconds
               (run defaultSeconds initialApp
                  [PlayClick; ClassifyOk 0 "default"; WsOpen 0])
               0) with (evs := [ev_syntax; ev_if; ev_syntax'])
    as (k' & Hk' & _ & _ & Hmsgs & _).
  - vm_compute. reflexivity.
  - reflexivity.
  - exists k'. split; [exact Hk'|]. rewrite Hmsgs. vm_compute. reflexivity.
Defined.

(** ** The outcome of a completed session *)

(** The state of a session that has streamed [evs], closed and played:
    its socket is closed with the buffers the messages left, and its
    finalize timer is pending. *)
Lemma session_played (secondsOf : Duration -> Q) (s : App) (genre : string)
    (evs : list CodeEvent) (fires : list Input) :
  isPlaying s = false →
  existsb (String.eqb genre) objectPrototypeKeys = false →
  evs ≠ [] → forallb is_fire fires = true →
  let rid := length (requests s) in
  let sid := length (sessions s) in
  let tid := length (timers s) in
  let played := run secondsOf s (stream rid sid genre evs ++ fires) in
  ∃ palette k tm,
    own_palette musicPalettes (paletteKey genre) = Some palette ∧
    palette_scale k = scale palette ∧ musicalEvents k = evs ∧
    errorMessages k = format_error <$> error_events evs ∧
    (∀ n, collectedErrors k !! n = last_error_kind evs n) ∧
    (size (collectedErrors k) ≤ length (error_events evs))%nat ∧
    readyState k = CLOSED ∧
    sessions played !! sid = Some k ∧
    timers played !! tid = Some tm ∧ tm_pending tm = true ∧
    tm_session tm = sid ∧ tm_title tm = final_title (errorMessages k) ∧
    isPlaying played = true.
Proof.
  intros Hp Hproto Hne Hfires rid sid tid played.
  destruct (palette_resolves genre Hproto) as [palette Hpal].
  destruct (run_start secondsOf s genre palette Hp Hpal)
    as (Hin & Hplaying & _ & _ & _ & _).
  fold rid sid in Hin, Hplaying.
  set (s2 := run secondsOf s [PlayClick; ClassifyOk rid genre]) in *.
  destruct (step_open secondsOf s s2 sid _ Hin eq_refl) as (Hin3 & Hp3 & _).
  set (s3 := step secondsOf s2 (WsOpen sid)) in *.
  set (k3 := send_socket _ _) in Hin3.
  destruct (run_messages secondsOf s evs s3 sid k3 Hin3 eq_refl) as (Hin4 & Hp4 & _).
  set (s4 := run secondsOf s3 (map (WsMessage sid) evs)) in *.
  destruct (buffer_all_spec evs k3) as (Hready & Hscale & _ & _).
  destruct (buffer_all_contents evs k3) as (Hbuf & Hmsgs & Hdraft & Hsize).
  set (k4 := buffer_all evs k3) in *.
  destruct Hin4 as (Hk4 & _ & Herr4 & (_ & _ & Htimers4 & _)).
  assert (Hopen4 : readyState k4 ≠ CLOSED) by (by rewrite Hready).
  assert (Hne4 : musicalEvents k4 ≠ []) by (by rewrite Hbuf).
  destruct (step_close_nonempty secondsOf s4 sid k4 Hk4 Hopen4 Hne4)
    as (_ & _ & _ & _ & Htimers5 & Hsess5 & _ & _ & Hp5 & _).
  set (s5 := step secondsOf s4 (WsClose sid)) in *.
  destruct (run_fire_frame secondsOf fires s5 Hfires)
    as (Hsess6 & Htimers6 & _ & _ & Hp6).
  assert (Hplayed : played = run secondsOf s5 fires).
  { subst played s5 s4 s3 s2. unfold stream. rewrite !run_app. reflexivity. }
  rewrite <- Hplayed in Hsess6, Htimers6, Hp6.
  exists palette, (set_readyState CLOSED k4). eexists.
  split; [done|]. split; [simpl; by rewrite Hscale|].
  split; [simpl; by rewrite Hbuf|].
  split; [simpl; by rewrite Hmsgs|].
  split; [intros n; simpl; rewrite Hdraft; by destruct (last_error_kind evs n)|].
  split.
  { assert (collectedErrors k3 = ∅) as Hempty by done.
    rewrite Hempty, map_size_empty in Hsize. simpl. lia. }
  split; [done|].
  split; [rewrite Hsess6, Hsess5; by apply lookup_alter_Some|].
  split; [rewrite Htimers6, Htimers5, Htimers4; apply lookup_snoc|].
  do 3 (split; [done|]).
  by rewrite Hp6, Hp5, Hp4, Hp3.
Qed.

Lemma last_error_kind_none evs :
  (∀ n, last_error_kind evs n = None) ↔ error_events evs = [].
Proof.
  unfold last_error_kind, error_events. split.
  - intros Hnone. induction evs as [|e evs IH]; [done|].
    rewrite filter_cons. destruct (decide (isError e = true)) as [He|He].
    + specialize (Hnone (startLine e)). rewrite filter_cons in Hnone.
      rewrite decide_True in Hnone by done. rewrite last_cons in Hnone.
      by destruct (last _).
    + apply IH. intros n. specialize (Hnone n). rewrite filter_cons in Hnone.
      rewrite decide_False in Hnone; [done|]. by intros [? _].
  - intros Hnil n. induction evs as [|e evs IH]; [done|].
    rewrite filter_cons in Hnil |- *.
    destruct (decide (isError e = true)) as [He|He]; [done|].
    rewrite decide_False; [by apply IH|]. by intros [? _].
Qed.

(** A session that buffers at least one event, plays and fires its finalize
    timer ends with one message per error event, in arrival order; its title
    is "Analysis Complete: Issues Found" when there is an error event and
    "Analysis Complete: Code is Clean!" otherwise; the committed map sends a
    line to the kind of the last error that starts on it, has no more
    entries than there are messages, and is empty exactly when the title is
    the clean one. *)
Theorem completion_outcome (secondsOf : Duration -> Q) (s : App)
    (genre : string) (evs : list CodeEvent) (fires : list Input) :
  isPlaying s = false →
  existsb (String.eqb genre) objectPrototypeKeys = false →
  evs ≠ [] → forallb is_fire fires = true →
  let rid := length (requests s) in
  let sid := length (sessions s) in
  let tid := length (timers s) in
  let finished :=
    step secondsOf (run secondsOf s (stream rid sid genre evs ++ fires))
      (TimerFire tid) in
  summary finished
  = Some {| title := if decide (error_events evs = [])
                     then "Analysis Complete: Code is Clean!"
                     else "Analysis Complete: Issues Found";
            messages := format_error <$> error_events evs |} ∧
  (∀ n, persistentErrors finished !! n = last_error_kind evs n) ∧
  (size (persistentErrors finished) ≤ length (error_events evs))%nat ∧
  (persistentErrors finished = ∅ ↔ error_events evs = []) ∧
  isPlaying finished = false ∧
  transport finished = {| running := false; scheduled := [] |}.
Proof.
  intros Hp Hproto Hne Hfires rid sid tid finished.
  destruct (session_played secondsOf s genre evs fires Hp Hproto Hne Hfires)
    as (palette & k & tm & _ & _ & _ & Hmsgs & Hdraft & Hsize & _ & Hk & Htm
        & Hpend & Hsess & Htitle & _).
  cbv zeta in Hk, Htm, Hsess. fold rid sid tid in Hk, Htm, Hsess.
  assert (Hk' : sessions (run secondsOf s (stream rid sid genre evs ++ fires))
                !! tm_session tm = Some k) by (by rewrite Hsess).
  destruct (step_timer secondsOf _ tid tm k Htm Hpend Hk')
    as (Herrs & Hsum & _ & Hpf & Htr).
  fold finished in Herrs, Hsum, Hpf, Htr.
  split.
  { rewrite Hsum, Htitle, Hmsgs. f_equal. f_equal.
    unfold final_title. rewrite length_fmap.
    destruct (error_events evs); by simpl. }
  rewrite Herrs. split; [done|]. split; [done|].
  split; [|done].
  rewrite <- last_error_kind_none. split.
  - intros Hempty n. by rewrite <- Hdraft, Hempty.
  - intros Hnone. apply map_eq. intros n. by rewrite Hdraft, Hnone.
Qed.

Lemma completion_outcome_witness :
  let finished :=
    step defaultSeconds
      (run defaultSeconds initialApp
         (stream (length (requests initialApp)) (length (sessions initialApp))
            "Go-Systems" [ev_function; ev_syntax; ev_syntax'] ++ []))
      (TimerFire (length (timers initialApp))) in
  persistentErrors finished !! 7 = Some "syntax_error" ∧
  persistentErrors finished !! 8 = None.
Proof.
  intros finished.
  destruct (completion_outcome defaultSeconds initialApp "Go-Systems"
              [ev_function; ev_syntax; ev_syntax'] [])
    as (_ & Hmap & _); [reflexivity|reflexivity|discriminate|reflexivity|].
  fold finished in Hmap. split; rewrite Hmap; reflexivity.
Defined.

(** ** Choosing the palette *)

(** Every palette of the table has a scale of eight different pitches. *)
Lemma own_palette_scale key palette :
  own_palette musicPalettes key = Some palette →
  length (scale palette) = 8%nat ∧ NoDup (scale palette).
Proof.
  unfold musicPalettes. cbn [own_palette].
  repeat (destruct (String.eqb _ key);
          [intros [= <-]; split;
             [reflexivity|apply (bool_decide_unpack _); vm_compute; reflexivity]|]).
  discriminate.
Qed.

(** A genre that names an inherited member of the table is not a key of the
    table, yet the [in] test accepts it. *)
Lemma inherited_key genre :
  existsb (String.eqb genre) objectPrototypeKeys = true →
  own_palette musicPalettes genre = None ∧ paletteKey genre = genre.
Proof.
  intros Hin. apply existsb_exists in Hin as (x & Hx & Heq).
  apply String.eqb_eq in Heq as ->.
  unfold objectPrototypeKeys in Hx. simpl in Hx.
  repeat (destruct Hx as [<-|Hx]; [split; vm_compute; reflexivity|]).
  done.
Qed.

(** The state after the classification of a genre that resolves to a
    palette: a new voice of the palette's class and a new connecting
    socket. *)
Lemma run_start_voice (secondsOf : Duration -> Q) s genre palette :
  isPlaying s = false →
  own_palette musicPalettes (paletteKey genre) = Some palette →
  let s2 := run secondsOf s [PlayClick; ClassifyOk (length (requests s)) genre] in
  synth s2 = Some (length (synths s)) ∧
  synths s2 !! length (synths s)
  = Some {| voice := synthClass palette; sy_disposed := false; triggered := [] |} ∧
  status s2 = "2/3: Analyzing code structure..." ∧
  (∀ y v, synth s = Some y → synths s !! y = Some v →
          synths s2 !! y = Some (dispose_synth v)).
Proof.
  intros Hp Hpal s2. subst s2. rewrite !run_cons, run_nil.
  change (step secondsOf s PlayClick) with (handlePlay s).
  unfold handlePlay. rewrite Hp.
  unfold step. fields. rewrite lookup_snoc. cbn [rq_settled rq_code].
  unfold handlePlay_classified. fold (paletteKey genre). rewrite Hpal.
  unfold new_session, new_synth, dispose_current_synth. fields.
  destruct (synth s) as [y0|] eqn:Hy0; fields; rewrite ?length_alter.
  - split; [done|]. split.
    { rewrite lookup_app_r by (by rewrite length_alter).
      by rewrite length_alter, Nat.sub_diag. }
    split; [done|]. intros y v [= <-] Hv.
    rewrite lookup_app_l by (rewrite length_alter; by eapply lookup_lt_Some).
    by apply lookup_alter_Some.
  - split; [done|]. split; [apply lookup_snoc|]. done.
Qed.

(** A genre the table knows selects its own palette, and any other genre
    that is not an inherited member selects the default palette: the
    palette's name is shown, a voice of its class is created after the
    previous voice was disposed, and a socket starts connecting with the
    palette's scale of eight pitches and the text the request was made
    for. *)
Theorem palette_resolution (secondsOf : Duration -> Q) (s : App) (genre : string) :
  isPlaying s = false →
  existsb (String.eqb genre) objectPrototypeKeys = false →
  let s2 := run secondsOf s [PlayClick; ClassifyOk (length (requests s)) genre] in
  ∃ palette k v,
    (own_palette musicPalettes genre = Some palette ∧ activePalette s2 = genre
     ∨ own_palette musicPalettes genre = None ∧ activePalette s2 = "default"
       ∧ own_palette musicPalettes "default" = Some palette) ∧
    ws s2 = Some (length (sessions s)) ∧
    sessions s2 !! length (sessions s) = Some k ∧
    readyState k = CONNECTING ∧ captured_code k = code s ∧
    palette_scale k = scale palette ∧ musicalEvents k = [] ∧
    length (scale palette) = 8%nat ∧
    synth s2 = Some (length (synths s)) ∧
    synths s2 !! length (synths s) = Some v ∧
    voice v = synthClass palette ∧ sy_disposed v = false ∧
    isPlaying s2 = true.
Proof.
  intros Hp Hproto s2.
  destruct (palette_resolves genre Hproto) as [palette Hpal].
  destruct (run_start secondsOf s genre palette Hp Hpal)
    as ((Hk & Hws & _) & Hplaying & _ & _ & _ & Hactive).
  destruct (run_start_voice secondsOf s genre palette Hp Hpal)
    as (Hsynth & Hvoice & _).
  fold s2 in Hk, Hws, Hplaying, Hactive, Hsynth, Hvoice.
  destruct (own_palette_scale _ _ Hpal) as [Hlen _].
  do 3 eexists. split; [|repeat split; try done].
  rewrite Hactive. unfold paletteKey, key_in_musicPalettes in Hpal |- *.
  destruct (own_palette musicPalettes genre) as [p|] eqn:Hown.
  - left. split; [congruence|done].
  - right. rewrite Hproto in Hpal |- *. done.
Qed.

Lemma palette_resolution_witness :
  let s2 := run defaultSeconds initialApp
              [PlayClick; ClassifyOk (length (requests initialApp)) "Rust-Unsafe"] in
  activePalette s2 = "default" ∧
  ∃ k, sessions s2 !! length (sessions initialApp) = Some k ∧
       palette_scale k = defaultScale.
Proof.
  intros s2.
  destruct (palette_resolution defaultSeconds initialApp "Rust-Unsafe")
    as (palette & k & v & [[Hown _]|(_ & Hact & Hdef)] & _ & Hk & _ & _ & Hsc & _);
    [reflexivity|reflexivity|discriminate Hown|].
  fold s2 in Hact, Hk. split; [exact Hact|].
  exists k. split; [exact Hk|]. rewrite Hsc.
  injection Hdef as <-. reflexivity.
Defined.

(** A genre that names an inherited member of the palette table passes the
    [in] test but has no palette: the previous voice is disposed, creating
    the new voice throws, and the session ends in the [catch] block with the
    "Connection Error" summary of the backend; no voice and no socket is
    created and the genre is left displayed as the palette name. *)
Theorem inherited_genre_fails (secondsOf : Duration -> Q) (s : App) (genre : string) :
  isPlaying s = false →
  existsb (String.eqb genre) objectPrototypeKeys = true →
  let s2 := run secondsOf s [PlayClick; ClassifyOk (length (requests s)) genre] in
  summary s2 = Some backendErrorSummary ∧ status s2 = "Connection Error" ∧
  isPlaying s2 = false ∧ activePalette s2 = genre ∧
  length (sessions s2) = length (sessions s) ∧ ws s2 = ws s ∧
  length (synths s2) = length (synths s) ∧ synth s2 = synth s ∧
  (∀ y v, synth s = Some y → synths s !! y = Some v →
          synths s2 !! y = Some (dispose_synth v)) ∧
  persistentErrors s2 = ∅.
Proof.
  intros Hp Hproto s2. destruct (inherited_key genre Hproto) as [Hown Hkey].
  subst s2. rewrite !run_cons, run_nil.
  change (step secondsOf s PlayClick) with (handlePlay s).
  unfold handlePlay. rewrite Hp.
  unfold step. fields. rewrite lookup_snoc. cbn [rq_settled rq_code].
  unfold handlePlay_classified. fold (paletteKey genre). rewrite Hkey, Hown.
  unfold handlePlay_catch.
  set (s1 := dispose_current_synth _).
  destruct (stopMusic_summary backendErrorSummary s1) as (-> & -> & _).
  rewrite stopMusic_isPlaying, stopMusic_persistentErrors.
  destruct (stopMusic_creates_nothing (Some backendErrorSummary) s1)
    as (_ & _ & _ & -> & _).
  destruct (stopMusic_synths (Some backendErrorSummary) s1) as [-> ->].
  destruct (stopMusic_view (Some backendErrorSummary) s1)
    as (_ & _ & _ & -> & _ & -> & _).
  subst s1. unfold dispose_current_synth. fields.
  destruct (synth s) as [y0|] eqn:Hy0; fields; rewrite ?length_alter;
    repeat split; try done.
  intros y v [= <-] Hv. by apply lookup_alter_Some.
Qed.

Lemma inherited_genre_fails_witness :
  let s2 := run defaultSeconds initialApp
              [PlayClick; ClassifyOk (length (requests initialApp)) "constructor"] in
  summary s2 = Some backendErrorSummary ∧ length (sessions s2) = 0%nat.
Proof.
  intros s2.
  destruct (inherited_genre_fails defaultSeconds initialApp "constructor")
    as (Hsum & _ & _ & _ & Hlen & _); [reflexivity|reflexivity|].
  split; [exact Hsum|exact Hlen].
Defined.

(** ** Pitches that reach the synth *)

Lemma mod_shift_3 (i len : Z) :
  0 < len → (i + 3) mod len = i mod len → 3 mod len = 0.
Proof.
  intros Hlen Heq.
  replace 3 with ((i + 3) - i) at 1 by lia.
  rewrite Zminus_mod, Heq, Z.sub_diag. by apply Z.mod_0_l, Z.neq_sym, Z.lt_neq.
Qed.

(** On a scale that is not empty every compiled pitch is a pitch name; when
    the scale has no repeated pitch and its length does not divide 3, the
    two pitches of a chord differ. *)
Lemma compile_well_pitched (secondsOf : Duration -> Q) (sc : list string)
    (evs : list CodeEvent) :
  sc ≠ [] → NoDup sc → 3 mod Z.of_nat (length sc) ≠ 0 →
  Forall well_pitched (scheduledEvents (compile secondsOf sc evs)).
Proof.
  intros Hne Hdup H3. apply Forall_lookup. intros i se Hse.
  assert (is_Some (evs !! i)) as [e He].
  { apply lookup_lt_is_Some. rewrite <- (compile_length secondsOf sc).
    by eapply lookup_lt_Some. }
  rewrite (compile_lookup _ _ _ _ _ He) in Hse. injection Hse as <-.
  unfold well_pitched, scheduled_for. cbn [note].
  destruct (isError e).
  - unfold error_note.
    repeat (destruct (String.eqb (type e) _); simpl;
            [split; [repeat constructor; eauto
                    |apply (bool_decide_unpack _); vm_compute; reflexivity]|]).
    simpl. split; [repeat constructor; eauto|apply NoDup_singleton].
  - unfold code_note.
    set (idx := Z.abs (startLine e + messageCounter _)).
    assert (0 <= idx) as Hidx by apply Z.abs_nonneg.
    assert (0 < Z.of_nat (length sc)) as Hlen by (destruct sc; [done|simpl; lia]).
    rewrite !scale_at_mod by (done || lia).
    destruct (scale_at_is_Some sc idx Hne Hidx) as [p Hp].
    destruct (scale_at_is_Some sc (idx + 3) Hne ltac:(lia)) as [p3 Hp3].
    destruct (is_declaration (type e)); simpl; rewrite ?Hp, ?Hp3.
    + split; [repeat constructor; eauto|].
      apply NoDup_cons. split; [|apply NoDup_singleton].
      rewrite list_elem_of_singleton. intros [= <-].
      pose proof (NoDup_lookup sc _ _ p Hdup Hp Hp3) as Heq.
      apply H3, (mod_shift_3 idx); [done|].
      pose proof (Z.mod_pos_bound idx _ Hlen).
      pose proof (Z.mod_pos_bound (idx + 3) _ Hlen). lia.
    + split; [repeat constructor; eauto|apply NoDup_singleton].
Qed.

Lemma table_scale_well (secondsOf : Duration -> Q) sc evs :
  table_scale sc →
  Forall well_pitched (scheduledEvents (compile secondsOf sc evs)).
Proof.
  intros (key & palette & Hown & ->).
  destruct (own_palette_scale _ _ Hown) as [Hlen Hdup].
  apply compile_well_pitched; [|done|by rewrite Hlen].
  intros Hnil. by rewrite Hnil in Hlen.
Qed.

(** ** The life of a socket *)

Lemma evolves_refl k : evolves k k.
Proof. unfold evolves. repeat split; done. Qed.

Lemma evolves_trans k1 k2 k3 : evolves k1 k2 → evolves k2 k3 → evolves k1 k3.
Proof.
  intros (Hr1 & Hc1 & Hs1 & He1 & Hm1 & Hn1 & Hf1) (Hr2 & Hc2 & Hs2 & He2 & Hm2 & Hn2 & Hf2).
  unfold evolves. split; [lia|]. split; [congruence|]. split; [congruence|].
  split; [by etrans|]. split; [by etrans|]. split; [by etrans|].
  intros Hrank. destruct (Hf1 Hrank) as (E1 & E2 & E3 & E4).
  destruct Hf2 as (F1 & F2 & F3 & F4); [lia|].
  repeat split; congruence.
Qed.

Lemma evolves_close k : evolves k (close_socket k).
Proof.
  unfold evolves, close_socket.
  destruct (readyState k) eqn:Hr; simpl; rewrite ?Hr; simpl;
    repeat split; try done; try lia.
Qed.

Lemma evolves_open k : readyState k = CONNECTING → evolves k (set_readyState OPEN k).
Proof.
  intros H. unfold evolves. simpl. rewrite H. simpl.
  repeat split; try done; try lia.
Qed.

Lemma evolves_closed k : evolves k (set_readyState CLOSED k).
Proof.
  unfold evolves. simpl. destruct (readyState k); simpl;
    repeat split; try done; try lia.
Qed.

Lemma evolves_send text k : readyState k = OPEN → evolves k (send_socket text k).
Proof.
  intros H. unfold evolves. simpl. rewrite H. simpl.
  repeat split; try done; try lia. by apply prefix_app_r.
Qed.

Lemma evolves_buffer data k : readyState k = OPEN → evolves k (buffer_event data k).
Proof.
  intros H. unfold evolves. simpl. rewrite H. simpl.
  repeat split; try done; try lia.
  - by apply prefix_app_r.
  - destruct (isError data); [by apply prefix_app_r|done].
Qed.

Lemma step_session secondsOf s i sid k :
  sessions s !! sid = Some k →
  ∃ k', sessions (step secondsOf s i) !! sid = Some k' ∧ evolves k k'.
Proof.
  intros Hk.
  destruct i; handlers.
  all: repeat (rewrite lookup_app_l by (eapply lookup_lt_Some; eauto)).
  all: try (exists k; split; [done|apply evolves_refl]).
  all: split_alter; simplify_eq.
  all: try (exists k; split; [done|apply evolves_refl]).
  all: rewrite ?list_lookup_alter_eq, ?Hk; simpl.
  all: try (eexists; split; [reflexivity|]).
  all: eauto using evolves_close, evolves_open, evolves_closed, evolves_send, evolves_buffer, evolves_trans.
Qed.

Lemma run_session (secondsOf : Duration -> Q) inputs : ∀ s sid k,
  sessions s !! sid = Some k →
  ∃ k', sessions (run secondsOf s inputs) !! sid = Some k' ∧ evolves k k'.
Proof.
  induction inputs as [|i inputs IH]; intros s sid k Hk.
  - exists k. split; [done|apply evolves_refl].
  - rewrite run_cons.
    destruct (step_session secondsOf s i sid k Hk) as (k1 & Hk1 & Hev1).
    destruct (IH _ _ _ Hk1) as (k2 & Hk2 & Hev2).
    exists k2. split; [done|by eapply evolves_trans].
Qed.

Lemma run_closed_stable (secondsOf : Duration -> Q) inputs : ∀ s sid k,
  sessions s !! sid = Some k → readyState k = CLOSED →
  sessions (run secondsOf s inputs) !! sid = Some k.
Proof.
  induction inputs as [|i inputs IH]; intros s sid k Hk Hc; [done|].
  rewrite run_cons. apply IH; [|done]. by apply closed_stable.
Qed.

(** A socket never disappears and never moves backwards through
    connecting, open, closing, closed; its text and scale never change; its
    buffers only grow at their end, and stop changing once it has started
    closing; a closed socket is never changed at all. *)
Theorem socket_lifecycle (secondsOf : Duration -> Q) (s : App)
    (inputs : list Input) (sid : nat) (k : Session) :
  sessions s !! sid = Some k →
  ∃ k', sessions (run secondsOf s inputs) !! sid = Some k' ∧
    (rank (readyState k) ≤ rank (readyState k'))%nat ∧
    captured_code k' = captured_code k ∧
    palette_scale k' = palette_scale k ∧
    musicalEvents k `prefix_of` musicalEvents k' ∧
    errorMessages k `prefix_of` errorMessages k' ∧
    (readyState k = CLOSING ∨ readyState k = CLOSED →
     musicalEvents k' = musicalEvents k ∧ errorMessages k' = errorMessages k ∧
     collectedErrors k' = collectedErrors k) ∧
    (readyState k = CLOSED → k' = k).
Proof.
  intros Hk.
  destruct (run_session secondsOf inputs s sid k Hk)
    as (k' & Hk' & Hr & Hc & Hs & He & Hm & _ & Hf).
  exists k'. do 5 (split; [done|]). split; [done|]. split.
  - intros Hclosing. destruct Hf as (? & ? & ? & _); [|done].
    destruct Hclosing as [-> | ->]; simpl; lia.
  - intros Hc'. pose proof (run_closed_stable secondsOf inputs s sid k Hk Hc').
    congruence.
Qed.

Lemma socket_lifecycle_witness :
  ∃ k', sessions (run defaultSeconds
                    (run defaultSeconds initialApp sessionPlaying)
                    (secondSessionStreaming ++ [WsMessage 0 ev_syntax]))
          !! 0%nat = Some k' ∧
        musicalEvents k' = [ev_if].
Proof.
  edestruct (socket_lifecycle defaultSeconds
               (run defaultSeconds initialApp sessionPlaying)
               (secondSessionStreaming ++ [WsMessage 0 ev_syntax]) 0)
    as (k' & Hk' & _ & _ & _ & _ & _ & _ & Hsame).
  - vm_compute. reflexivity.
  - exists k'. split; [exact Hk'|]. rewrite Hsame; reflexivity.
Defined.

(** A socket that an input creates carries the scale of a palette of the
    table. *)
Lemma step_new_session (secondsOf : Duration -> Q) s i sid k' :
  (length (sessions s) ≤ sid)%nat →
  sessions (step secondsOf s i) !! sid = Some k' →
  table_scale (palette_scale k').
Proof.
  intros Hge.
  destruct i; handlers; intros Hk'.
  all: try (apply lookup_lt_Some in Hk'; rewrite ?length_alter in Hk'; lia).
  all: rewrite lookup_app_r in Hk' by lia.
  all: destruct (sid - length (sessions s))%nat as [|m]; [|by destruct m].
  all: injection Hk' as <-; cbn [palette_scale].
  all: match goal with
       | H : own_palette musicPalettes ?key = Some ?p |- _ =>
           exists key, p; split; [exact H|reflexivity]
       end.
Qed.

Lemma step_tabled (secondsOf : Duration -> Q) s i :
  sessions_tabled s → sessions_tabled (step secondsOf s i).
Proof.
  intros Hinv sid k' Hk'.
  destruct (decide (sid < length (sessions s))%nat) as [Hlt|Hge].
  - destruct (lookup_lt_is_Some_2 _ _ Hlt) as [k Hk].
    destruct (step_session secondsOf s i sid k Hk) as (k'' & Hk'' & _ & _ & Hsc & _).
    assert (k'' = k') as -> by congruence. rewrite Hsc. by eapply Hinv.
  - eapply step_new_session; [|done]. lia.
Qed.

Lemma dispose_all_lookup qs l q sq :
  dispose_all qs l !! q = Some sq →
  ∃ sq0, l !! q = Some sq0 ∧ seq_events sq0 = seq_events sq.
Proof.
  revert sq. induction qs as [|q0 qs IH]; intros sq; simpl; [by eauto|].
  destruct (decide (q0 = q)) as [->|Hne].
  - rewrite list_lookup_alter_eq.
    destruct (dispose_all qs l !! q) as [sq1|] eqn:H1; [|done].
    simpl. intros [= <-]. destruct (IH sq1 eq_refl) as (sq0 & ? & ?). eauto.
  - rewrite list_lookup_alter_ne by done. apply IH.
Qed.

(** An input disposes sequences, or it is the close of a stream with a
    buffer that is not empty and adds the sequence compiled from it. *)
Lemma step_sequences (secondsOf : Duration -> Q) s i :
  (∃ qs, sequences (step secondsOf s i) = dispose_all qs (sequences s)) ∨
  (∃ sid k, sessions s !! sid = Some k ∧
     sequences (step secondsOf s i)
     = sequences s
       ++ [{| seq_events := scheduledEvents
                              (compile secondsOf (palette_scale k) (musicalEvents k));
              seq_loop := false; seq_disposed := false |}]).
Proof.
  destruct i.
  7:{ unfold step. destruct (sessions s !! sid) as [k|] eqn:Hk; [|by left; exists []].
      destruct (decide (readyState k = CLOSED)) as [|Hopen]; [by left; exists []|].
      destruct (musicalEvents k) as [|e evs] eqn:Hevs.
      - left. pose proof (step_close_empty secondsOf s sid k Hk Hopen Hevs) as Hst.
        unfold step in Hst. rewrite Hk in Hst.
        destruct (decide (readyState k = CLOSED)); [done|]. rewrite Hst.
        rewrite stopMusic_sequences. fields.
        destruct (sequence s) as [q|]; [by exists [q]|by exists []].
      - right. assert (musicalEvents k ≠ []) as Hne by (by rewrite Hevs).
        destruct (step_close_nonempty secondsOf s sid k Hk Hopen Hne)
          as (_ & Hsq & _).
        unfold step in Hsq. rewrite Hk in Hsq.
        destruct (decide (readyState k = CLOSED)); [done|].
        exists sid, k. split; [done|]. by rewrite Hsq, Hevs. }
  all: left; handlers.
  all: first [by exists [] | by eexists [_] | by eexists [_; _]].
Qed.

Lemma step_pitched (secondsOf : Duration -> Q) s i :
  sessions_tabled s → sequences_pitched s →
  sequences_pitched (step secondsOf s i).
Proof.
  intros Htab Hinv q sq Hsq.
  destruct (step_sequences secondsOf s i) as [[qs Hqs]|(sid & k & Hk & Hnew)].
  - rewrite Hqs in Hsq. apply dispose_all_lookup in Hsq as (sq0 & Hsq0 & <-).
    by eapply Hinv.
  - rewrite Hnew in Hsq.
    destruct (decide (q < length (sequences s))%nat) as [Hlt|Hge].
    + rewrite lookup_app_l in Hsq by done. by eapply Hinv.
    + rewrite lookup_app_r in Hsq by lia.
      destruct (q - length (sequences s))%nat as [|m]; [|by destruct m].
      injection Hsq as <-. simpl. apply table_scale_well. by eapply Htab.
Qed.

Lemma reachable_pitched (secondsOf : Duration -> Q) inputs :
  sessions_tabled (run secondsOf initialApp inputs) ∧
  sequences_pitched (run secondsOf initialApp inputs).
Proof.
  assert (∀ s, sessions_tabled s ∧ sequences_pitched s →
               sessions_tabled (run secondsOf s inputs)
               ∧ sequences_pitched (run secondsOf s inputs)) as Hrun.
  { induction inputs as [|i inputs IH]; intros s [Ht Hp]; [done|].
    rewrite run_cons. apply IH. split; [by apply step_tabled|by apply step_pitched]. }
  apply Hrun. split; intros ? ? ?; done.
Qed.

(** In every state the component can reach, every socket carries the scale
    of a palette of the table, so every entry of every compiled sequence
    names real pitches (no lookup in the scale comes back undefined), and
    the two pitches of a chord are different. *)
Theorem scheduled_pitches_defined (secondsOf : Duration -> Q)
    (inputs : list Input) :
  let s := run secondsOf initialApp inputs in
  (∀ sid k, sessions s !! sid = Some k →
     length (palette_scale k) = 8%nat ∧ NoDup (palette_scale k)) ∧
  (∀ q sq se, sequences s !! q = Some sq → se ∈ seq_events sq →
     Forall is_Some (pitches (note se)) ∧ NoDup (pitches (note se))).
Proof.
  intros s. destruct (reachable_pitched secondsOf inputs) as [Htab Hpit].
  split.
  - intros sid k Hk. destruct (Htab sid k Hk) as (key & palette & Hown & ->).
    by eapply own_palette_scale.
  - intros q sq se Hsq Hse.
    pose proof (Hpit q sq Hsq) as Hall. rewrite Forall_forall in Hall.
    by apply Hall.
Qed.

Lemma scheduled_pitches_defined_witness :
  ∃ sq, sequences (run defaultSeconds initialApp sessionPlaying) !! 0%nat = Some sq ∧
        Forall (λ se, Forall is_Some (pitches (note se))) (seq_events sq).
Proof.
  eexists. split; [vm_compute; reflexivity|].
  apply Forall_forall. intros se Hse.
  destruct (scheduled_pitches_defined defaultSeconds sessionPlaying) as [_ Hp].
  eapply (Hp 0%nat); [vm_compute; reflexivity|exact Hse].
Defined.

(** ** The node pool over whole runs *)

Lemma step_pool (secondsOf : Duration -> Q) s i :
  (length (visualNodes s) ≤ 31)%nat →
  (length (visualNodes (step secondsOf s i)) ≤ 31)%nat.
Proof.
  intros Hle. destruct i; handlers; simpl; try lia.
  all: rewrite length_app, length_drop; simpl; lia.
Qed.

(** Whatever the inputs, the pool never holds more than 31 nodes. Starting
    a session empties it; the teardown leaves it as it is, so the nodes of
    a finished session stay in the pool until the next session starts. *)
Theorem node_pool_at_most_31 (secondsOf : Duration -> Q) (inputs : list Input) :
  (length (visualNodes (run secondsOf initialApp inputs)) ≤ 31)%nat ∧
  (∀ s, isPlaying s = false → visualNodes (step secondsOf s PlayClick) = []) ∧
  (∀ s fs, visualNodes (stopMusic fs s) = visualNodes s).
Proof.
  split; [|split].
  - assert (∀ s, (length (visualNodes s) ≤ 31)%nat →
                 (length (visualNodes (run secondsOf s inputs)) ≤ 31)%nat) as Hrun.
    { induction inputs as [|i inputs IH]; intros s Hs; [done|].
      rewrite run_cons. apply IH. by apply step_pool. }
    apply Hrun. simpl. lia.
  - intros s Hp. unfold step, handlePlay. by rewrite Hp.
  - intros s fs. by destruct (stopMusic_view fs s) as (_ & -> & _).
Qed.

Lemma node_pool_at_most_31_witness :
  visualNodes (step defaultSeconds
                 (run defaultSeconds initialApp firstSession) PlayClick) = [].
Proof.
  destruct (node_pool_at_most_31 defaultSeconds []) as (_ & Hstart & _).
  apply Hstart. vm_compute. reflexivity.
Defined.

(** * The text panes *)

Lemma split_lines_cons code : ∃ line lines, split_lines code = line :: lines.
Proof.
  destruct code as [|c rest]; simpl; [by eauto|].
  destruct (Ascii.eqb c newline); [by eauto|].
  destruct (split_lines rest); by eauto.
Qed.

Lemma split_lines_length code :
  length (split_lines code) = S (count_newlines code).
Proof.
  induction code as [|c rest IH]; [done|]. simpl.
  destruct (Ascii.eqb c newline); simpl; [by rewrite IH|].
  destruct (split_lines_cons rest) as (l & ls & Hs). rewrite Hs in IH |- *.
  done.
Qed.

Lemma concat_cons_line sep line lines :
  lines ≠ [] →
  String.concat sep (line :: lines) = line +:+ sep +:+ String.concat sep lines.
Proof. destruct lines; done. Qed.

(** Splitting a text at its line feeds loses nothing: joining the lines
    with line feeds gives the text back, and no line contains a line
    feed. *)
Lemma split_lines_join (code : string) :
  String.concat (String newline EmptyString) (split_lines code) = code ∧
  Forall (λ line, count_newlines line = 0%nat) (split_lines code).
Proof.
  split.
  - induction code as [|c rest IH]; [done|]. simpl split_lines.
    destruct (split_lines_cons rest) as (l & ls & Hs). rewrite Hs in IH |- *.
    destruct (Ascii.eqb c newline) eqn:Hc.
    + apply Ascii.eqb_eq in Hc as ->.
      rewrite concat_cons_line by done. by rewrite IH.
    + destruct ls as [|l' ls].
      * simpl in IH |- *. by rewrite IH.
      * rewrite concat_cons_line in IH |- * by done.
        change (String c (l +:+ String newline "" +:+
                          String.concat (String newline "") (l' :: ls))
                = String c rest).
        by rewrite IH.
  - induction code as [|c rest IH]; [by repeat constructor|]. simpl.
    destruct (Ascii.eqb c newline) eqn:Hc; [by constructor|].
    destruct (split_lines_cons rest) as (l & ls & Hs). rewrite Hs in IH |- *.
    apply Forall_cons in IH as [Hl Hls].
    constructor; [|done]. simpl. by rewrite Hc.
Qed.

Lemma gutter_length code m :
  length (CodeEditor_gutter code m) = S (count_newlines code).
Proof.
  unfold CodeEditor_gutter. by rewrite length_fmap, length_seq, split_lines_length.
Qed.

Lemma gutter_class_lookup code m n :
  1 <= n <= Z.of_nat (S (count_newlines code)) →
  gutter_class (CodeEditor_gutter code m) n = Some (error_class (m !! n)).
Proof.
  intros Hn. unfold gutter_class, CodeEditor_gutter.
  rewrite list_lookup_fmap, lookup_seq_lt by (rewrite split_lines_length; lia).
  simpl. replace (Z.of_nat (Z.to_nat (n - 1)) + 1) with n by lia. done.
Qed.

(** The viewer and the editor show the same text line by line: both have
    one row per line of the text, one more than it has line feeds and so at
    least one, numbered from 1 without gaps; the lines the viewer shows join
    back to the text, an empty line being shown as one space. *)
Theorem text_panes_rows (code0 : string) (h : option HighlightInfo)
    (m : gmap Z string) :
  let rows := CodeViewer_rows code0 h in
  let gutter := CodeEditor_gutter code0 m in
  length rows = S (count_newlines code0) ∧
  length gutter = S (count_newlines code0) ∧
  v_lineNum <$> rows = (λ i : nat, Z.of_nat i + 1) <$> seq 0 (length rows) ∧
  g_lineNum <$> gutter = (λ i : nat, Z.of_nat i + 1) <$> seq 0 (length gutter) ∧
  String.concat (String newline EmptyString)
    ((λ row, if String.eqb (v_content row) " " then
               (if bool_decide (split_lines code0 !! Z.to_nat (v_lineNum row - 1)
                                = Some "")
                then "" else " ")
             else v_content row) <$> rows) = code0.
Proof.
  intros rows gutter.
  assert (Hrows : length rows = S (count_newlines code0))
    by (unfold rows, CodeViewer_rows; by rewrite length_imap, split_lines_length).
  split; [done|]. split; [apply gutter_length|].
  split.
  { apply list_eq. intros i. unfold rows, CodeViewer_rows.
    rewrite !list_lookup_fmap, list_lookup_imap, length_imap.
    destruct (split_lines code0 !! i) as [line|] eqn:Hl; simpl.
    - rewrite lookup_seq_lt by (by eapply lookup_lt_Some). done.
    - rewrite lookup_seq_ge; [done|]. by apply lookup_ge_None. }
  split.
  { unfold gutter, CodeEditor_gutter. rewrite <- list_fmap_compose.
    by rewrite length_fmap, length_seq. }
  destruct (split_lines_join code0) as [Hjoin _].
  etrans; [|exact Hjoin]. f_equal.
  apply list_eq. intros i. unfold rows, CodeViewer_rows.
  rewrite list_lookup_fmap, list_lookup_imap.
  destruct (split_lines code0 !! i) as [line|] eqn:Hl; [|done]. simpl.
  replace (Z.to_nat (Z.of_nat i + 1 - 1)) with i by lia. rewrite Hl.
  destruct (String.eqb_spec line "") as [->|Hne].
  - simpl. repeat case_bool_decide; congruence.
  - destruct (String.eqb_spec line " ") as [->|]; [|done].
    repeat case_bool_decide; congruence.
Qed.

(** When the callback of an entry has run, the viewer shows one row per
    line of the text, numbered from 1; the rows of the lines from the
    entry's start line to its end line, and no others, carry the highlight
    class, which names the kind for an error entry; an empty line is shown
    as one space. *)
Theorem viewer_highlights_fired_entry (secondsOf : Duration -> Q) (s : App)
    (t : Q) (event : ScheduledEvent) (rnd : Q * Q * Q * Q) :
  let s' := draw_callback secondsOf t event rnd s in
  let rows := CodeViewer_rows (code s') (highlightedLines s') in
  code s' = code s ∧ length rows = S (count_newlines (code s)) ∧
  ∀ i row, rows !! i = Some row →
    v_lineNum row = Z.of_nat i + 1 ∧
    v_class row
    = (if decide (se_startLine event <= Z.of_nat i + 1 <= se_endLine event)
       then (if se_isError event then "code-line error-line-" +:+ se_type event
             else "code-line highlighted-line")
       else "code-line ") ∧
    ∃ line, split_lines (code s) !! i = Some line ∧
            v_content row = if decide (line = "") then " " else line.
Proof.
  intros s' rows.
  assert (Hcode : code s' = code s) by (by destruct rnd as [[[? ?] ?] ?]).
  assert (Hhl : highlightedLines s'
                = Some {| hl_start := se_startLine event; hl_end := se_endLine event;
                          hl_type := se_type event; hl_isError := se_isError event |})
    by (by destruct rnd as [[[? ?] ?] ?]).
  subst rows. rewrite Hcode, Hhl. unfold CodeViewer_rows.
  split; [done|]. split; [by rewrite length_imap, split_lines_length|].
  intros i row Hrow. rewrite list_lookup_imap in Hrow.
  destruct (split_lines (code s) !! i) as [line|] eqn:Hline; [|done].
  injection Hrow as <-. cbn [v_lineNum v_class v_content].
  split; [done|]. split.
  - unfold viewer_lineClass. cbn [hl_start hl_end hl_isError hl_type].
    destruct (Z.leb_spec (se_startLine event) (Z.of_nat i + 1));
      destruct (Z.leb_spec (Z.of_nat i + 1) (se_endLine event)); simpl;
      case_decide; try lia; by destruct (se_isError event).
  - exists line. split; [done|].
    destruct (String.eqb_spec line ""); by case_decide.
Qed.

Lemma viewer_highlights_fired_entry_witness :
  ∃ row,
    CodeViewer_rows
      (code (draw_callback defaultSeconds 0
               (scheduled_for defaultScale compile_init ev_syntax) (0, 0, 0, 0)%Q
               initialApp))
      (highlightedLines
         (draw_callback defaultSeconds 0
            (scheduled_for defaultScale compile_init ev_syntax) (0, 0, 0, 0)%Q
            initialApp)) !! 7%nat = Some row ∧
    v_class row = "code-line error-line-syntax_error".
Proof.
  eexists. split; [vm_compute; reflexivity|].
  destruct (viewer_highlights_fired_entry defaultSeconds initialApp 0
              (scheduled_for defaultScale compile_init ev_syntax) (0, 0, 0, 0)%Q)
    as (_ & _ & Hrows).
  edestruct (Hrows 7%nat) as (_ & Hclass & _); [vm_compute; reflexivity|].
  exact Hclass.
Defined.

(** ** The text is changed by edits only *)

Lemma step_code (secondsOf : Duration -> Q) s i :
  is_edit i = false → code (step secondsOf s i) = code s.
Proof. destruct i; try done; intros _; handlers. Qed.

Lemma run_code (secondsOf : Duration -> Q) inputs : ∀ s,
  forallb (λ i, negb (is_edit i)) inputs = true →
  code (run secondsOf s inputs) = code s.
Proof.
  induction inputs as [|i inputs IH]; intros s Hall; [done|].
  simpl in Hall. apply andb_true_iff in Hall as [Hi Hall].
  rewrite run_cons, IH by done. apply step_code. by destruct (is_edit i).
Qed.

Lemma fires_no_edit fires :
  forallb is_fire fires = true → forallb (λ i, negb (is_edit i)) fires = true.
Proof.
  induction fires as [|i fires IH]; [done|]. simpl.
  rewrite !andb_true_iff. intros [Hi Hall]. split; [by destruct i|by apply IH].
Qed.

Lemma stream_no_edit rid sid genre evs :
  forallb (λ i, negb (is_edit i)) (stream rid sid genre evs) = true.
Proof.
  unfold stream. simpl. rewrite forallb_app. simpl. rewrite andb_true_r.
  induction evs as [|e evs IH]; done.
Qed.

(** After a session has completed, the editor is shown again with the
    same text, and its gutter marks exactly the lines on which an error
    event started, each with the class of the last error kind reported for
    that line. *)
Theorem gutter_marks_error_lines (secondsOf : Duration -> Q) (s : App)
    (genre : string) (evs : list CodeEvent) (fires : list Input) :
  isPlaying s = false →
  existsb (String.eqb genre) objectPrototypeKeys = false →
  evs ≠ [] → forallb is_fire fires = true →
  let rid := length (requests s) in
  let sid := length (sessions s) in
  let tid := length (timers s) in
  let finished :=
    step secondsOf (run secondsOf s (stream rid sid genre evs ++ fires))
      (TimerFire tid) in
  ∃ gutter, editor_pane finished = Editor (code s) false gutter ∧
    length gutter = S (count_newlines (code s)) ∧
    ∀ n, 1 <= n <= Z.of_nat (length gutter) →
      gutter_class gutter n
      = Some (match last_error_kind evs n with
              | Some kind => if decide (kind = "") then ""
                             else "error-line-" +:+ kind
              | None => ""
              end).
Proof.
  intros Hp Hproto Hne Hfires rid sid tid finished.
  destruct (session_played secondsOf s genre evs fires Hp Hproto Hne Hfires)
    as (palette & k & tm & _ & _ & _ & _ & Hdraft & _ & _ & Hk & Htm
        & Hpend & Hsess & _).
  cbv zeta in Hk, Htm, Hsess. fold rid sid tid in Hk, Htm, Hsess.
  assert (Hk' : sessions (run secondsOf s (stream rid sid genre evs ++ fires))
                !! tm_session tm = Some k) by (by rewrite Hsess).
  destruct (step_timer secondsOf _ tid tm k Htm Hpend Hk')
    as (Herrs & _ & _ & Hpf & _).
  fold finished in Herrs, Hpf.
  assert (Hcode : code finished = code s).
  { unfold finished. rewrite step_code by done. apply run_code.
    rewrite forallb_app, stream_no_edit. by apply fires_no_edit. }
  unfold editor_pane. rewrite Hpf, Hcode, Herrs.
  eexists. split; [reflexivity|]. rewrite gutter_length. split; [done|].
  intros n Hn. rewrite gutter_class_lookup by done. rewrite Hdraft.
  unfold error_class. destruct (last_error_kind evs n) as [kind|]; [|done].
  destruct (String.eqb_spec kind ""); by case_decide.
Qed.

Lemma gutter_marks_error_lines_witness :
  ∃ gutter,
    editor_pane
      (step defaultSeconds
         (run defaultSeconds initialApp
            (stream (length (requests initialApp)) (length (sessions initialApp))
               "default" [ev_if; ev_syntax] ++ []))
         (TimerFire (length (timers initialApp))))
    = Editor initialCode false gutter ∧
    gutter_class gutter 7 = Some "error-line-syntax_error".
Proof.
  destruct (gutter_marks_error_lines defaultSeconds initialApp "default"
              [ev_if; ev_syntax] [])
    as (gutter & Hpane & Hlen & Hclass);
    [reflexivity|reflexivity|discriminate|reflexivity|].
  exists gutter. split; [exact Hpane|].
  rewrite Hclass; [reflexivity|]. rewrite Hlen. vm_compute. split; discriminate.
Defined.

(** An edit in the editor replaces the text and leaves no error class in the
    gutter, which has one row per line of the new text; the highlight range
    is cleared only when the error map held an entry, and everything else
    stays as it is. *)
Theorem edit_clears_gutter (secondsOf : Duration -> Q) (s : App) (newCode : string) :
  isPlaying s = false →
  let s' := step secondsOf s (Edit newCode) in
  ∃ gutter, editor_pane s' = Editor newCode false gutter ∧
    length gutter = S (count_newlines newCode) ∧
    Forall (λ row, g_class row = "") gutter ∧
    persistentErrors s' = ∅ ∧
    highlightedLines s'
    = (if decide (persistentErrors s = ∅) then highlightedLines s else None) ∧
    summary s' = summary s ∧ visualNodes s' = visualNodes s ∧
    status s' = status s ∧ sessions s' = sessions s ∧ timers s' = timers s.
Proof.
  intros Hp s'.
  assert (Hs' : s' = handleCodeChange newCode s) by (unfold s', step; by rewrite Hp).
  assert (Herr : persistentErrors s' = ∅)
    by (rewrite Hs'; apply handleCodeChange_clears).
  assert (Hfields : code s' = newCode ∧ isPlaying s' = false ∧
            highlightedLines s'
            = (if decide (persistentErrors s = ∅) then highlightedLines s else None) ∧
            summary s' = summary s ∧ visualNodes s' = visualNodes s ∧
            status s' = status s ∧ sessions s' = sessions s ∧ timers s' = timers s).
  { rewrite Hs'. unfold handleCodeChange.
    destruct (Nat.ltb_spec 0 (size (persistentErrors s))) as [Hlt|Hle]; fields.
    - rewrite decide_False; [done|]. intros Hempty.
      rewrite Hempty, map_size_empty in Hlt. lia.
    - rewrite decide_True; [done|]. apply map_size_empty_iff. lia. }
  destruct Hfields as (Hcode & Hplay & Hhl & Hrest).
  unfold editor_pane. rewrite Hplay, Hcode, Herr.
  eexists. split; [reflexivity|]. split; [apply gutter_length|].
  split; [|by split].
  unfold CodeEditor_gutter. apply Forall_fmap, Forall_forall. intros i _. simpl.
  by rewrite lookup_empty.
Qed.

Lemma edit_clears_gutter_witness :
  ∃ gutter,
    editor_pane (step defaultSeconds (run defaultSeconds initialApp firstSession)
                   (Edit "let x = 1;"))
    = Editor "let x = 1;" false gutter ∧
    Forall (λ row, g_class row = "") gutter.
Proof.
  destruct (edit_clears_gutter defaultSeconds
              (run defaultSeconds initialApp firstSession) "let x = 1;")
    as (gutter & Hpane & _ & Hall & _); [vm_compute; reflexivity|].
  exists gutter. split; [exact Hpane|exact Hall].
Defined.

(** * The fading of a node *)

Lemma node_frames_hidden duration isError deltas m :
  mesh_visible m = false → node_frames duration isError deltas m = m.
Proof.
  intros Hm. induction deltas as [|d ds IH]; [done|].
  unfold node_frames in *. simpl. unfold node_frame at 2. by rewrite Hm.
Qed.

Lemma node_frames_app duration isError deltas more m :
  node_frames duration isError (deltas ++ more) m
  = node_frames duration isError more (node_frames duration isError deltas m).
Proof. unfold node_frames. by rewrite foldl_app. Qed.

(** The fields of a visible mesh after one frame. *)
Lemma node_frame_visible duration isError delta m :
  mesh_visible m = true →
  let m1 := node_frame duration isError delta m in
  mesh_visible m1 = alive (dsub (mesh_lifetime m) delta) ∧
  mesh_lifetime m1 = dsub (mesh_lifetime m) delta ∧
  mesh_opacity m1
  = lerp (of_Z 0) (of_Z 1)
      (ddiv (dsub (mesh_lifetime m) delta) (initialLifetime duration isError)) ∧
  mesh_rotation_x m1
  = (if isError && mesh_visible m1 then dadd (mesh_rotation_x m) delta
     else mesh_rotation_x m) ∧
  mesh_rotation_y m1
  = (if isError && mesh_visible m1
     then dadd (mesh_rotation_y m) (dmul delta (of_Z 2))
     else mesh_rotation_y m).
Proof. intros Hm. unfold node_frame. rewrite Hm. done. Qed.

(** From a visible mesh, the frames act as a plain countdown for as long as
    every lifetime passed through is alive. *)
Lemma node_frames_countdown duration isError deltas : ∀ m,
  mesh_visible m = true →
  let m' := node_frames duration isError deltas m in
  (mesh_visible m' = true
   ↔ Forall (λ l, alive l = true) (countdown (mesh_lifetime m) deltas)) ∧
  (mesh_visible m' = true →
   mesh_lifetime m' = foldl dsub (mesh_lifetime m) deltas ∧
   (isError = true →
    mesh_rotation_x m' = foldl dadd (mesh_rotation_x m) deltas ∧
    mesh_rotation_y m'
    = foldl (λ r delta, dadd r (dmul delta (of_Z 2))) (mesh_rotation_y m) deltas)) ∧
  (mesh_visible m' = false → alive (mesh_lifetime m') = false).
Proof.
  induction deltas as [|d ds IH]; intros m Hm m'; subst m'.
  - simpl. rewrite Hm. split; [done|]. split; [done|]. done.
  - change (node_frames duration isError (d :: ds) m)
      with (node_frames duration isError ds (node_frame duration isError d m)).
    destruct (node_frame_visible duration isError d m Hm)
      as (Hv1 & Hl1 & _ & Hx1 & Hy1).
    set (m1 := node_frame duration isError d m) in *.
    simpl countdown. simpl foldl.
    destruct (alive (dsub (mesh_lifetime m) d)) eqn:Ha.
    + destruct (IH m1 Hv1) as (Hvis & Hlife & Hdead).
      rewrite Hl1 in Hvis, Hlife. rewrite Hv1 in Hx1, Hy1.
      split; [|split].
      * rewrite Hvis. rewrite Forall_cons. tauto.
      * intros Hv. destruct (Hlife Hv) as [-> Hrot]. split; [done|].
        intros He. destruct (Hrot He) as [-> ->]. rewrite He in Hx1, Hy1.
        simpl in Hx1, Hy1. by rewrite Hx1, Hy1.
      * exact Hdead.
    + rewrite node_frames_hidden by done. rewrite Hv1, Hl1.
      split; [|split].
      * split; [done|]. intros HF. apply Forall_cons in HF as [HF _]. congruence.
      * done.
      * intros _. exact Ha.
Qed.

(** After at least one frame, the opacity of a visible mesh is the
    interpolation at the share of the lifetime that is left. *)
Lemma node_frames_opacity duration isError deltas m :
  mesh_visible m = true → deltas ≠ [] →
  let m' := node_frames duration isError deltas m in
  mesh_visible m' = true →
  mesh_opacity m'
  = lerp (of_Z 0) (of_Z 1)
      (ddiv (mesh_lifetime m') (initialLifetime duration isError)).
Proof.
  intros Hm Hne. destruct deltas as [|d0 ds0] using rev_ind; [done|]. clear IHds0.
  simpl. rewrite node_frames_app.
  set (mm := node_frames duration isError ds0 m).
  change (node_frames duration isError [d0] mm)
    with (node_frame duration isError d0 mm).
  destruct (mesh_visible mm) eqn:Hmm.
  - destruct (node_frame_visible duration isError d0 mm Hmm)
      as (_ & Hl1 & Ho1 & _).
    intros _. by rewrite Ho1, Hl1.
  - unfold node_frame. rewrite Hmm. simpl. congruence.
Qed.

(** A node that is not an error never turns. *)
Lemma node_frames_still duration deltas : ∀ m,
  mesh_rotation_x (node_frames duration false deltas m) = mesh_rotation_x m ∧
  mesh_rotation_y (node_frames duration false deltas m) = mesh_rotation_y m.
Proof.
  induction deltas as [|d ds IH]; intros m; [done|].
  change (node_frames duration false (d :: ds) m)
    with (node_frames duration false ds (node_frame duration false d m)).
  destruct (IH (node_frame duration false d m)) as [-> ->].
  unfold node_frame. by destruct (mesh_visible m).
Qed.

(** A node is counted down in double arithmetic: it is mounted visible
    with a lifetime of its duration times 3, for an error, or times 1.5,
    plus 0.5; each frame subtracts its time from the lifetime, and the node
    is hidden at the first frame after which the lifetime is [<= 0]. So it
    is visible after some frames exactly when every lifetime of the
    countdown was alive, its lifetime is then the initial one with the
    frame times subtracted one by one, and an error node has turned by the
    frame times about one axis and by twice the frame times about the
    other, while any other node has not turned at all. A hidden node has a
    lifetime that is not alive, no later frame changes it, and it does not
    come back. *)
Theorem node_fades (duration : double) (isError : bool)
    (deltas more : list double) (m0 : Mesh) :
  let life := dadd (dmul duration (if isError then of_Z 3 else decimal 3 2))
                   (decimal 1 2) in
  let start := node_mount duration isError m0 in
  let m := node_frames duration isError deltas start in
  (mesh_visible start = true ∧ mesh_lifetime start = life) ∧
  (mesh_visible m = true ↔ Forall (λ l, alive l = true) (countdown life deltas)) ∧
  (mesh_visible m = true →
   mesh_lifetime m = foldl dsub life deltas ∧
   (deltas ≠ [] →
    mesh_opacity m = lerp (of_Z 0) (of_Z 1) (ddiv (mesh_lifetime m) life)) ∧
   (isError = true →
    mesh_rotation_x m = foldl dadd (mesh_rotation_x m0) deltas ∧
    mesh_rotation_y m
    = foldl (λ r delta, dadd r (dmul delta (of_Z 2))) (mesh_rotation_y m0) deltas)) ∧
  (isError = false →
   mesh_rotation_x m = mesh_rotation_x m0 ∧ mesh_rotation_y m = mesh_rotation_y m0) ∧
  (mesh_visible m = false →
   alive (mesh_lifetime m) = false ∧
   node_frames duration isError more m = m ∧
   mesh_visible (node_frames duration isError (deltas ++ more) start) = false).
Proof.
  intros life start m.
  destruct (node_frames_countdown duration isError deltas start eq_refl)
    as (Hvis & Hlife & Hdead).
  split; [done|]. split; [exact Hvis|].
  split.
  { intros Hm. destruct (Hlife Hm) as [Hl Hrot]. split; [exact Hl|].
    split; [|exact Hrot]. intros Hne.
    by apply (node_frames_opacity duration isError deltas start). }
  split.
  { intros ->. apply (node_frames_still duration deltas start). }
  intros Hm. split; [by apply Hdead|].
  assert (Hmore : node_frames duration isError more m = m)
    by (by apply node_frames_hidden).
  split; [exact Hmore|].
  rewrite node_frames_app. fold start. fold m. by rewrite Hmore.
Qed.

Lemma node_fades_witness :
  let m0 := {| mesh_visible := false; mesh_lifetime := of_Z 0;
               mesh_opacity := of_Z 1; mesh_rotation_x := of_Z 0;
               mesh_rotation_y := of_Z 0 |} in
  let frames := replicate 5 (decimal 2 5) in
  let m := node_frames (decimal 1 2) true frames (node_mount (decimal 1 2) true m0) in
  initialLifetime (decimal 1 2) true = of_Z 2 ∧
  mesh_visible m = true ∧
  mesh_lifetime m = S754_finite false 4503599627370496 (-105) ∧
  mesh_visible (node_frames (decimal 1 2) true [decimal 2 5] m) = false.
Proof.
  intros m0 frames m.
  destruct (node_fades (decimal 1 2) true frames [] m0) as (_ & Hvis & Hlife & _).
  assert (Hm : mesh_visible m = true).
  { apply Hvis. vm_compute. repeat constructor. }
  split; [vm_compute; reflexivity|]. split; [exact Hm|].
  split.
  - destruct (Hlife Hm) as [Hl _]. etrans; [exact Hl|]. vm_compute. reflexivity.
  - vm_compute. reflexivity.
Defined.

(** * What the summary modal can show *)

Lemma cancel_all_title ts l tid tm :
  cancel_all ts l !! tid = Some tm →
  ∃ tm0, l !! tid = Some tm0 ∧ tm_session tm0 = tm_session tm
         ∧ tm_title tm0 = tm_title tm.
Proof.
  revert tm. induction ts as [|t ts IH]; intros tm; simpl; [by eauto|].
  destruct (decide (t = tid)) as [->|Hne].
  - rewrite list_lookup_alter_eq.
    destruct (cancel_all ts l !! tid) as [tm1|] eqn:H1; [|done].
    simpl. intros [= <-]. destruct (IH tm1 eq_refl) as (tm0 & ? & ? & ?). eauto.
  - rewrite list_lookup_alter_ne by done. apply IH.
Qed.

Lemma timers_titled_step (secondsOf : Duration -> Q) s i :
  timers_titled s → timers_titled (step secondsOf s i).
Proof.
  intros Hwf tid tm Htm.
  destruct (step_timers secondsOf s i)
    as [[ts Hts]|(sid & k & ttl & delay & -> & Hk & Hopen & Hne & _)].
  - rewrite Hts in Htm. apply cancel_all_title in Htm as (tm0 & Htm0 & <- & <-).
    destruct (Hwf tid tm0 Htm0) as (k & Hk & Hc & Ht).
    exists k. split; [by apply closed_stable|done].
  - destruct (step_close_nonempty secondsOf s sid k Hk Hopen Hne)
      as (_ & _ & _ & _ & Ht & Hsess & _).
    rewrite Ht in Htm.
    destruct (decide (tid < length (timers s))%nat) as [Hlt|Hge].
    + rewrite lookup_app_l in Htm by done.
      destruct (Hwf tid tm Htm) as (k0 & Hk0 & Hc & Ht0).
      exists k0. split; [by apply closed_stable|done].
    + rewrite lookup_app_r in Htm by lia.
      destruct (tid - length (timers s))%nat as [|n] eqn:Hn; [|by destruct n].
      injection Htm as <-. cbn [tm_session tm_title].
      exists (set_readyState CLOSED k). rewrite Hsess.
      split; [by apply lookup_alter_Some|done].
Qed.

(** An input keeps the summary, removes it, sets one of the three fixed
    summaries, or is the firing of a pending timer and sets the timer's
    title with the messages of its session. *)
Lemma step_summary (secondsOf : Duration -> Q) s i sm :
  summary (step secondsOf s i) = Some sm →
  summary s = Some sm ∨
  sm ∈ [streamErrorSummary; backendErrorSummary; emptyAnalysisSummary] ∨
  ∃ tid tm k, timers s !! tid = Some tm ∧ sessions s !! tm_session tm = Some k ∧
              sm = {| title := tm_title tm; messages := errorMessages k |}.
Proof.
  destruct i; handlers; intros Hsm; simplify_eq; auto.
  all: try (right; left; set_solver).
  all: right; right; eauto 10.
Qed.

Lemma summary_ok_step (secondsOf : Duration -> Q) s i :
  timers_titled s →
  (∀ sm, summary s = Some sm → summary_ok sm) →
  ∀ sm, summary (step secondsOf s i) = Some sm → summary_ok sm.
Proof.
  intros Htit Hinv sm Hsm.
  destruct (step_summary secondsOf s i sm Hsm)
    as [Hold|[Hfixed|(tid & tm & k & Htm & Hk & ->)]].
  - by apply Hinv.
  - right. repeat (apply elem_of_cons in Hfixed as [->|Hfixed]);
      [| | |by apply elem_of_nil in Hfixed]; simpl; split; set_solver.
  - destruct (Htit tid tm Htm) as (k0 & Hk0 & _ & Htitle0).
    assert (k0 = k) as -> by congruence.
    unfold summary_ok. simpl. rewrite Htitle0. unfold final_title.
    destruct (errorMessages k); simpl; [by left|right; split; set_solver].
Qed.

Lemma reachable_summary_ok (secondsOf : Duration -> Q) inputs :
  ∀ sm, summary (run secondsOf initialApp inputs) = Some sm → summary_ok sm.
Proof.
  assert (∀ s, timers_titled s ∧ (∀ sm, summary s = Some sm → summary_ok sm) →
               ∀ sm, summary (run secondsOf s inputs) = Some sm → summary_ok sm)
    as Hrun.
  { induction inputs as [|i inputs IH]; intros s [Ht Hs]; [done|].
    rewrite run_cons. apply IH.
    split; [by apply timers_titled_step|by apply summary_ok_step]. }
  apply Hrun. split; [intros ? ? ?|intros ? ?]; done.
Qed.

(** Whatever the inputs, the summary modal shows nothing, or the title
    "Analysis Complete: Code is Clean!" over the paragraph that no issues
    were found, or one of the titles "Connection Error", "Analysis
    Complete" and "Analysis Complete: Issues Found" over a list of at least
    one message: the clean paragraph never appears under another title. *)
Theorem summary_modal_consistent (secondsOf : Duration -> Q) (inputs : list Input) :
  let s := run secondsOf initialApp inputs in
  match SummaryModal (summary s) with
  | None => summary s = None
  | Some (ttl, CleanParagraph) => ttl = "Analysis Complete: Code is Clean!"
  | Some (ttl, MessageList items) =>
      items ≠ [] ∧
      ttl ∈ ["Connection Error"; "Analysis Complete";
             "Analysis Complete: Issues Found"]
  end.
Proof.
  intros s. pose proof (reachable_summary_ok secondsOf inputs) as Hok.
  fold s in Hok. destruct (summary s) as [sm|] eqn:Hsm; [|done].
  destruct (Hok sm eq_refl) as [[Ht Hm]|[Ht Hm]]; simpl.
  - by rewrite Hm.
  - destruct (messages sm); [done|]. simpl. split; [done|exact Ht].
Qed.

(** * Sending the text and unmounting *)

Lemma step_sent (secondsOf : Duration -> Q) s i sid k :
  is_open i = false → sessions s !! sid = Some k →
  ∃ k', sessions (step secondsOf s i) !! sid = Some k' ∧ sent k' = sent k.
Proof.
  intros Hi Hk.
  destruct i; try done; handlers.
  all: repeat (rewrite lookup_app_l by (eapply lookup_lt_Some; eauto)).
  all: try (by exists k).
  all: split_alter; simplify_eq.
  all: try (by exists k).
  all: rewrite ?list_lookup_alter_eq, ?Hk; simpl.
  all: eexists; split; [reflexivity|].
  all: unfold close_socket; repeat case_match; done.
Qed.

Lemma run_sent (secondsOf : Duration -> Q) inputs : ∀ s sid k,
  forallb (λ i, negb (is_open i)) inputs = true → sessions s !! sid = Some k →
  ∃ k', sessions (run secondsOf s inputs) !! sid = Some k' ∧ sent k' = sent k.
Proof.
  induction inputs as [|i inputs IH]; intros s sid k Hall Hk; [by exists k|].
  simpl in Hall. apply andb_true_iff in Hall as [Hi Hall].
  rewrite run_cons.
  destruct (step_sent secondsOf s i sid k) as (k1 & Hk1 & Hs1);
    [by destruct (is_open i)|done|].
  destruct (IH _ _ _ Hall Hk1) as (k2 & Hk2 & Hs2).
  exists k2. split; [done|congruence].
Qed.

(** The text is sent when the socket opens and at no other time: when the
    socket of a new session opens, exactly the text the play request was
    made for has been sent on it, and no input other than the opening of a
    socket sends anything on any socket. *)
Theorem text_sent_on_open (secondsOf : Duration -> Q) (s : App) (genre : string)
    (inputs : list Input) :
  isPlaying s = false →
  existsb (String.eqb genre) objectPrototypeKeys = false →
  forallb (λ i, negb (is_open i)) inputs = true →
  let rid := length (requests s) in
  let sid := length (sessions s) in
  let connecting := run secondsOf s [PlayClick; ClassifyOk rid genre] in
  let opened := step secondsOf connecting (WsOpen sid) in
  (∃ k, sessions connecting !! sid = Some k ∧ sent k = []) ∧
  (∃ k, sessions opened !! sid = Some k ∧ readyState k = OPEN ∧ sent k = [code s]) ∧
  (∃ k, sessions (run secondsOf opened inputs) !! sid = Some k ∧ sent k = [code s]) ∧
  (∀ s0 sid0 k0, sessions s0 !! sid0 = Some k0 →
     ∃ k, sessions (run secondsOf s0 inputs) !! sid0 = Some k ∧ sent k = sent k0).
Proof.
  intros Hp Hproto Hall rid sid connecting opened.
  destruct (palette_resolves genre Hproto) as [palette Hpal].
  destruct (run_start secondsOf s genre palette Hp Hpal) as (Hin & _).
  fold rid sid connecting in Hin.
  destruct (step_open secondsOf s connecting sid _ Hin eq_refl) as ((Hk3 & _) & _).
  fold opened in Hk3.
  split; [destruct Hin as (Hk & _); by eexists|].
  split; [by eexists|].
  split; [|intros s0 sid0 k0 Hk0; by apply run_sent].
  destruct (run_sent secondsOf inputs opened sid _ Hall Hk3) as (k & Hk & Hs).
  by exists k.
Qed.

Lemma text_sent_on_open_witness :
  ∃ k, sessions
         (run defaultSeconds
            (step defaultSeconds
               (run defaultSeconds initialApp
                  [PlayClick; ClassifyOk (length (requests initialApp)) "default"])
               (WsOpen (length (sessions initialApp))))
            [WsMessage 0 ev_if; WsClose 0; TimerFire 0])
         !! length (sessions initialApp) = Some k ∧
       sent k = [initialCode].
Proof.
  destruct (text_sent_on_open defaultSeconds initialApp "default"
              [WsMessage 0 ev_if; WsClose 0; TimerFire 0])
    as (_ & _ & Hsent & _); [reflexivity|reflexivity|reflexivity|].
  exact Hsent.
Defined.

(** Unmounting the component runs the teardown and then closes the current
    socket whatever its state: the timer the component holds is no longer
    pending, the transport is stopped and empty, the current sequence is
    disposed, and the current socket is closing or closed, also when it was
    still connecting. *)
Theorem unmount_releases (secondsOf : Duration -> Q) (s : App) :
  let s' := step secondsOf s Unmount in
  isPlaying s' = false ∧
  transport s' = {| running := false; scheduled := [] |} ∧
  (∀ t tm, stopTimeoutRef s = Some t → timers s' !! t = Some tm →
           tm_pending tm = false) ∧
  (∀ q sq, sequence s = Some q → sequences s' !! q = Some sq →
           seq_disposed sq = true) ∧
  (∀ cur k, ws s = Some cur → sessions s' !! cur = Some k →
           readyState k = CLOSING ∨ readyState k = CLOSED) ∧
  persistentErrors s' = persistentErrors s ∧ summary s' = summary s.
Proof.
  intros s'. subst s'. change (step secondsOf s Unmount) with (unmount s).
  unfold unmount.
  destruct (close_current_frame (stopMusic None s))
    as (-> & _ & -> & _ & -> & -> & _ & _ & _ & Hws & -> & -> & _).
  rewrite stopMusic_isPlaying, stopMusic_transport, stopMusic_persistentErrors.
  destruct (stopMusic_summary {| title := ""; messages := [] |} s)
    as (_ & _ & -> & _).
  do 2 (split; [done|]).
  split.
  { intros t tm Ht. rewrite stopMusic_timers, Ht, list_lookup_alter_eq.
    destruct (timers s !! t); [|done]. by intros [= <-]. }
  split.
  { intros q sq Hq. rewrite stopMusic_sequences, Hq, list_lookup_alter_eq.
    destruct (sequences s !! q); [|done]. by intros [= <-]. }
  split; [|done].
  intros cur k Hcur. rewrite close_current_sessions.
  destruct (stopMusic_view None s) as (_ & _ & _ & _ & _ & Hws' & _).
  rewrite Hws', Hcur. rewrite decide_True by done.
  destruct (sessions (stopMusic None s) !! cur) as [k0|]; [|done].
  simpl. intros [= <-]. unfold close_socket.
  destruct (readyState k0) eqn:Hr; simpl; rewrite ?Hr; auto.
Qed.

Lemma unmount_releases_witness :
  ∃ k, sessions (step defaultSeconds
                   (run defaultSeconds initialApp [PlayClick; ClassifyOk 0 "default"])
                   Unmount) !! 0%nat = Some k ∧
       (readyState k = CLOSING ∨ readyState k = CLOSED).
Proof.
  eexists. split; [vm_compute; reflexivity|].
  destruct (unmount_releases defaultSeconds
              (run defaultSeconds initialApp [PlayClick; ClassifyOk 0 "default"]))
    as (_ & _ & _ & _ & Hsock & _).
  apply (Hsock 0%nat); vm_compute; reflexivity.
Defined.
